(** * chws_subset: orchestration pipeline of the notocjk font builder

    A shallow embedding of [src/chws_subset/__init__.py] and
    [src/chws_subset/__main__.py].  Files, fonts and the printed status
    lines are explicit data; every function of the package is a computation
    in a small state-and-exception monad over a [world] (file system and
    trace of observable actions).  The external collaborators (the CHWS
    patch tool, the variable-font instancer, the HTTP client and the URL
    parser) are fields of an [Externals] record that the program takes as a
    parameter. *)

From Stdlib Require Import ZArith Lia Ascii String.
From Stdlib.Strings Require Import Byte.
From stdpp Require Import base numbers list strings gmap sets sorting pretty.

Open Scope string_scope.
Open Scope list_scope.
Open Scope Z_scope.

(** ** Strings *)

(** [s.split(sep)] for a one-character separator: the pieces between the
    separators, in order (always at least one piece). *)
Fixpoint split_on (sep : ascii) (s : string) : list string :=
  match s with
  | EmptyString => [""]
  | String c s' =>
      if decide (c = sep) then "" :: split_on sep s'
      else match split_on sep s' with
           | [] => [String c ""]
           | piece :: pieces => String c piece :: pieces
           end
  end.

Definition hex_digit (c : ascii) : option Z :=
  let n := Z.of_nat (nat_of_ascii c) in
  if decide (48 ≤ n ≤ 57) then Some (n - 48)
  else if decide (65 ≤ n ≤ 70) then Some (n - 55)
  else if decide (97 ≤ n ≤ 102) then Some (n - 87)
  else None.

Fixpoint parse_hex_go (acc : Z) (s : string) : option Z :=
  match s with
  | EmptyString => Some acc
  | String c s' =>
      match hex_digit c with
      | Some d => parse_hex_go (16 * acc + d) s'
      | None => None
      end
  end.

(** [int(s, 16)] on a non-empty string of hexadecimal digits. *)
Definition parse_hex (s : string) : option Z :=
  match s with
  | EmptyString => None
  | _ => parse_hex_go 0 s
  end.

(** [tool_utils.parse_int_ranges(range_string)] of nototools with its
    defaults (hexadecimal, separated by spaces): every token is one value
    or an inclusive range [lo-hi]; a token that does not parse makes the
    whole call fail. *)
Definition parse_int_range (token : string) : option (list Z) :=
  match split_on "-" token with
  | [v] => lo ← parse_hex v; Some [lo]
  | [l; h] =>
      lo ← parse_hex l; hi ← parse_hex h;
      Some (seqZ lo (hi - lo + 1))
  | _ => None
  end.

Fixpoint parse_int_ranges_go (tokens : list string) : option (list Z) :=
  match tokens with
  | [] => Some []
  | t :: ts =>
      if decide (t = "") then parse_int_ranges_go ts
      else r ← parse_int_range t; rs ← parse_int_ranges_go ts; Some (r ++ rs)
  end.

Definition parse_int_ranges (range_string : string) : list Z :=
  default [] (parse_int_ranges_go (split_on " " range_string)).

(** ** The codepoint exclusion set (lines 18-64) *)

Definition EMOJI_IN_CJK : gset Z :=
  list_to_set
    [0x26BD; 0x26BE; 0x1F18E; 0x1F191; 0x1F192; 0x1F193; 0x1F194; 0x1F195;
     0x1F196; 0x1F197; 0x1F198; 0x1F199; 0x1F19A; 0x1F201; 0x1F21A; 0x1F22F;
     0x1F232; 0x1F233; 0x1F234; 0x1F235; 0x1F236; 0x1F238; 0x1F239; 0x1F23A;
     0x1F250; 0x1F251].

Definition ANDROID_EMOJI : gset Z :=
  list_to_set
    [0x2600; 0x2601; 0x260E; 0x261D; 0x263A; 0x2660; 0x2663; 0x2665;
     0x2666; 0x270C; 0x2744; 0x2764].

Definition CONTROL_CHARS : gset Z :=
  list_to_set (parse_int_ranges "0000-001F").

(** [frozenset(sorted(EMOJI_IN_CJK | ANDROID_EMOJI | CONTROL_CHARS))] *)
Definition EXCLUDED_CODEPOINTS : gset Z :=
  list_to_set
    (merge_sort Z.le (elements (EMOJI_IN_CJK ∪ ANDROID_EMOJI ∪ CONTROL_CHARS))).

(** ** Paths

    A [pathlib] path is its list of components; the empty list is the
    current directory.  Components hold no separator. *)

Abbreviation path := (list string).

(** [Path(p).name] *)
Definition path_name (p : path) : string := List.last p "".

(** [Path(p).parent] *)
Definition path_parent (p : path) : path := removelast p.

(** [Path(p) / s] for a single component [s] *)
Definition path_join (p : path) (s : string) : path :=
  if decide (s = "" ∨ s = ".") then p else p ++ [s].

(** [Path(in_ttc).name + f"#{i}.ttf"] *)
Definition member_name (in_ttc : path) (i : nat) : string :=
  path_name in_ttc +:+ "#" +:+ pretty i +:+ ".ttf".

(** ** Fonts: the structured representation of [ttLib.TTFont]

    A font is a dictionary from table tags to tables.  The tables the
    program looks at have typed fields; an absent optional table is [None].
    Every font has a character map and a naming table. *)

Record axis := Axis
  { axisTag : string; minValue : Z; defaultValue : Z; maxValue : Z }.

Record VVAR_table := VVARTable
  { VOrgMap : option (list Z); AdvHeightMap : option (list Z) }.

Record font := Font
  { cmap : gmap Z string;
    fvar : option (list axis);
    VORG : option (list (string * Z));
    VVAR : option VVAR_table;
    name : list (Z * string);
    other_tables : list string }.

Global Instance axis_eq_dec : EqDecision axis.
Proof. solve_decision. Defined.
Global Instance VVAR_table_eq_dec : EqDecision VVAR_table.
Proof. solve_decision. Defined.
Global Instance font_eq_dec : EqDecision font.
Proof. solve_decision. Defined.

(** [tag in font] *)
Definition font_contains (tag : string) (f : font) : bool :=
  if decide (tag = "cmap") then true
  else if decide (tag = "name") then true
  else if decide (tag = "fvar") then bool_decide (is_Some (fvar f))
  else if decide (tag = "VORG") then bool_decide (is_Some (VORG f))
  else if decide (tag = "VVAR") then bool_decide (is_Some (VVAR f))
  else bool_decide (tag ∈ other_tables f).

(** [font_data.delete_from_cmap(font, chars)] of nototools: every listed
    codepoint is removed from the character map; a codepoint that is not
    mapped is skipped. *)
Definition delete_from_cmap (f : font) (chars : gset Z) : font :=
  Font (filter (λ kv, kv.1 ∉ chars) (cmap f))
       (fvar f) (VORG f) (VVAR f) (name f) (other_tables f).

Definition set_VORG (v : option (list (string * Z))) (f : font) : font :=
  Font (cmap f) (fvar f) v (VVAR f) (name f) (other_tables f).

Definition set_VVAR (v : option VVAR_table) (f : font) : font :=
  Font (cmap f) (fvar f) (VORG f) v (name f) (other_tables f).

(** The axis limits handed to the instancer: tag, then (min, default, max). *)
Abbreviation axis_limits := (list (string * (Z * Z * Z))).

(** ** Files, exceptions, observable actions *)

Abbreviation bytes := (list Byte.byte).

Global Instance byte_eq_dec : EqDecision Byte.byte := Byte.byte_eq_dec.

Inductive node :=
  | Dir
  | File (data : bytes).

Inductive exn :=
  | KeyError (tag : string)
  | IndexError
  | FileNotFoundError (p : path)
  | FileExistsError (p : path)
  | NotADirectoryError (p : path)
  | IsADirectoryError (p : path)
  | TTLibError (p : path)
  | PatchError (p : path)
  | InstancerError
  | TransportError (url : string).

(** The status lines the program prints, one constructor per format. *)
Inductive line :=
  | ADD_CHWS (in_ttf : path)
  | SUBSET (chws_output : path)
  | VFINST (chws_output : path)
  | TTF (out_ttf : path)
  | FETCH (save_path : path)
  | UNTTC_member (in_ttc out_file : path)
  | UNTTC (in_ttc : path)
  | TTC (out_ttc : path).

Inductive event :=
  | Print (l : line)
  | LogError (url : string)
  | HttpGet (url : string)
  | Acquire
  | Release
  | Shutdown
  | Rmtree (root : path).

Global Instance line_eq_dec : EqDecision line.
Proof. solve_decision. Defined.
Global Instance event_eq_dec : EqDecision event.
Proof. solve_decision. Defined.

Inductive result (A : Type) :=
  | Ok (a : A)
  | Raise (e : exn).
Arguments Ok {A} a.
Arguments Raise {A} e.

Record world := World
  { fs : gmap path node;
    trace : list event }.

(** ** External collaborators *)

Record response := Response
  { status_code : Z;
    chunks : list bytes;
    stream_ok : bool }.

Inductive http_outcome :=
  | ConnectFailed
  | Responded (r : response).

Record Externals := MkExternals
  { (** [ttLib.TTFont(path)]: the font read from a file's bytes *)
    read_font : bytes → option font;
    (** [ttLib.TTCollection(path)]: the members read from a file's bytes *)
    read_ttc : bytes → option (list font);
    (** [font.save(path)] and [ttc.save(path)]: the bytes written *)
    write_font : font → bytes;
    write_ttc : list font → bytes;
    (** [chws_tool.add_chws(input, output)]: the bytes of the patched
        file, or no result when the tool raises *)
    add_chws : bytes → option bytes;
    (** [instancer.instantiateVariableFont(font, limits, inplace=True,
        updateFontNames=...)] *)
    instantiateVariableFont : font → axis_limits → bool → option font;
    (** [urllib.parse.urlparse(url).path] *)
    urlparse_path : string → string;
    (** the final response of a streaming GET that follows redirects *)
    http_stream : string → http_outcome }.

(** ** The monad of the program: state passing with exceptions *)

Definition M (A : Type) : Type := world → result A * world.

Definition ret {A} (a : A) : M A := λ w, (Ok a, w).

Definition raise {A} (e : exn) : M A := λ w, (Raise e, w).

Definition bind {A B} (m : M A) (k : A → M B) : M B := λ w,
  match m w with
  | (Ok a, w') => k a w'
  | (Raise e, w') => (Raise e, w')
  end.

Notation "x <- m ;; k" := (bind m (λ x, k))
  (at level 100, m at next level, right associativity, only parsing).
Notation "m ;; k" := (bind m (λ _, k))
  (at level 100, right associativity, only parsing).

Definition emit (ev : event) : M unit := λ w,
  (Ok tt, World (fs w) (trace w ++ [ev])).

Definition print (l : line) : M unit := emit (Print l).

(** [for x in xs: body(x)] *)
Fixpoint for_each {A} (xs : list A) (body : A → M unit) : M unit :=
  match xs with
  | [] => ret tt
  | x :: xs' => body x ;; for_each xs' body
  end.

(** ** The file system *)

Definition lookup_node (m : gmap path node) (p : path) : option node :=
  match p with
  | [] => Some Dir
  | _ => m !! p
  end.

Definition is_dir (m : gmap path node) (p : path) : bool :=
  match lookup_node m p with
  | Some Dir => true
  | _ => false
  end.

Definition is_file (m : gmap path node) (p : path) : bool :=
  match lookup_node m p with
  | Some (File _) => true
  | _ => false
  end.

(** no component of [d], nor [d] itself, is a regular file: the directory
    [d] exists or can be made *)
Definition no_file_above (m : gmap path node) (d : path) : bool :=
  forallb (λ n, negb (is_file m (take n d))) (seq 0 (S (length d))).

(** [open(p)] on a path at which the model has no node: a regular file
    on the way to [p] gives [NotADirectoryError]; a last component [..]
    below an existing directory names that directory's parent, which is a
    directory; anything else is missing *)
Definition open_error (m : gmap path node) (p : path) : exn :=
  if negb (no_file_above m (path_parent p)) then NotADirectoryError p
  else if is_dir m (path_parent p) && bool_decide (path_name p = "..")
  then IsADirectoryError p
  else FileNotFoundError p.

(** no component is [..]: the path names what its components say *)
Definition plain (p : path) : bool :=
  forallb (λ c, negb (bool_decide (c = ".."))) p.

(** [os.mkdir(d)] *)
Definition os_mkdir (m : gmap path node) (d : path) : result (gmap path node) :=
  match lookup_node m d with
  | Some _ => Raise (FileExistsError d)
  | None =>
      match lookup_node m (path_parent d) with
      | None => Raise (FileNotFoundError d)
      | Some (File _) => Raise (NotADirectoryError d)
      | Some Dir => Ok (<[d := Dir]> m)
      end
  end.

(** [Path(d).mkdir(parents=True, exist_ok=True)], by recursion on the
    reversed path [rd]: a missing parent is made first, and an existing
    directory is accepted. *)
Fixpoint mkdir_parents (rd : list string) (m : gmap path node)
  : result (gmap path node) :=
  match rd with
  | [] => Ok m
  | _ :: rparent =>
      let d := rev rd in
      match os_mkdir m d with
      | Ok m' => Ok m'
      | Raise (FileNotFoundError _) =>
          match mkdir_parents rparent m with
          | Ok m1 =>
              match os_mkdir m1 d with
              | Ok m2 => Ok m2
              | Raise e => if is_dir m1 d then Ok m1 else Raise e
              end
          | Raise e => Raise e
          end
      | Raise e => if is_dir m d then Ok m else Raise e
      end
  end.

(** [ensure_parent_dir(path)] (lines 68-69) *)
Definition ensure_parent_dir (p : path) : M unit := λ w,
  match mkdir_parents (rev (path_parent p)) (fs w) with
  | Ok m' => (Ok tt, World m' (trace w))
  | Raise e => (Raise e, w)
  end.

(** [open(p, "wb")]: the file is created or truncated; a last component
    [..] names a directory and cannot be opened for writing *)
Definition open_wb (p : path) : M unit := λ w,
  match lookup_node (fs w) p with
  | Some Dir => (Raise (IsADirectoryError p), w)
  | _ =>
      match lookup_node (fs w) (path_parent p) with
      | None => (Raise (open_error (fs w) p), w)
      | Some (File _) => (Raise (NotADirectoryError p), w)
      | Some Dir =>
          if decide (path_name p = "..")
          then (Raise (IsADirectoryError p), w)
          else (Ok tt, World (<[p := File []]> (fs w)) (trace w))
      end
  end.

(** [f.write(chunk)] on the file opened at [p] *)
Definition write_chunk (p : path) (chunk : bytes) : M unit := λ w,
  match lookup_node (fs w) p with
  | Some (File data) =>
      (Ok tt, World (<[p := File (data ++ chunk)]> (fs w)) (trace w))
  | _ => (Raise (FileNotFoundError p), w)
  end.

(** writing a whole file, as the [save] methods of the font library do *)
Definition write_file (p : path) (data : bytes) : M unit :=
  open_wb p ;; write_chunk p data.

(** [open(p, "rb").read()] *)
Definition read_file (p : path) : M bytes := λ w,
  match lookup_node (fs w) p with
  | Some (File data) => (Ok data, w)
  | Some Dir => (Raise (IsADirectoryError p), w)
  | None => (Raise (open_error (fs w) p), w)
  end.

(** [shutil.rmtree(root)] *)
Definition rmtree (root : path) : M unit := λ w,
  let w1 := World (fs w) (trace w ++ [Rmtree root]) in
  match lookup_node (fs w) root with
  | None => (Raise (FileNotFoundError root), w1)
  | Some (File _) => (Raise (NotADirectoryError root), w1)
  | Some Dir =>
      (Ok tt, World (filter (λ kv, ¬ root `prefix_of` kv.1) (fs w)) (trace w1))
  end.

(** ** The program: [src/chws_subset/__init__.py] *)

Section Program.

Context (E : Externals).

(** [ttLib.TTFont(p)] *)
Definition load_font (p : path) : M font :=
  data <- read_file p ;;
  match read_font E data with
  | Some f => ret f
  | None => raise (TTLibError p)
  end.

(** [ttLib.TTCollection(p)] *)
Definition load_ttc (p : path) : M (list font) :=
  data <- read_file p ;;
  match read_ttc E data with
  | Some members => ret members
  | None => raise (TTLibError p)
  end.

(** [chws_tool.add_chws(in_ttf, chws_output)] *)
Definition run_add_chws (in_ttf chws_output : path) : M unit :=
  data <- read_file in_ttf ;;
  match add_chws E data with
  | Some patched => write_file chws_output patched
  | None => raise (PatchError in_ttf)
  end.

(** [del font['VORG']] *)
Definition del_VORG (f : font) : M font :=
  match VORG f with
  | Some _ => ret (set_VORG None f)
  | None => raise (KeyError "VORG")
  end.

(** [font['VVAR'].table.VOrgMap = None] *)
Definition clear_VOrgMap (f : font) : M font :=
  match VVAR f with
  | Some t => ret (set_VVAR (Some (VVARTable None (AdvHeightMap t))) f)
  | None => raise (KeyError "VVAR")
  end.

(** [instancer.instantiateVariableFont(font, limits, inplace=True,
    updateFontNames=update_names)] *)
Definition run_instancer (f : font) (limits : axis_limits) (update_names : bool)
  : M font :=
  match instantiateVariableFont E f limits update_names with
  | Some f' => ret f'
  | None => raise InstancerError
  end.

Definition wght_limits : axis_limits := [("wght", (100, 400, 900))].

(** lines 86-92 of [process_ttf_worker]: the branch for fonts with an
    ['fvar'] table *)
Definition instantiate_if_variable (chws_output : path) (font1 : font)
  : M font :=
  if font_contains "fvar" font1 then
    print (VFINST chws_output) ;;
    font2 <- del_VORG font1 ;;
    font3 <- clear_VOrgMap font2 ;;
    run_instancer font3 wght_limits false
  else ret font1.

(** [process_ttf_worker(in_ttf, out_ttf, temp_dir)] (lines 71-96) *)
Definition process_ttf_worker (in_ttf out_ttf temp_dir : path) : M unit :=
  let chws_output :=
    path_join (path_join temp_dir "intermediate_chws") (path_name in_ttf) in
  ensure_parent_dir chws_output ;;
  print (ADD_CHWS in_ttf) ;;
  run_add_chws in_ttf chws_output ;;
  print (SUBSET chws_output) ;;
  font0 <- load_font chws_output ;;
  let font1 := delete_from_cmap font0 EXCLUDED_CODEPOINTS in
  font4 <- instantiate_if_variable chws_output font1 ;;
  print (TTF out_ttf) ;;
  ensure_parent_dir out_ttf ;;
  write_file out_ttf (write_font E font4).

(** [async with actx] around [body]: the gate is taken before the body and
    given back when the body is left, by return or by exception.  No gate
    ([nullcontext()]) leaves the body as it is.  A download that runs as
    one turn never finds the gate taken, so the counter of the semaphore
    does not appear here; it does in [loop], where downloads overlap. *)
Definition with_gate {A} (gated : bool) (body : M A) : M A := λ w,
  if gated then
    match emit Acquire w with
    | (_, w1) =>
        match body w1 with
        | (r, w2) => (r, World (fs w2) (trace w2 ++ [Release]))
        end
    end
  else body w.

(** [async for chunk in response.aiter_bytes(): f.write(chunk)]; a stream
    that breaks raises after its last chunk. *)
Definition stream_to (url : string) (p : path) (r : response) : M unit :=
  for_each (chunks r) (write_chunk p) ;;
  if stream_ok r then ret tt else raise (TransportError url).

(** lines 104-124 of [download_file]: the body of [async with actx].  It
    ends early with the value to return, or falls through to line 125.
    The progress bar is left out. *)
Definition fetch_body (url : string) (save_path_file_name : path)
  : M (option bool) :=
  print (FETCH save_path_file_name) ;;
  emit (HttpGet url) ;;
  match http_stream E url with
  | ConnectFailed => raise (TransportError url)
  | Responded response =>
      if decide (status_code response ≠ 200) then
        emit (LogError url) ;;
        ret (Some false)
      else
        ensure_parent_dir save_path_file_name ;;
        open_wb save_path_file_name ;;
        stream_to url save_path_file_name response ;;
        ret None
  end.

(** [download_file(url, save_path_file_name, actx)] (lines 99-125);
    [gated] tells whether [actx] is a semaphore or absent *)
Definition download_file (url : string) (save_path_file_name : path)
    (gated : bool) : M bool :=
  early <- with_gate gated (fetch_body url save_path_file_name) ;;
  match early with
  | Some b => ret b
  | None => ret true
  end.

(** [unpack_ttc_worker(in_ttc, index, out_file)] (lines 128-133) *)
Definition unpack_ttc_worker (in_ttc : path) (index : nat) (out_file : path)
  : M unit :=
  print (UNTTC_member in_ttc out_file) ;;
  ttc <- load_ttc in_ttc ;;
  match ttc !! index with
  | None => raise IndexError
  | Some font =>
      ensure_parent_dir out_file ;;
      write_file out_file (write_font E font)
  end.

(** ** Awaiting several tasks: [asyncio.gather]

    A task is the list of its remaining steps; the event loop advances one
    task at a time.  [sched] is the order in which the loop picks tasks; a
    pick of a finished or unknown task is skipped, and when [sched] is
    used up the remaining steps run in task order.  The first exception
    ends the wait. *)

Fixpoint run_in_order (tasks : list (list (M unit))) : M unit :=
  match tasks with
  | [] => ret tt
  | t :: ts => for_each t (λ step, step) ;; run_in_order ts
  end.

Fixpoint gather (sched : list nat) (tasks : list (list (M unit))) : M unit :=
  match sched with
  | [] => run_in_order tasks
  | i :: sched' =>
      match tasks !! i with
      | Some (step :: rest) => step ;; gather sched' (<[i := rest]> tasks)
      | _ => gather sched' tasks
      end
  end.


(** [pack_ttc(ttfs, out_ttc)] (lines 150-156) *)
Fixpoint load_fonts (ttfs : list path) : M (list font) :=
  match ttfs with
  | [] => ret []
  | ttf :: rest =>
      f <- load_font ttf ;;
      fonts <- load_fonts rest ;;
      ret (f :: fonts)
  end.

Definition pack_ttc (ttfs : list path) (out_ttc : path) : M unit :=
  print (TTC out_ttc) ;;
  fonts <- load_fonts ttfs ;;
  ensure_parent_dir out_ttc ;;
  write_file out_ttc (write_ttc E fonts).

Definition ttcf : bytes := ["t"; "t"; "c"; "f"]%byte.

(** [is_ttc(file_path)] (lines 159-161) *)
Definition is_ttc (file_path : path) : M bool :=
  data <- read_file file_path ;;
  ret (bool_decide (take 4 data = ttcf)).

(** [process_ttf(executor, in_ttf, out_ttf, temp_dir)] (lines 164-166) *)
Definition process_ttf (in_ttf out_ttf temp_dir : path) : M unit :=
  process_ttf_worker in_ttf out_ttf temp_dir.

(** the coroutine [unpack_and_process_ttf] of [process_ttc], as its two
    awaited steps *)
Definition unpack_and_process_ttf (temp_dir in_ttc : path) (index : nat)
    (ttf_out : path) : list (M unit) :=
  let input_ttf :=
    path_join (path_join temp_dir "input_ttf") (member_name in_ttc index) in
  [unpack_ttc_worker in_ttc index input_ttf;
   process_ttf input_ttf ttf_out temp_dir].

Definition processed_ttf (temp_dir in_ttc : path) (i : nat) : path :=
  path_join (path_join temp_dir "processed_ttf") (member_name in_ttc i).

(** [process_ttc(executor, in_ttc, out_ttc, temp_dir)] (lines 169-186) *)
Definition process_ttc (sched : list nat) (in_ttc out_ttc temp_dir : path)
  : M unit :=
  ttc <- load_ttc in_ttc ;;
  let out_ttfs := map (processed_ttf temp_dir in_ttc) (seq 0 (length ttc)) in
  let coros :=
    map (λ i, unpack_and_process_ttf temp_dir in_ttc i
                (processed_ttf temp_dir in_ttc i))
        (seq 0 (length ttc)) in
  gather sched coros ;;
  pack_ttc out_ttfs out_ttc.

(** [process_font(executor, in_font, out_font, temp_dir)] (lines 189-193) *)
Definition process_font (sched : list nat) (in_font out_font temp_dir : path)
  : M unit :=
  collection <- is_ttc in_font ;;
  if collection then process_ttc sched in_font out_font temp_dir
  else process_ttf in_font out_font temp_dir.

End Program.

(** ** The run driver: [src/chws_subset/__main__.py] *)

Definition DEFAULT_DOWNLOADING_FONTS : list (string * string) :=
  [("NotoSerifCJK-VF.otf.ttc",
    "https://github.com/notofonts/noto-cjk/raw/refs/heads/main/Serif/Variable/OTC/NotoSerifCJK-VF.otf.ttc");
   ("NotoSansCJK-VF.otf.ttc",
    "https://github.com/notofonts/noto-cjk/raw/refs/heads/main/Sans/Variable/OTC/NotoSansCJK-VF.otf.ttc")].

Definition installer_url : string :=
  "https://github.com/topjohnwu/Magisk/raw/master/scripts/module_installer.sh".

Definition installer_path : path :=
  ["META-INF"; "com"; "google"; "android"; "update-binary"].

Definition temp_dir : path := ["temp"].

(** The capacity of [download_sem = asyncio.Semaphore(2)]. *)
Definition download_sem_capacity : nat := 2.

(** Lines 22-27: the URLs of the run and whether the installer script is
    fetched too.  An empty [--url] counts as not given. *)
Definition select_urls (args_url : option string) : list string * bool :=
  match args_url with
  | Some u => if decide (u = "") then (DEFAULT_DOWNLOADING_FONTS.*2, true)
              else ([u], false)
  | None => (DEFAULT_DOWNLOADING_FONTS.*2, true)
  end.

(** The order in which the event loop runs the awaited steps: of the
    asset chains of [main], and of the member chains of each asset. *)
Record schedules := Schedules
  { main_sched : list nat;
    font_sched : string → list nat }.

Section Driver.

Context (E : Externals) (sch : schedules).

Definition base_file_name (url : string) : string :=
  List.last (split_on "/" (urlparse_path E url)) "".

Definition input_file (url : string) : path :=
  path_join (path_join temp_dir "input") (base_file_name url).

(** the coroutine [download_and_process_file(url)] (lines 34-38), as its
    two awaited steps; the result of the download is dropped.  Each of the
    two is one turn of the chain here: the turns of other chains fall
    before or after a download and before or after the processing of an
    asset, not inside them.  How the downloads overlap inside
    [async with actx] is the matter of [dl_step] below. *)
Definition download_and_process_file (url : string) : list (M unit) :=
  [ (_ <- download_file E url (input_file url) true ;; ret tt);
    process_font E (font_sched sch url) (input_file url)
      (path_join ["system"; "fonts"] (base_file_name url)) temp_dir ].

(** line 43: the installer script is fetched without a gate *)
Definition download_installer : list (M unit) :=
  [ (_ <- download_file E installer_url installer_path false ;; ret tt) ].

(** lines 40-45: the awaited chains of a run *)
Definition main_futures (args_url : option string) : list (list (M unit)) :=
  let '(urls, build_module) := select_urls args_url in
  map download_and_process_file urls
  ++ (if build_module : bool then [download_installer] else []).

Definition run_chains (args_url : option string) : M unit :=
  gather (main_sched sch) (main_futures args_url).

(** [main()] (lines 16-47) *)
Definition main (args_url : option string) : M unit :=
  run_chains args_url ;;
  emit Shutdown ;;
  rmtree temp_dir.

End Driver.

(** ** The counting gate under interleaving

    Downloads run as concurrent tasks of one event loop.  Each is pending
    until it enters [async with actx], active while it transfers, and
    finished once it has left the block.  [asyncio.Semaphore]: entering
    needs a positive counter and takes one from it; leaving gives one
    back.  [nullcontext()] lets a download enter at once. *)
Module Gate.

Inductive phase := Pending | Active | Finished.

Record download := Download { gated : bool; ph : phase }.

Record state := State { value : nat; downloads : list download }.

Global Instance phase_eq_dec : EqDecision phase.
Proof. solve_decision. Defined.
Global Instance download_eq_dec : EqDecision download.
Proof. solve_decision. Defined.

Inductive step : state → state → Prop :=
  | step_acquire v ds i :
      ds !! i = Some (Download true Pending) →
      step (State (S v) ds) (State v (<[i := Download true Active]> ds))
  | step_enter_nullcontext v ds i :
      ds !! i = Some (Download false Pending) →
      step (State v ds) (State v (<[i := Download false Active]> ds))
  | step_release v ds i :
      ds !! i = Some (Download true Active) →
      step (State v ds) (State (S v) (<[i := Download true Finished]> ds))
  | step_exit_nullcontext v ds i :
      ds !! i = Some (Download false Active) →
      step (State v ds) (State v (<[i := Download false Finished]> ds)).

Definition initial (capacity : nat) (gates : list bool) : state :=
  State capacity (map (λ g, Download g Pending) gates).

Definition reachable (s0 s : state) : Prop := rtc step s0 s.

Definition is_active (d : download) : bool :=
  bool_decide (ph d = Active).

(** the number of downloads that are transferring *)
Definition active (s : state) : nat :=
  length (filter (λ d, is_active d = true) (downloads s)).

Definition active_gated (s : state) : nat :=
  length (filter (λ d, is_active d = true ∧ gated d = true) (downloads s)).

Definition ungated (s : state) : nat :=
  length (filter (λ d, gated d = false) (downloads s)).

End Gate.

(** ** A reference environment

    Concrete collaborators on which the program can be run: a small
    catalogue of fonts with a byte format of their own, a patch tool that
    accepts every font of the catalogue, an instancer that narrows or pins
    the axes it is given limits for, and a server that knows three URLs. *)
Module Ref.

Definition font_A : font :=
  Font {[ 0x41 := "A"; 0x26BD := "soccer"; 0x9 := "tab" ]} None None None
       [(1, "Ref Sans")] ["GPOS"].

Definition font_A_subset : font :=
  Font {[ 0x41 := "A" ]} None None None [(1, "Ref Sans")] ["GPOS"].

Definition font_B : font :=
  Font {[ 0x42 := "B" ]} None None None [(1, "Ref Serif")] [].

Definition font_V : font :=
  Font {[ 0x41 := "A" ]} (Some [Axis "wght" 100 100 900])
       (Some [("A", 880)]) (Some (VVARTable (Some [0]) (Some [1])))
       [(1, "Ref VF")] [].

Definition font_V_no_VORG : font :=
  Font {[ 0x41 := "A" ]} (Some [Axis "wght" 100 100 900])
       None (Some (VVARTable (Some [0]) (Some [1])))
       [(1, "Ref VF")] [].

Definition font_V_no_VVAR : font :=
  Font {[ 0x41 := "A" ]} (Some [Axis "wght" 100 100 900])
       (Some [("A", 880)]) None [(1, "Ref VF")] [].

Definition font_V_instance : font :=
  Font {[ 0x41 := "A" ]} (Some [Axis "wght" 100 400 900])
       None (Some (VVARTable None (Some [1])))
       [(1, "Ref VF")] [].

Definition catalogue : list font :=
  [font_A; font_A_subset; font_B; font_V; font_V_no_VORG; font_V_no_VVAR;
   font_V_instance].

Fixpoint index_of (f : font) (l : list font) : option nat :=
  match l with
  | [] => None
  | g :: l' => if decide (f = g) then Some 0%nat else S <$> index_of f l'
  end.

Definition font_code (f : font) : option Byte.byte :=
  i ← index_of f catalogue; Byte.of_nat i.

Definition font_of_code (b : Byte.byte) : option font :=
  catalogue !! Byte.to_nat b.

Definition sfnt_magic : bytes := ["O"; "T"; "T"; "O"]%byte.

Definition write_font (f : font) : bytes :=
  match font_code f with
  | Some b => sfnt_magic ++ [b]
  | None => []
  end.

Definition read_font (data : bytes) : option font :=
  match data with
  | [m1; m2; m3; m4; b] =>
      if decide ([m1; m2; m3; m4] = sfnt_magic) then font_of_code b else None
  | _ => None
  end.

Definition write_ttc (members : list font) : bytes :=
  match mapM font_code members with
  | Some codes => ttcf ++ codes
  | None => []
  end.

Definition read_ttc (data : bytes) : option (list font) :=
  if decide (take 4 data = ttcf) then mapM font_of_code (drop 4 data)
  else None.

Definition add_chws (data : bytes) : option bytes :=
  match read_font data with
  | Some _ => Some data
  | None => None
  end.

(** An axis with a limit is narrowed to it and dropped when the limit is a
    single point; a limit for an axis the font does not have is refused;
    a font left without axes loses its [fvar] table. *)
Definition limit_axis (limits : axis_limits) (a : axis) : option axis :=
  match list_find (λ l, l.1 = axisTag a) limits with
  | Some (_, (_, (lo, d, hi))) =>
      if decide (lo = hi) then None else Some (Axis (axisTag a) lo d hi)
  | None => Some a
  end.

Definition instantiateVariableFont (f : font) (limits : axis_limits)
    (update_names : bool) : option font :=
  match fvar f with
  | None => None
  | Some axes =>
      if bool_decide (Forall (λ l, l.1 ∈ map axisTag axes) limits) then
        let axes' := omap (limit_axis limits) axes in
        Some (Font (cmap f) (if decide (axes' = []) then None else Some axes')
                   (VORG f) (VVAR f) (name f) (other_tables f))
      else None
  end.

(** the path of an absolute URL: what follows scheme and host *)
Definition urlparse_path (url : string) : string :=
  foldr (λ piece acc, "/" +:+ piece +:+ acc) "" (drop 3 (split_on "/" url)).

Definition url_A : string := "https://fonts.example/dl/A.otf".
Definition url_AB : string := "https://fonts.example/dl/AB.ttc".
Definition url_junk : string := "https://fonts.example/dl/junk.otf".
Definition url_no_content : string := "https://fonts.example/dl/empty.otf".
Definition url_gone : string := "https://fonts.example/dl/gone.otf".

Definition http_stream (url : string) : http_outcome :=
  if decide (url = url_A) then
    Responded (Response 200 [sfnt_magic; drop 4 (write_font font_A)] true)
  else if decide (url = url_AB) then
    Responded (Response 200 [write_ttc [font_A; font_B]] true)
  else if decide (url = url_junk) then
    Responded (Response 200 [["j"; "u"]%byte; ["n"; "k"]%byte] true)
  else if decide (url = url_no_content) then
    Responded (Response 204 [] true)
  else Responded (Response 404 [] true).

Definition externals : Externals :=
  MkExternals read_font read_ttc write_font write_ttc add_chws
    instantiateVariableFont urlparse_path http_stream.

Definition empty_world : world := World ∅ [].

(** what an earlier run left in the staging directory *)
Definition stale_world : world :=
  World {[ ["temp"] := Dir; ["temp"; "input"] := Dir;
           ["temp"; "input"; "gone.otf"] := File (write_font font_B) ]} [].

(** a world whose only file is the collection of [members] at [p] *)
Definition world_with_ttc (p : path) (members : list font) : world :=
  World {[ p := File (write_ttc members) ]} [].

(** a world whose only file is the font [f] at [p] *)
Definition world_with (p : path) (f : font) : world :=
  World {[ p := File (write_font f) ]} [].

Definition in_order : schedules := Schedules [] (λ _, []).

End Ref.

(** ** Preconditions on the file system *)

(** a file can be created or replaced at [p] *)
Definition writable (m : gmap path node) (p : path) : bool :=
  no_file_above m (path_parent p) && negb (is_dir m p) && plain p.

(** [m'] is [m] with directories added along [d] *)
Definition dirs_added (m m' : gmap path node) (d : path) : Prop :=
  ∀ p, m' !! p = m !! p ∨ (m !! p = None ∧ m' !! p = Some Dir ∧ p `prefix_of` d).

(** neither path is the other or lies below it *)
Definition unrelated (p q : path) : Prop :=
  ¬ p `prefix_of` q ∧ ¬ q `prefix_of` p.

(** [m''] is [m] after a file with [data] was saved at [p], its parent
    directories made on the way *)
Definition saved (m m'' : gmap path node) (p : path) (data : bytes) : Prop :=
  ∃ m1, dirs_added m m1 (path_parent p) ∧ m'' = <[p := File data]> m1.

(** what the font library says of its instancer: it adds no ['VORG'] table
    to a font that has none, and with [updateFontNames=False] it leaves the
    naming table as it is *)
Definition instancer_keeps_tables (E : Externals) : Prop :=
  ∀ f limits g,
    instantiateVariableFont E f limits false = Some g →
    (VORG f = None → VORG g = None) ∧ name g = name f.

(** the staging file of [process_ttf_worker] *)
Definition chws_output_of (temp_dir in_ttf : path) : path :=
  path_join (path_join temp_dir "intermediate_chws") (path_name in_ttf).

(** ** What a computation may do to the world *)

(** every run of [m] takes a world to one related to it by [R] *)
Definition preserves {A} (R : relation world) (m : M A) : Prop :=
  ∀ w r w', m w = (r, w') → R w w'.

(** the trace grows by events that are all [allowed] *)
Definition extends_trace (allowed : event → Prop) : relation world :=
  λ w w', ∃ evs, trace w' = trace w ++ evs ∧ Forall allowed evs.

(** regular files stay regular files *)
Definition keeps_files : relation world :=
  λ w w', ∀ p, is_file (fs w) p = true → is_file (fs w') p = true.

(** the events of the stages of the pipeline *)
Definition transform_event (ev : event) : Prop :=
  match ev with
  | Print (ADD_CHWS _ | SUBSET _ | VFINST _ | TTF _ | UNTTC_member _ _) => True
  | _ => False
  end.

Definition pack_event (ev : event) : Prop :=
  match ev with
  | Print (TTC _) => True
  | _ => False
  end.

Definition transfer_event (ev : event) : Prop :=
  match ev with
  | Print (FETCH _) | HttpGet _ | LogError _ => True
  | _ => False
  end.

Definition gate_event (ev : event) : Prop :=
  match ev with
  | Acquire | Release => True
  | _ => False
  end.

(** everything but the shutdown of the pool and the removal of a tree *)
Definition stage_event (ev : event) : Prop :=
  match ev with
  | Shutdown | Rmtree _ => False
  | _ => True
  end.

(** how often the staging root was removed *)
Definition teardowns (w : world) : nat :=
  length (filter (λ ev, ev = Rmtree temp_dir) (trace w)).

(** the events with which [async with actx] frames its body *)
Definition gate_open (gated : bool) : list event :=
  if gated then [Acquire] else [].

Definition gate_close (gated : bool) : list event :=
  if gated then [Release] else [].

(** ** The downloads of a run, step by step

    [download_file] as the event loop runs it.  A download is pending until
    it has entered [async with actx]: through [download_sem] that needs a
    free slot and takes it, without a gate ([nullcontext()]) it is entered
    at once.  It is active while its transfer is under way, and finished
    when it has left the block, by return or by exception, which gives the
    slot back.  Between the steps of one download the loop may run the
    steps of the others; what the transfer does to the world is
    [fetch_body], the body of the block, and takes effect when the
    transfer ends. *)

(** a download that [main] starts (lines 37 and 43): what it fetches,
    where to, and whether it goes through [download_sem] *)
Record launch := Launch { l_url : string; l_path : path; l_gated : bool }.

Definition launches (E : Externals) (args_url : option string) : list launch :=
  let '(urls, build_module) := select_urls args_url in
  map (λ url, Launch url (input_file E url) true) urls
  ++ (if build_module : bool
      then [Launch installer_url installer_path false] else []).

(** the value of the semaphore, where each download is, and the world *)
Record loop := Loop
  { sem : nat; phases : list Gate.phase; loop_world : world }.

Inductive dl_step (E : Externals) (ls : list launch) : loop → loop → Prop :=
  | dl_acquire v ps w i l :
      ls !! i = Some l → l_gated l = true →
      ps !! i = Some Gate.Pending →
      dl_step E ls (Loop (S v) ps w)
        (Loop v (<[i := Gate.Active]> ps)
           (World (fs w) (trace w ++ gate_open true)))
  | dl_enter v ps w i l :
      ls !! i = Some l → l_gated l = false →
      ps !! i = Some Gate.Pending →
      dl_step E ls (Loop v ps w) (Loop v (<[i := Gate.Active]> ps) w)
  | dl_leave v ps w i l r w' :
      ls !! i = Some l → ps !! i = Some Gate.Active →
      fetch_body E (l_url l) (l_path l) w = (r, w') →
      dl_step E ls (Loop v ps w)
        (Loop (if l_gated l then S v else v) (<[i := Gate.Finished]> ps)
           (World (fs w') (trace w' ++ gate_close (l_gated l)))).

(** all downloads pending, [capacity] free slots *)
Definition dl_initial (capacity : nat) (ls : list launch) (w : world) : loop :=
  Loop capacity (map (λ _, Gate.Pending) ls) w.

(** what the gate sees of the downloads *)
Definition gate_view (ls : list launch) (s : loop) : Gate.state :=
  Gate.State (sem s) (zip_with Gate.Download (map l_gated ls) (phases s)).

(** the loop when [main] awaits its chains (line 45): no download has
    entered yet, and [download_sem] has all its slots (line 29) *)
Definition main_loop (E : Externals) (args_url : option string) (w : world)
  : loop :=
  dl_initial download_sem_capacity (launches E args_url) w.

(** how often a slot was taken, and given back *)
Definition acquires (evs : list event) : nat :=
  length (filter (λ ev, ev = Acquire) evs).

Definition releases (evs : list event) : nat :=
  length (filter (λ ev, ev = Release) evs).


(** the first awaited step of a chain of [main] is the download [l] *)
Definition starts_with (E : Externals) (chain : list (M unit)) (l : launch)
  : Prop :=
  ∃ rest,
    chain = (_ <- download_file E (l_url l) (l_path l) (l_gated l) ;; ret tt)
            :: rest.

(** ** Unpacking in progress *)

(** where member [i] of [in_ttc] is unpacked to *)
Definition member_path (out_dir in_ttc : path) (i : nat) : path :=
  path_join out_dir (member_name in_ttc i).



(** 1 where [P] holds, 0 elsewhere *)
Definition indicator {A} (P : A → Prop) `{!∀ x, Decision (P x)} (x : A) : nat :=
  if decide (P x) then 1%nat else 0%nat.

(** ** Kinds of nodes, work left at the gate *)

(** what exists keeps its kind: regular files stay regular files and
    directories stay directories *)
Definition keeps_kinds : relation world :=
  λ w w', ∀ p, (is_file (fs w) p = true → is_file (fs w') p = true)
             ∧ (is_dir (fs w) p = true → is_dir (fs w') p = true).

(** the file system is a tree: every proper ancestor of a node is a
    directory *)
Definition tree (m : gmap path node) : Prop :=
  ∀ p q, is_Some (m !! p) → q `prefix_of` p → q ≠ p → is_dir m q = true.




(** [c in s] for a character and a string *)
Definition has_char (c : ascii) (s : string) : Prop :=
  c ∈ list_ascii_of_string s.

(** ** Chains that write apart from each other *)

(** a tree-shaped file system stays one *)
Definition tree_kept : relation world :=
  λ w w', tree (fs w) → tree (fs w').

(** both: trees stay trees and nodes keep their kind *)
Definition tree_and_kinds : relation world :=
  λ w w', tree_kept w w' ∧ keeps_kinds w w'.

(** whatever lies apart from the paths of [F] is as writable as before and,
    if it is a regular file, holds what it held *)
Definition confined (F : path → Prop) : relation world :=
  λ w w', ∀ q, (∀ p, F p → unrelated p q) →
    (writable (fs w) q = true → writable (fs w') q = true)
    ∧ (∀ d, lookup_node (fs w) q = Some (File d) →
            lookup_node (fs w') q = Some (File d)).

(** ** Member chains in progress *)

(** the staging directories of [process_ttc] and the transform worker *)
Definition stage_dirs : list string :=
  ["input_ttf"; "intermediate_chws"; "processed_ttf"].

(** the file of member [i] in the staging directory [dir] *)
Definition slot (temp in_ttc : path) (dir : string) (i : nat) : path :=
  temp ++ [dir; member_name in_ttc i].

(** the chains of [process_ttc], chain [i] with its first [st i] steps done *)
Definition chain_tasks (E : Externals) (temp in_ttc : path) (n : nat)
    (st : nat → nat) : list (list (M unit)) :=
  map (λ i, drop (st i)
              (unpack_and_process_ttf E temp in_ttc i
                 (processed_ttf temp in_ttc i)))
      (seq 0 n).

(** what the chain of member [i] has on disk and can still write after
    [k] of its steps: [m] is the member, [g] what it is transformed to *)
Definition member_state (E : Externals) (temp in_ttc : path) (m g : font)
    (k i : nat) (files : gmap path node) : Prop :=
  match k with
  | 0%nat =>
      writable files (slot temp in_ttc "input_ttf" i) = true
      ∧ writable files (slot temp in_ttc "intermediate_chws" i) = true
      ∧ writable files (slot temp in_ttc "processed_ttf" i) = true
  | 1%nat =>
      lookup_node files (slot temp in_ttc "input_ttf" i)
      = Some (File (write_font E m))
      ∧ writable files (slot temp in_ttc "intermediate_chws" i) = true
      ∧ writable files (slot temp in_ttc "processed_ttf" i) = true
  | _ =>
      lookup_node files (slot temp in_ttc "processed_ttf" i)
      = Some (File (write_font E g))
  end.

(** the staging files of the first [n] members *)
Definition member_slots (temp in_ttc : path) (n : nat) (p : path) : Prop :=
  ∃ i dir, (i < n)%nat ∧ dir ∈ stage_dirs ∧ p = slot temp in_ttc dir i.

(** the state of the member chains of [process_ttc] in progress: the
    container is untouched, every member is where its chain has brought
    it, and nothing but the staging files has changed since [w0] *)
Definition chains_inv (E : Externals) (temp in_ttc : path) (data : bytes)
    (members outs : list font) (w0 : world)
    (tasks : list (list (M unit))) (w : world) : Prop :=
  ∃ st : nat → nat,
    tasks = chain_tasks E temp in_ttc (length members) st
    ∧ lookup_node (fs w) in_ttc = Some (File data)
    ∧ (∀ i m g, members !! i = Some m → outs !! i = Some g →
         member_state E temp in_ttc m g (st i) i (fs w))
    ∧ confined (member_slots temp in_ttc (length members)) w0 w.

(** lines 83-92 of [process_ttf_worker] when they succeed: [g] is the
    subset of the patched font [f], instantiated when [f] has variation
    axes *)
Definition subset_instance (E : Externals) (f g : font) : Prop :=
  let font1 := delete_from_cmap f EXCLUDED_CODEPOINTS in
  match fvar f with
  | None => g = font1
  | Some _ =>
      ∃ vorg vvar,
        VORG f = Some vorg ∧ VVAR f = Some vvar
        ∧ instantiateVariableFont E
            (set_VVAR (Some (VVARTable None (AdvHeightMap vvar)))
               (set_VORG None font1)) wght_limits false
          = Some g
  end.

(** the transform of member [m] succeeds and gives [g] *)
Definition transforms_to (E : Externals) (m g : font) : Prop :=
  ∃ patched f,
    add_chws E (write_font E m) = Some patched
    ∧ read_font E patched = Some f
    ∧ subset_instance E f g.

(** ** The assets of a run *)

(** what has to hold of the bytes of an asset for [process_font] to
    succeed with [result]: a collection whose members can all be
    transformed and are read back as saved, or one font that can be *)
Definition font_job (E : Externals) (data result : bytes) : Prop :=
  if bool_decide (take 4 data = ttcf) then
    ∃ members outs,
      read_ttc E data = Some members
      ∧ Forall2 (transforms_to E) members outs
      ∧ (∀ g, g ∈ outs → read_font E (write_font E g) = Some g)
      ∧ result = write_ttc E outs
  else
    ∃ patched f g,
      add_chws E data = Some patched
      ∧ read_font E patched = Some f
      ∧ subset_instance E f g
      ∧ result = write_font E g.

(** where the chain of [url] leaves its result (line 38) *)
Definition output_file (E : Externals) (url : string) : path :=
  path_join ["system"; "fonts"] (base_file_name E url).

(** the files the chain of [url] may write: the download, the result, and
    the staging files of the worker and of the members *)
Definition asset_files (E : Externals) (url : string) (p : path) : Prop :=
  p = input_file E url
  ∨ p = output_file E url
  ∨ p = chws_output_of temp_dir (input_file E url)
  ∨ ∃ dir k, dir ∈ stage_dirs ∧ p = slot temp_dir (input_file E url) dir k.

(** the awaited chains of a run for [urls] (lines 40-43) *)
Definition asset_chains (E : Externals) (sch : schedules)
    (urls : list string) (build_module : bool) : list (list (M unit)) :=
  map (download_and_process_file E sch) urls
  ++ (if build_module then [download_installer E] else []).

(** chains of which chain [i] has taken its first [st i] steps *)
Definition chains_left (chains : list (list (M unit))) (st : nat → nat)
  : list (list (M unit)) :=
  imap (λ i c, drop (st i) c) chains.

(** chains in progress: [G] holds, and chain [i] is in the state [P i k]
    that its first [k] steps lead to *)
Definition apart_inv (chains : list (list (M unit)))
    (P : nat → nat → world → Prop) (G : world → Prop)
    (tasks : list (list (M unit))) (w : world) : Prop :=
  ∃ st, tasks = chains_left chains st
        ∧ G w
        ∧ ∀ i c, chains !! i = Some c → P i (st i) w.

(** the files of chain [i] of a run: those of its asset, or the installer
    script *)
Definition main_files (E : Externals) (urls : list string) (i : nat)
    (p : path) : Prop :=
  match urls !! i with
  | Some u => asset_files E u p
  | None => p = installer_path
  end.

(** where chain [i] of a run is after [k] steps: it can write its files;
    then its download is in place; then its result is *)
Definition main_state (E : Externals) (urls : list string)
    (body result : string → bytes) (script : bytes) (i k : nat) (w : world)
  : Prop :=
  match urls !! i with
  | Some u =>
      match k with
      | 0%nat => ∀ p, asset_files E u p → writable (fs w) p = true
      | 1%nat =>
          lookup_node (fs w) (input_file E u) = Some (File (body u))
          ∧ is_dir (fs w) temp_dir = true
          ∧ ∀ p, asset_files E u p → p ≠ input_file E u →
                 writable (fs w) p = true
      | _ =>
          lookup_node (fs w) (output_file E u) = Some (File (result u))
          ∧ is_dir (fs w) temp_dir = true
      end
  | None =>
      match k with
      | 0%nat => writable (fs w) installer_path = true
      | _ => lookup_node (fs w) installer_path = Some (File script)
      end
  end.

(** the staging root exists or can be made *)
Definition staging_ready (w : world) : Prop :=
  tree (fs w) ∨ is_dir (fs w) temp_dir = true.

(** the server answers 200 for [url] and streams [data] to the end *)
Definition served (E : Externals) (url : string) (data : bytes) : Prop :=
  ∃ resp, http_stream E url = Responded resp
          ∧ status_code resp = 200
          ∧ stream_ok resp = true
          ∧ concat (chunks resp) = data.

(** ** A second environment, with a network that fails

    As [Ref.externals], but the server is unreachable for one URL and
    breaks off the transfer of another after two chunks. *)
Module Flaky.

Definition url_down : string := "https://fonts.example/dl/down.otf".
Definition url_broken : string := "https://fonts.example/dl/broken.otf".

Definition http_stream (url : string) : http_outcome :=
  if decide (url = url_down) then ConnectFailed
  else if decide (url = url_broken) then
    Responded (Response 200 [["O"; "T"]%byte; ["T"; "O"]%byte] false)
  else Ref.http_stream url.

Definition externals : Externals :=
  MkExternals Ref.read_font Ref.read_ttc Ref.write_font Ref.write_ttc
    Ref.add_chws Ref.instantiateVariableFont Ref.urlparse_path http_stream.


(** a world in which the parent of ["out"; "x.ttf"] is a regular file *)
Definition blocked_world : world :=
  World {[ ["out"] := File [] ]} [].

End Flaky.

(** ** A third environment: a mirror of the default assets

    As [Ref.externals], but the server knows the two default collections
    and the installer script. *)
Module Mirror.

Definition serif_url : string :=
  "https://github.com/notofonts/noto-cjk/raw/refs/heads/main/Serif/Variable/OTC/NotoSerifCJK-VF.otf.ttc".

Definition sans_url : string :=
  "https://github.com/notofonts/noto-cjk/raw/refs/heads/main/Sans/Variable/OTC/NotoSansCJK-VF.otf.ttc".

Definition script : bytes := ["#"; "!"; "s"; "h"]%byte.

Definition body (url : string) : bytes :=
  if decide (url = serif_url) then Ref.write_ttc [Ref.font_V; Ref.font_A]
  else Ref.write_ttc [Ref.font_B].

Definition result (url : string) : bytes :=
  if decide (url = serif_url)
  then Ref.write_ttc [Ref.font_V_instance; Ref.font_A_subset]
  else Ref.write_ttc [Ref.font_B].

Definition http_stream (url : string) : http_outcome :=
  if decide (url = serif_url) then
    Responded (Response 200 [ttcf; drop 4 (body serif_url)] true)
  else if decide (url = sans_url) then
    Responded (Response 200 [body sans_url] true)
  else if decide (url = installer_url) then
    Responded (Response 200 [script] true)
  else Responded (Response 404 [] true).

Definition externals : Externals :=
  MkExternals Ref.read_font Ref.read_ttc Ref.write_font Ref.write_ttc
    Ref.add_chws Ref.instantiateVariableFont Ref.urlparse_path http_stream.

(** the event loop takes the installer first and switches between the
    two assets; within an asset it starts with the second member *)
Definition schedule : schedules :=
  Schedules [2; 0; 1; 1; 0]%nat (λ _, [1; 0]%nat).

End Mirror.

(** * Properties *)

(** ** The exclusion set *)

Lemma parse_control_range : parse_int_ranges "0000-001F" = seqZ 0 32.
Proof. reflexivity. Qed.

Lemma elem_of_EXCLUDED_CODEPOINTS c :
  c ∈ EXCLUDED_CODEPOINTS ↔
  0 ≤ c ≤ 0x1F ∨ c ∈ EMOJI_IN_CJK ∨ c ∈ ANDROID_EMOJI.
Proof.
  unfold EXCLUDED_CODEPOINTS, CONTROL_CHARS.
  rewrite elem_of_list_to_set, merge_sort_Permutation, elem_of_elements.
  rewrite !elem_of_union, parse_control_range, elem_of_list_to_set.
  rewrite elem_of_seqZ. intuition lia.
Qed.

(** C6: the exclusion set is the constant
    [EMOJI_IN_CJK ∪ ANDROID_EMOJI ∪ CONTROL_CHARS], where the control
    characters are exactly 0x0000-0x001F; it holds 0x26BD and 0x0009 and
    does not hold 0x0041.  (It is a constant of the module: no [world]
    carries it, so no operation can change it.) *)
Theorem excluded_codepoints_fixed :
  (∀ c, c ∈ EXCLUDED_CODEPOINTS ↔
        0 ≤ c ≤ 0x1F ∨ c ∈ EMOJI_IN_CJK ∨ c ∈ ANDROID_EMOJI)
  ∧ EXCLUDED_CODEPOINTS = EMOJI_IN_CJK ∪ ANDROID_EMOJI ∪ CONTROL_CHARS
  ∧ size EXCLUDED_CODEPOINTS = 70%nat
  ∧ 0x26BD ∈ EXCLUDED_CODEPOINTS
  ∧ 0x0009 ∈ EXCLUDED_CODEPOINTS
  ∧ 0x0041 ∉ EXCLUDED_CODEPOINTS.
Proof.
  assert (Heq : EXCLUDED_CODEPOINTS
                = EMOJI_IN_CJK ∪ ANDROID_EMOJI ∪ CONTROL_CHARS).
  { apply set_eq. intros c. unfold EXCLUDED_CODEPOINTS.
    by rewrite elem_of_list_to_set, merge_sort_Permutation, elem_of_elements. }
  split; [exact elem_of_EXCLUDED_CODEPOINTS|].
  split; [exact Heq|].
  split; [by vm_compute|].
  rewrite !elem_of_EXCLUDED_CODEPOINTS.
  split; [right; left; unfold EMOJI_IN_CJK; set_solver|].
  split; [left; lia|].
  intros [?|[H|H]]; [lia| |].
  - unfold EMOJI_IN_CJK in H. apply elem_of_list_to_set in H.
    revert H. apply (bool_decide_unpack (0x41 ∉ _)). by vm_compute.
  - unfold ANDROID_EMOJI in H. apply elem_of_list_to_set in H.
    revert H. apply (bool_decide_unpack (0x41 ∉ _)). by vm_compute.
Qed.

(** ** The counting gate *)

Section Counting.

Context {A : Type} (P : A → Prop) `{!∀ x, Decision (P x)}.

Lemma count_insert (l : list A) i x y :
  l !! i = Some x →
  (length (filter P (<[i := y]> l)) + indicator P x
   = length (filter P l) + indicator P y)%nat.
Proof.
  revert i. induction l as [|a l IH]; intros [|i] Hi; simplify_eq/=.
  - rewrite !filter_cons. unfold indicator.
    repeat case_decide; simpl; lia.
  - specialize (IH _ Hi). rewrite !filter_cons.
    case_decide; simpl; lia.
Qed.

End Counting.

Module GateFacts.
Import Gate.

(** one step replaces one download: compare the counts before and after *)
Ltac count_step P Hi :=
  match goal with
  | |- context [<[?i := ?y]> ?ds] =>
      let Hc := fresh "Hc" in
      pose proof (count_insert P ds i _ y Hi) as Hc;
      unfold indicator in Hc; simpl in Hc;
      repeat case_decide; naive_solver lia
  end.

Lemma step_active_gated s s' :
  step s s' → (active_gated s' + value s' = active_gated s + value s)%nat.
Proof.
  unfold active_gated.
  destruct 1 as [v ds i Hi|v ds i Hi|v ds i Hi|v ds i Hi]; simpl;
    count_step (λ d, is_active d = true ∧ gated d = true) Hi.
Qed.

Lemma step_ungated s s' : step s s' → ungated s' = ungated s.
Proof.
  unfold ungated.
  destruct 1 as [v ds i Hi|v ds i Hi|v ds i Hi|v ds i Hi]; simpl;
    count_step (λ d, gated d = false) Hi.
Qed.

Lemma active_split s : (active s ≤ active_gated s + ungated s)%nat.
Proof.
  unfold active, active_gated, ungated.
  induction (downloads s) as [|d ds IH]; [done|].
  rewrite !filter_cons. destruct d as [[] p]; simpl;
    repeat case_decide; simpl; try lia; naive_solver.
Qed.

Lemma initial_active_gated capacity gates :
  active_gated (initial capacity gates) = 0%nat.
Proof.
  unfold active_gated, initial; simpl.
  induction gates as [|g gates IH]; [done|].
  simpl. rewrite filter_cons. case_decide; [|done].
  by destruct H as [? _].
Qed.

Lemma initial_ungated capacity gates :
  ungated (initial capacity gates)
  = length (filter (λ g, g = false) gates).
Proof.
  unfold ungated, initial; simpl.
  induction gates as [|g gates IH]; [done|].
  simpl. rewrite !filter_cons. simpl.
  repeat case_decide; simpl; congruence.
Qed.

Lemma reachable_invariant capacity gates s :
  reachable (initial capacity gates) s →
  (active_gated s + value s = capacity)%nat
  ∧ ungated s = length (filter (λ g, g = false) gates).
Proof.
  intros Hr. pattern s. revert s Hr. apply rtc_ind_r.
  - by rewrite initial_active_gated, initial_ungated.
  - intros s1 s2 _ Hs [IH1 IH2].
    by rewrite (step_active_gated _ _ Hs), (step_ungated _ _ Hs).
Qed.

End GateFacts.

(** ** Running the monad *)

Lemma bind_ok {A B} (m : M A) (k : A → M B) w a w1 :
  m w = (Ok a, w1) → bind m k w = k a w1.
Proof. unfold bind. by intros ->. Qed.

Lemma bind_raise {A B} (m : M A) (k : A → M B) w e w1 :
  m w = (Raise e, w1) → bind m k w = (Raise e, w1).
Proof. unfold bind. by intros ->. Qed.

Lemma bind_inv {A B} (m : M A) (k : A → M B) w r w' :
  bind m k w = (r, w') →
  (∃ a w1, m w = (Ok a, w1) ∧ k a w1 = (r, w'))
  ∨ (∃ e, m w = (Raise e, w') ∧ r = Raise e).
Proof.
  unfold bind. destruct (m w) as [[a|e] w1]; intros H.
  - left. eauto.
  - right. exists e. by simplify_eq.
Qed.

Lemma bind_ok_inv {A B} (m : M A) (k : A → M B) w b w' :
  bind m k w = (Ok b, w') →
  ∃ a w1, m w = (Ok a, w1) ∧ k a w1 = (Ok b, w').
Proof.
  intros Hrun. apply bind_inv in Hrun as [(a & w1 & ? & ?)|(e & _ & [=])].
  eauto.
Qed.

(** ** Paths *)

Lemma path_parent_snoc (d : path) x : path_parent (d ++ [x]) = d.
Proof. unfold path_parent. apply removelast_last. Qed.

Lemma path_name_snoc (d : path) x : path_name (d ++ [x]) = x.
Proof. unfold path_name. apply last_last. Qed.

Lemma snoc_not_prefix (d : path) x : ¬ (d ++ [x]) `prefix_of` d.
Proof.
  intros H. apply prefix_length in H. rewrite length_app in H. simpl in H. lia.
Qed.

Lemma lookup_node_snoc m (d : path) x : lookup_node m (d ++ [x]) = m !! (d ++ [x]).
Proof. by destruct d. Qed.

Lemma lookup_node_None m p : lookup_node m p = None → p ≠ [] ∧ m !! p = None.
Proof. destruct p; [done|]. by intros. Qed.

(** ** Making directories *)

Lemma os_mkdir_ok m d m' :
  os_mkdir m d = Ok m' →
  m !! d = None ∧ d ≠ [] ∧ lookup_node m (path_parent d) = Some Dir
  ∧ m' = <[d := Dir]> m.
Proof.
  unfold os_mkdir. destruct (lookup_node m d) eqn:Hd; [done|].
  apply lookup_node_None in Hd as [? ?].
  destruct (lookup_node m (path_parent d)) as [[|?]|]; naive_solver.
Qed.

Lemma dirs_added_refl m d : dirs_added m m d.
Proof. intros p. by left. Qed.

Lemma dirs_added_insert m m1 d x :
  dirs_added m m1 d → m1 !! (d ++ [x]) = None →
  dirs_added m (<[d ++ [x] := Dir]> m1) (d ++ [x]).
Proof.
  intros Hadd Hnone p. destruct (decide (p = d ++ [x])) as [->|Hne].
  - right. rewrite lookup_insert_eq. split_and!; [|done..].
    destruct (Hadd (d ++ [x])) as [<-|(? & ? & ?)]; [done|congruence].
  - rewrite lookup_insert_ne by done.
    destruct (Hadd p) as [?|(? & ? & ?)]; [by left|right].
    split_and!; [done..|]. by apply prefix_app_r.
Qed.

Lemma dirs_added_weaken m m1 d x :
  dirs_added m m1 d → dirs_added m m1 (d ++ [x]).
Proof.
  intros Hadd p. destruct (Hadd p) as [?|(? & ? & ?)]; [by left|right].
  split_and!; [done..|]. by apply prefix_app_r.
Qed.

Lemma is_dir_lookup m d : is_dir m d = true → lookup_node m d = Some Dir.
Proof. unfold is_dir. by destruct (lookup_node m d) as [[|?]|]. Qed.

Lemma mkdir_parents_added rd m m' :
  mkdir_parents rd m = Ok m' →
  dirs_added m m' (rev rd) ∧ lookup_node m' (rev rd) = Some Dir.
Proof.
  revert m m'. induction rd as [|x rp IH]; intros m m' Hmk; simpl in *.
  { simplify_eq. split; [apply dirs_added_refl|done]. }
  destruct (os_mkdir m (rev rp ++ [x])) as [m0|e] eqn:Hos.
  - simplify_eq. apply os_mkdir_ok in Hos as (Hnone & _ & _ & ->).
    split.
    + apply dirs_added_insert; [apply dirs_added_refl|done].
    + by rewrite lookup_node_snoc, lookup_insert_eq.
  - assert (Hdir : ∀ m1, dirs_added m m1 (rev rp) →
        (if is_dir m1 (rev rp ++ [x]) then Ok m1 else Raise e) = Ok m' →
        dirs_added m m' (rev rp ++ [x])
        ∧ lookup_node m' (rev rp ++ [x]) = Some Dir).
    { intros m1 Hadd Hif.
      destruct (is_dir m1 (rev rp ++ [x])) eqn:Hd; [|done].
      simplify_eq. split; [by apply dirs_added_weaken|by apply is_dir_lookup]. }
    destruct e; try (apply (Hdir m); [apply dirs_added_refl|exact Hmk]).
    destruct (mkdir_parents rp m) as [m1|e1] eqn:Hrec; [|done].
    apply IH in Hrec as [Hadd Hparent].
    destruct (os_mkdir m1 (rev rp ++ [x])) as [m2|e2] eqn:Hos2.
    + simplify_eq. apply os_mkdir_ok in Hos2 as (Hnone & _ & _ & ->).
      split; [by apply dirs_added_insert|].
      by rewrite lookup_node_snoc, lookup_insert_eq.
    + destruct (is_dir m1 (rev rp ++ [x])) eqn:Hd; [|done].
      simplify_eq. split; [by apply dirs_added_weaken|by apply is_dir_lookup].
Qed.

Lemma no_file_above_spec m d :
  no_file_above m d = true ↔ ∀ q, q `prefix_of` d → is_file m q = false.
Proof.
  unfold no_file_above. rewrite forallb_forall. split.
  - intros H q [k ->]. specialize (H (length q)).
    rewrite take_app_length, negb_true_iff in H. apply H.
    apply in_seq. rewrite length_app. lia.
  - intros H n _. apply negb_true_iff, H.
    exists (drop n d). by rewrite take_drop.
Qed.

Lemma mkdir_parents_ok rd m :
  no_file_above m (rev rd) = true → ∃ m', mkdir_parents rd m = Ok m'.
Proof.
  rewrite no_file_above_spec.
  revert m. induction rd as [|x rp IH]; intros m Hnf; simpl in *; [eauto|].
  assert (Hself : is_file m (rev rp ++ [x]) = false) by by apply Hnf.
  assert (Hpar : is_file m (rev rp) = false)
    by (apply Hnf; by apply prefix_app_r).
  unfold os_mkdir at 1. unfold is_file in Hself, Hpar.
  destruct (lookup_node m (rev rp ++ [x])) as [[|?]|] eqn:Hd; [|done|].
  { unfold is_dir. rewrite Hd. eauto. }
  rewrite path_parent_snoc.
  destruct (lookup_node m (rev rp)) as [[|?]|] eqn:Hp; [eauto|done|].
  destruct (IH m) as [m1 Hm1].
  { intros q Hq. apply Hnf. by apply prefix_app_r. }
  rewrite Hm1. apply mkdir_parents_added in Hm1 as [Hadd Hdir].
  unfold os_mkdir. rewrite path_parent_snoc, Hdir.
  rewrite lookup_node_snoc in Hd |- *.
  destruct (Hadd (rev rp ++ [x])) as [->|(_ & _ & Hpre)].
  - rewrite Hd. eauto.
  - by apply snoc_not_prefix in Hpre.
Qed.

(** ** Saving files *)

Lemma ensure_parent_dir_ok w p :
  no_file_above (fs w) (path_parent p) = true →
  ∃ m1, ensure_parent_dir p w = (Ok tt, World m1 (trace w))
        ∧ dirs_added (fs w) m1 (path_parent p)
        ∧ lookup_node m1 (path_parent p) = Some Dir.
Proof.
  intros Hnf. unfold ensure_parent_dir.
  rewrite <- (rev_involutive (path_parent p)) in Hnf.
  destruct (mkdir_parents_ok _ _ Hnf) as [m1 Hm1]. rewrite Hm1.
  apply mkdir_parents_added in Hm1. rewrite rev_involutive in Hm1.
  exists m1. by destruct Hm1.
Qed.

Lemma write_file_ok w p data :
  lookup_node (fs w) (path_parent p) = Some Dir →
  is_dir (fs w) p = false →
  path_name p ≠ ".." →
  write_file p data w = (Ok tt, World (<[p := File data]> (fs w)) (trace w)).
Proof.
  intros Hpar Hnd Hname. unfold write_file, bind, open_wb, write_chunk. simpl.
  assert (p ≠ []) by (by intros ->).
  unfold is_dir in Hnd. rewrite Hpar. rewrite decide_False by done.
  destruct (lookup_node (fs w) p) as [[|?]|]; [done|..]; simpl;
    destruct p; try done; simpl;
    by rewrite lookup_insert_eq, insert_insert_eq.
Qed.

Lemma dirs_added_is_dir m m1 d p :
  dirs_added m m1 d → ¬ p `prefix_of` d → is_dir m p = false →
  is_dir m1 p = false.
Proof.
  intros Hadd Hnp. unfold is_dir. destruct p as [|x p]; [done|]. simpl.
  destruct (Hadd (x :: p)) as [->|(_ & _ & ?)]; done.
Qed.

Lemma dirs_added_is_file m m1 d p :
  dirs_added m m1 d → is_file m1 p = is_file m p.
Proof.
  intros Hadd. unfold is_file. destruct p as [|x p]; [done|]. simpl.
  destruct (Hadd (x :: p)) as [->|(-> & -> & _)]; done.
Qed.

Lemma dirs_added_file m m1 d p data :
  dirs_added m m1 d →
  lookup_node m p = Some (File data) → lookup_node m1 p = Some (File data).
Proof.
  intros Hadd. destruct p as [|x p]; [done|]. simpl.
  destruct (Hadd (x :: p)) as [->|(-> & _ & _)]; done.
Qed.

Lemma not_prefix_parent (p : path) : p ≠ [] → ¬ p `prefix_of` path_parent p.
Proof.
  induction p as [|x p _] using rev_ind; [done|]. intros _.
  rewrite path_parent_snoc. apply snoc_not_prefix.
Qed.

Lemma parent_prefix (p : path) : path_parent p `prefix_of` p.
Proof.
  induction p as [|x p _] using rev_ind; [done|].
  rewrite path_parent_snoc. by apply prefix_app_r.
Qed.

Lemma writable_inv m p :
  writable m p = true →
  no_file_above m (path_parent p) = true ∧ is_dir m p = false
  ∧ plain p = true.
Proof.
  unfold writable. intros H.
  apply andb_true_iff in H as [H Hpl]. apply andb_true_iff in H as [Hnf Hnd].
  by apply negb_true_iff in Hnd.
Qed.

Lemma writable_nonempty m p : writable m p = true → p ≠ [].
Proof. intros H ->. by apply writable_inv in H as (_ & ? & _). Qed.

Lemma plain_name (p : path) : plain p = true → path_name p ≠ "..".
Proof.
  unfold plain, path_name. rewrite forallb_forall. intros Hp Hname.
  destruct p as [|x p _] using rev_ind; [done|].
  rewrite last_last in Hname. subst x.
  specialize (Hp ".." (in_elt _ _ _)).
  by rewrite bool_decide_true in Hp.
Qed.

(** a file can be saved where nothing but directories is in the way *)
Lemma save_file_ok w p data :
  p ≠ [] →
  no_file_above (fs w) (path_parent p) = true →
  is_dir (fs w) p = false →
  path_name p ≠ ".." →
  ∃ m2, bind (ensure_parent_dir p) (λ _, write_file p data) w
        = (Ok tt, World m2 (trace w))
        ∧ saved (fs w) m2 p data.
Proof.
  intros Hne Hnf Hnd Hname.
  destruct (ensure_parent_dir_ok w p Hnf) as (m1 & Hmk & Hadd & Hpar).
  rewrite (bind_ok _ _ _ _ _ Hmk).
  rewrite write_file_ok; simpl; [|done| |done].
  - eexists. split; [done|]. by exists m1.
  - eapply dirs_added_is_dir; [done| |done].
    by apply not_prefix_parent.
Qed.

(** a writable destination can be saved to *)
Lemma save_ok w p data :
  writable (fs w) p = true →
  ∃ m2, bind (ensure_parent_dir p) (λ _, write_file p data) w
        = (Ok tt, World m2 (trace w))
        ∧ saved (fs w) m2 p data.
Proof.
  intros Hw. pose proof (writable_nonempty _ _ Hw) as Hne.
  apply writable_inv in Hw as (Hnf & Hnd & Hpl).
  apply save_file_ok; [done..|]. by apply plain_name.
Qed.

Lemma saved_lookup m m2 p data :
  p ≠ [] → saved m m2 p data → lookup_node m2 p = Some (File data).
Proof.
  intros Hne (m1 & _ & ->). destruct p; [done|]. simpl.
  by rewrite lookup_insert_eq.
Qed.

Lemma saved_other_file m m2 p data q :
  saved m m2 p data → q ≠ p →
  ∀ d, lookup_node m q = Some (File d) ↔ lookup_node m2 q = Some (File d).
Proof.
  intros (m1 & Hadd & ->) Hne d. destruct q as [|x q]; [done|]. simpl.
  rewrite lookup_insert_ne by done.
  destruct (Hadd (x :: q)) as [->|(-> & -> & _)]; [done|]. naive_solver.
Qed.

Lemma saved_writable m m2 p data q :
  saved m m2 p data → unrelated p q →
  writable m q = true → writable m2 q = true.
Proof.
  intros (m1 & Hadd & ->) [Hpq Hqp] Hw.
  pose proof (writable_nonempty _ _ Hw) as Hne.
  apply writable_inv in Hw as (Hnf & Hnd & Hpl).
  unfold writable. rewrite Hpl, andb_true_r.
  apply andb_true_iff. split.
  - rewrite no_file_above_spec in Hnf |- *. intros k Hk.
    specialize (Hnf k Hk). unfold is_file in *.
    destruct k as [|x k]; [done|]. simpl in *.
    rewrite lookup_insert_ne.
    + destruct (Hadd (x :: k)) as [->|(_ & -> & _)]; done.
    + intros ->. apply Hpq. etrans; [done|]. apply parent_prefix.
  - apply negb_true_iff. unfold is_dir in *.
    destruct q as [|x q]; [done|]. simpl in *.
    rewrite lookup_insert_ne by (intros ->; by apply Hpq).
    destruct (Hadd (x :: q)) as [->|(_ & _ & Hpre)]; [done|].
    destruct Hqp. etrans; [done|]. apply parent_prefix.
Qed.

(** ** The font transform worker *)

Section Worker.

Context (E : Externals).

Lemma emit_run ev w : emit ev w = (Ok tt, World (fs w) (trace w ++ [ev])).
Proof. done. Qed.

Lemma read_file_ok w p data :
  lookup_node (fs w) p = Some (File data) → read_file p w = (Ok data, w).
Proof. unfold read_file. by intros ->. Qed.

(** the worker up to the loading of the patched font *)
Lemma process_ttf_worker_front in_ttf out_ttf temp w data patched f :
  lookup_node (fs w) in_ttf = Some (File data) →
  add_chws E data = Some patched →
  read_font E patched = Some f →
  writable (fs w) (chws_output_of temp in_ttf) = true →
  ∃ m1, saved (fs w) m1 (chws_output_of temp in_ttf) patched ∧
    process_ttf_worker E in_ttf out_ttf temp w
    = bind (instantiate_if_variable E (chws_output_of temp in_ttf)
              (delete_from_cmap f EXCLUDED_CODEPOINTS))
        (λ font4, print (TTF out_ttf) ;; ensure_parent_dir out_ttf ;;
                  write_file out_ttf (write_font E font4))
        (World m1 (trace w ++ [Print (ADD_CHWS in_ttf);
                               Print (SUBSET (chws_output_of temp in_ttf))])).
Proof.
  intros Hin Hpatch Hread Hw.
  pose proof (writable_nonempty _ _ Hw) as Hne.
  apply writable_inv in Hw as (Hnf & Hnd & Hpl).
  destruct (ensure_parent_dir_ok w _ Hnf) as (m0 & Hmk & Hadd & Hpar).
  exists (<[chws_output_of temp in_ttf := File patched]> m0).
  split; [by exists m0|].
  unfold process_ttf_worker. fold (chws_output_of temp in_ttf).
  rewrite (bind_ok _ _ _ _ _ Hmk).
  unfold print. rewrite (bind_ok _ _ _ _ _ (emit_run _ _)). simpl.
  unfold run_add_chws at 1.
  erewrite (bind_ok (bind (read_file in_ttf) _)); last first.
  { erewrite bind_ok; [|apply read_file_ok; simpl;
                         by eapply dirs_added_file]. rewrite Hpatch.
    apply write_file_ok; simpl; [done| |by apply plain_name].
    eapply dirs_added_is_dir; [done| |done]. by apply not_prefix_parent. }
  rewrite (bind_ok _ _ _ _ _ (emit_run _ _)). simpl.
  unfold load_font at 1.
  erewrite (bind_ok (bind (read_file _) _)); last first.
  { erewrite bind_ok; [|apply read_file_ok; simpl].
    - by rewrite Hread.
    - destruct (chws_output_of temp in_ttf); [done|]. simpl.
      by rewrite lookup_insert_eq. }
  by rewrite <- !app_assoc.
Qed.

End Worker.

Lemma delete_from_cmap_tables f chars :
  fvar (delete_from_cmap f chars) = fvar f
  ∧ VORG (delete_from_cmap f chars) = VORG f
  ∧ VVAR (delete_from_cmap f chars) = VVAR f
  ∧ name (delete_from_cmap f chars) = name f.
Proof. done. Qed.

Lemma font_contains_fvar f : font_contains "fvar" f = bool_decide (is_Some (fvar f)).
Proof. done. Qed.

(** C10: a patched font with an ['fvar'] table (whatever its axes) that
    lacks ['VORG'] or ['VVAR'] makes the worker raise [KeyError] for the
    first missing table, after the [VFINST] line and before the [TTF] line:
    apart from the staging file no file is created or changed, so nothing
    is written at [out_ttf]. *)
Theorem worker_raises_without_VORG_or_VVAR
    (E : Externals) (in_ttf out_ttf temp : path) (w : world)
    (data patched : bytes) (f : font) :
  lookup_node (fs w) in_ttf = Some (File data) →
  add_chws E data = Some patched →
  read_font E patched = Some f →
  writable (fs w) (chws_output_of temp in_ttf) = true →
  is_Some (fvar f) →
  VORG f = None ∨ VVAR f = None →
  ∃ w',
    process_ttf_worker E in_ttf out_ttf temp w
    = (Raise (KeyError (match VORG f with Some _ => "VVAR" | None => "VORG" end)), w')
    ∧ trace w' = trace w ++ [Print (ADD_CHWS in_ttf);
                             Print (SUBSET (chws_output_of temp in_ttf));
                             Print (VFINST (chws_output_of temp in_ttf))]
    ∧ saved (fs w) (fs w') (chws_output_of temp in_ttf) patched
    ∧ ∀ q d, q ≠ chws_output_of temp in_ttf →
        lookup_node (fs w') q = Some (File d)
        ↔ lookup_node (fs w) q = Some (File d).
Proof.
  intros Hin Hpatch Hread Hw Hfvar Hmissing.
  destruct (process_ttf_worker_front E in_ttf out_ttf temp w _ _ _
              Hin Hpatch Hread Hw) as (m1 & Hsaved & ->).
  set (w1 := World m1 _).
  assert (Hbranch : ∃ w',
    instantiate_if_variable E (chws_output_of temp in_ttf)
      (delete_from_cmap f EXCLUDED_CODEPOINTS) w1
    = (Raise (KeyError (match VORG f with Some _ => "VVAR" | None => "VORG" end)), w')
    ∧ fs w' = m1
    ∧ trace w' = trace w1 ++ [Print (VFINST (chws_output_of temp in_ttf))]).
  { unfold instantiate_if_variable. rewrite font_contains_fvar. simpl.
    rewrite bool_decide_true by done.
    unfold print. rewrite (bind_ok _ _ _ _ _ (emit_run _ _)).
    unfold del_VORG, clear_VOrgMap, bind, raise, ret. simpl.
    destruct (VORG f) as [v|]; simpl; [|eauto].
    destruct Hmissing as [?| ->]; [done|]. eauto. }
  destruct Hbranch as (w' & Hrun & Hfs & Htr).
  exists w'. rewrite (bind_raise _ _ _ _ _ Hrun). rewrite Hfs, Htr.
  split_and!; [done| |done|].
  - subst w1. simpl. by rewrite <- app_assoc.
  - intros q d Hq. symmetry. by eapply saved_other_file.
Qed.

(** the branch for variable fonts, when both tables are there *)
Lemma instantiate_if_variable_run (E : Externals) chws_output font1 vorg vvar w :
  is_Some (fvar font1) →
  VORG font1 = Some vorg →
  VVAR font1 = Some vvar →
  instantiate_if_variable E chws_output font1 w
  = (match instantiateVariableFont E
             (set_VVAR (Some (VVARTable None (AdvHeightMap vvar)))
                (set_VORG None font1)) wght_limits false with
     | Some instance => Ok instance
     | None => Raise InstancerError
     end,
     World (fs w) (trace w ++ [Print (VFINST chws_output)])).
Proof.
  intros Hfvar HVORG HVVAR.
  unfold instantiate_if_variable. rewrite font_contains_fvar.
  rewrite bool_decide_true by done.
  unfold print. rewrite (bind_ok _ _ _ _ _ (emit_run _ _)).
  unfold del_VORG, clear_VOrgMap, run_instancer, bind, ret, raise.
  rewrite HVORG. simpl. rewrite HVVAR.
  by destruct (instantiateVariableFont E _ wght_limits false).
Qed.

Lemma saved_unrelated_lookup m m2 p data q :
  saved m m2 p data → unrelated p q → lookup_node m2 q = lookup_node m q.
Proof.
  intros (m1 & Hadd & ->) [Hpq Hqp]. destruct q as [|x q]; [done|]. simpl.
  rewrite lookup_insert_ne by (intros ->; by apply Hpq).
  destruct (Hadd (x :: q)) as [->|(_ & _ & Hpre)]; [done|].
  destruct Hqp. etrans; [done|]. apply parent_prefix.
Qed.

(** C5, as the code has it: when the patched font has ['fvar'], ['VORG']
    and ['VVAR'], the worker hands the instancer the font without ['VORG'],
    with the vertical-origin map of ['VVAR'] cleared and its names as they
    were, together with the limits wght = (100, 400, 900) and
    [updateFontNames=False].  The file saved at [out_ttf] holds what the
    instancer returns: a font without ['VORG'] and with the names of the
    input, as far as the instancer adds no table and leaves the names
    alone.  When the instancer raises, the output path is as it was and
    no regular file but the staging file has changed. *)
Theorem worker_instantiates_variable_font
    (E : Externals) (in_ttf out_ttf temp : path) (w : world)
    (data patched : bytes) (f : font) (vorg : list (string * Z))
    (vvar : VVAR_table) :
  lookup_node (fs w) in_ttf = Some (File data) →
  add_chws E data = Some patched →
  read_font E patched = Some f →
  writable (fs w) (chws_output_of temp in_ttf) = true →
  writable (fs w) out_ttf = true →
  unrelated (chws_output_of temp in_ttf) out_ttf →
  is_Some (fvar f) →
  VORG f = Some vorg →
  VVAR f = Some vvar →
  let font3 :=
    set_VVAR (Some (VVARTable None (AdvHeightMap vvar)))
      (set_VORG None (delete_from_cmap f EXCLUDED_CODEPOINTS)) in
  VORG font3 = None
  ∧ (VOrgMap <$> VVAR font3) = Some None
  ∧ name font3 = name f
  ∧ fvar font3 = fvar f
  ∧ ∃ w',
      match instantiateVariableFont E font3 [("wght", (100, 400, 900))] false
      with
      | Some instance =>
          process_ttf_worker E in_ttf out_ttf temp w = (Ok tt, w')
          ∧ lookup_node (fs w') out_ttf
            = Some (File (write_font E instance))
          ∧ (instancer_keeps_tables E →
             VORG instance = None ∧ name instance = name f)
      | None =>
          process_ttf_worker E in_ttf out_ttf temp w
          = (Raise InstancerError, w')
          ∧ (Print (TTF out_ttf) ∉ drop (length (trace w)) (trace w'))
          ∧ lookup_node (fs w') out_ttf = lookup_node (fs w) out_ttf
          ∧ (∀ q d, q ≠ chws_output_of temp in_ttf →
               lookup_node (fs w') q = Some (File d)
               ↔ lookup_node (fs w) q = Some (File d))
      end.
Proof.
  intros Hin Hpatch Hread Hw Hwout Hunrel Hfvar HVORG HVVAR font3.
  split_and!; [done..|].
  destruct (process_ttf_worker_front E in_ttf out_ttf temp w _ _ _
              Hin Hpatch Hread Hw) as (m1 & Hsaved & ->).
  set (w1 := World m1 _).
  pose proof (instantiate_if_variable_run E (chws_output_of temp in_ttf)
                (delete_from_cmap f EXCLUDED_CODEPOINTS) vorg vvar w1
                Hfvar HVORG HVVAR) as Hrun.
  fold font3 in Hrun. change wght_limits with [("wght", (100, 400, 900))] in Hrun.
  destruct (instantiateVariableFont E font3 _ false) as [instance|] eqn:Hinst.
  - rewrite (bind_ok _ _ _ _ _ Hrun).
    unfold print. rewrite (bind_ok (emit _) _ _ _ _ (emit_run _ _)).
    set (w2 := World _ _).
    destruct (save_ok w2 out_ttf (write_font E instance)) as (m2 & -> & Hs2).
    { subst w2 w1. simpl. by eapply saved_writable. }
    eexists. split_and!; [done| |].
    + simpl. eapply saved_lookup; [|done]. by eapply writable_nonempty.
    + intros Hkeeps. destruct (Hkeeps _ _ _ Hinst) as [Hv Hn].
      split; [by apply Hv|by rewrite Hn].
  - eexists. rewrite (bind_raise _ _ _ _ _ Hrun). split_and!; [done| | |].
    + subst w1. simpl. rewrite <- app_assoc, drop_app_length.
      intros Hel. repeat (apply elem_of_cons in Hel as [?|Hel]; [done|]).
      by apply elem_of_nil in Hel.
    + simpl. by eapply saved_unrelated_lookup.
    + intros q d Hq. simpl. symmetry.
      by apply (saved_other_file _ _ _ _ q Hsaved).
Qed.

Lemma worker_raises_without_VORG_or_VVAR_witness :
  ∃ w',
    process_ttf_worker Ref.externals ["in.ttf"] ["out.ttf"] ["temp"]
      (Ref.world_with ["in.ttf"] Ref.font_V_no_VVAR)
    = (Raise (KeyError "VVAR"), w')
    ∧ trace w' = [Print (ADD_CHWS ["in.ttf"]);
                  Print (SUBSET ["temp"; "intermediate_chws"; "in.ttf"]);
                  Print (VFINST ["temp"; "intermediate_chws"; "in.ttf"])]
    ∧ saved (fs (Ref.world_with ["in.ttf"] Ref.font_V_no_VVAR)) (fs w')
        ["temp"; "intermediate_chws"; "in.ttf"]
        (Ref.write_font Ref.font_V_no_VVAR)
    ∧ ∀ q d, q ≠ ["temp"; "intermediate_chws"; "in.ttf"] →
        lookup_node (fs w') q = Some (File d)
        ↔ lookup_node (fs (Ref.world_with ["in.ttf"] Ref.font_V_no_VVAR)) q
          = Some (File d).
Proof.
  apply (worker_raises_without_VORG_or_VVAR Ref.externals
           ["in.ttf"] ["out.ttf"] ["temp"]
           (Ref.world_with ["in.ttf"] Ref.font_V_no_VVAR)
           (Ref.write_font Ref.font_V_no_VVAR)
           (Ref.write_font Ref.font_V_no_VVAR) Ref.font_V_no_VVAR).
  - reflexivity.
  - reflexivity.
  - reflexivity.
  - reflexivity.
  - by eexists.
  - by right.
Defined.

Lemma worker_instantiates_variable_font_witness :
  ∃ w',
    process_ttf_worker Ref.externals ["in.ttf"] ["out.ttf"] ["temp"]
      (Ref.world_with ["in.ttf"] Ref.font_V) = (Ok tt, w')
    ∧ lookup_node (fs w') ["out.ttf"]
      = Some (File (write_font Ref.externals Ref.font_V_instance))
    ∧ (instancer_keeps_tables Ref.externals →
       VORG Ref.font_V_instance = None
       ∧ name Ref.font_V_instance = name Ref.font_V).
Proof.
  apply (worker_instantiates_variable_font Ref.externals
           ["in.ttf"] ["out.ttf"] ["temp"]
           (Ref.world_with ["in.ttf"] Ref.font_V)
           (Ref.write_font Ref.font_V) (Ref.write_font Ref.font_V)
           Ref.font_V [("A", 880)] (VVARTable (Some [0]) (Some [1]))).
  - reflexivity.
  - reflexivity.
  - reflexivity.
  - reflexivity.
  - reflexivity.
  - split; apply (bool_decide_unpack _); by vm_compute.
  - by eexists.
  - reflexivity.
  - reflexivity.
Defined.

(** C5 as stated fails, in two ways.  A font that declares a weight axis
    but has no ['VORG'] table is not turned into any output font: the
    worker raises and nothing is saved at the output path.  And for a font
    with all three tables the output is not static when the instancer
    does what the font library documents for a (min, default, max) limit,
    which is to restrict the axis to that range (an axis is dropped only
    when it is pinned to one value): the saved font still has its weight
    axis, now 100..900 with default 400. *)
Lemma variable_font_output_missing_or_still_variable :
  (let w := Ref.world_with ["in.ttf"] Ref.font_V_no_VORG in
   let run := process_ttf_worker Ref.externals ["in.ttf"] ["out.ttf"]
                ["temp"] w in
   read_font Ref.externals (Ref.write_font Ref.font_V_no_VORG)
   = Some Ref.font_V_no_VORG
   ∧ (map axisTag <$> fvar Ref.font_V_no_VORG) = Some ["wght"]
   ∧ fst run = Raise (KeyError "VORG")
   ∧ lookup_node (fs (snd run)) ["out.ttf"] = None)
  ∧ (let w := Ref.world_with ["in.ttf"] Ref.font_V in
     let run := process_ttf_worker Ref.externals ["in.ttf"] ["out.ttf"]
                  ["temp"] w in
     (map axisTag <$> fvar Ref.font_V) = Some ["wght"]
     ∧ fst run = Ok tt
     ∧ lookup_node (fs (snd run)) ["out.ttf"]
       = Some (File (Ref.write_font Ref.font_V_instance))
     ∧ read_font Ref.externals (Ref.write_font Ref.font_V_instance)
       = Some Ref.font_V_instance
     ∧ fvar Ref.font_V_instance = Some [Axis "wght" 100 400 900]).
Proof. by vm_compute. Qed.

(** ** Frame reasoning: what the stages leave alone *)

Section Preservation.

Context (allowed : event → Prop) (R : relation world) `{!PreOrder R}.

(** [R] accepts the three ways in which the program changes the world *)
Hypothesis R_dirs : ∀ w m1 d,
  dirs_added (fs w) m1 d → R w (World m1 (trace w)).
Hypothesis R_file : ∀ w p data,
  is_dir (fs w) p = false → R w (World (<[p := File data]> (fs w)) (trace w)).
Hypothesis R_emit : ∀ w ev,
  allowed ev → R w (World (fs w) (trace w ++ [ev])).

Lemma preserves_ret {A} (a : A) : preserves R (ret a).
Proof. intros w r w' [= <- <-]. reflexivity. Qed.

Lemma preserves_raise {A} e : preserves R (@raise A e).
Proof. intros w r w' [= <- <-]. reflexivity. Qed.

Lemma preserves_bind {A B} (m : M A) (k : A → M B) :
  preserves R m → (∀ a, preserves R (k a)) → preserves R (bind m k).
Proof.
  intros Hm Hk w r w' Hrun.
  apply bind_inv in Hrun as [(a & w1 & Hm1 & Hk1)|(e & Hm1 & _)].
  - etrans; [by eapply Hm|by eapply Hk].
  - by eapply Hm.
Qed.

Lemma preserves_emit ev : allowed ev → preserves R (emit ev).
Proof. intros Hev w r w' [= <- <-]. by apply R_emit. Qed.

Lemma preserves_ensure_parent_dir p : preserves R (ensure_parent_dir p).
Proof.
  intros w r w'. unfold ensure_parent_dir.
  destruct (mkdir_parents _ (fs w)) as [m1|e] eqn:Hmk; intros [= <- <-].
  - apply mkdir_parents_added in Hmk as [Hadd _]. by eapply R_dirs.
  - reflexivity.
Qed.

Lemma preserves_open_wb p : preserves R (open_wb p).
Proof.
  intros w r w'. unfold open_wb.
  destruct (lookup_node (fs w) p) as [[|?]|] eqn:Hp;
    [intros [= <- <-]; reflexivity|..];
    (destruct (lookup_node (fs w) (path_parent p)) as [[|?]|];
     [case_decide|..];
     intros [= <- <-]; try reflexivity;
     apply R_file; unfold is_dir; by rewrite Hp).
Qed.

Lemma preserves_write_chunk p chunk : preserves R (write_chunk p chunk).
Proof.
  intros w r w'. unfold write_chunk.
  destruct (lookup_node (fs w) p) as [[|?]|] eqn:Hp; intros [= <- <-];
    [reflexivity| |reflexivity].
  apply R_file. unfold is_dir. by rewrite Hp.
Qed.

Lemma preserves_read_file p : preserves R (read_file p).
Proof.
  intros w r w'. unfold read_file.
  destruct (lookup_node (fs w) p) as [[|?]|]; intros [= <- <-]; reflexivity.
Qed.

Lemma preserves_for_each {A} (xs : list A) (body : A → M unit) :
  (∀ x, x ∈ xs → preserves R (body x)) → preserves R (for_each xs body).
Proof.
  induction xs as [|x xs IH]; intros Hbody; simpl.
  - apply preserves_ret.
  - apply preserves_bind; [apply Hbody; left|intros _].
    apply IH. intros y Hy. apply Hbody. by right.
Qed.

Lemma preserves_run_in_order (tasks : list (list (M unit))) :
  Forall (Forall (preserves R)) tasks → preserves R (run_in_order tasks).
Proof.
  induction 1 as [|t ts Ht _ IH]; simpl; [apply preserves_ret|].
  apply preserves_bind; [|done].
  apply preserves_for_each. intros step Hstep.
  by eapply Forall_forall in Ht.
Qed.

Lemma preserves_gather sched (tasks : list (list (M unit))) :
  Forall (Forall (preserves R)) tasks → preserves R (gather sched tasks).
Proof.
  revert tasks. induction sched as [|i sched IH]; intros tasks Htasks; simpl.
  { by apply preserves_run_in_order. }
  destruct (tasks !! i) as [[|step rest]|] eqn:Hi; [by apply IH| |by apply IH].
  pose proof (Forall_lookup_1 _ _ _ _ Htasks Hi) as Hsteps.
  apply Forall_cons in Hsteps as [Hstep Hrest].
  apply preserves_bind; [done|intros _].
  apply IH. by apply Forall_insert.
Qed.

(** *** The stages *)

Context (E : Externals).

Ltac pres_stage := fail.

Ltac pres :=
  repeat first
    [ pres_stage
    | apply preserves_ret | apply preserves_raise
    | apply preserves_read_file | apply preserves_ensure_parent_dir
    | apply preserves_open_wb | apply preserves_write_chunk
    | apply preserves_emit
    | apply preserves_bind; [|intros ?]
    | progress unfold print, write_file ].

Lemma preserves_write_file p data : preserves R (write_file p data).
Proof. pres. Qed.

Lemma preserves_load_font p : preserves R (load_font E p).
Proof. unfold load_font. pres. case_match; pres. Qed.

Lemma preserves_load_ttc p : preserves R (load_ttc E p).
Proof. unfold load_ttc. pres. case_match; pres. Qed.

Lemma preserves_load_fonts ttfs : preserves R (load_fonts E ttfs).
Proof.
  induction ttfs as [|ttf ttfs IH]; simpl; [apply preserves_ret|].
  apply preserves_bind; [apply preserves_load_font|intros f].
  apply preserves_bind; [done|intros fonts]. apply preserves_ret.
Qed.

Ltac pres_stage ::=
  first [ apply preserves_load_font | apply preserves_load_ttc
        | apply preserves_load_fonts ].

Section Stages.

Hypothesis transform_allowed : ∀ ev, transform_event ev → allowed ev.

Lemma preserves_instantiate_if_variable p f :
  preserves R (instantiate_if_variable E p f).
Proof.
  unfold instantiate_if_variable, del_VORG, clear_VOrgMap, run_instancer.
  case_match; pres; [by apply transform_allowed|..]; case_match; pres.
Qed.

Lemma preserves_process_ttf_worker in_ttf out_ttf temp :
  preserves R (process_ttf_worker E in_ttf out_ttf temp).
Proof.
  unfold process_ttf_worker, run_add_chws. pres;
    try (by apply transform_allowed).
  - case_match; pres.
  - apply preserves_instantiate_if_variable.
Qed.

Lemma preserves_run_add_chws in_ttf chws_output :
  preserves R (run_add_chws E in_ttf chws_output).
Proof. unfold run_add_chws. pres. case_match; pres. Qed.

Lemma preserves_print_transform l :
  transform_event (Print l) → preserves R (print l).
Proof. intros Hl. by apply preserves_emit, transform_allowed. Qed.

(** a worker that returns has come to its last three lines, by steps that
    [R] accepts *)
Lemma process_ttf_worker_reaches_save in_ttf out_ttf temp w w' :
  process_ttf_worker E in_ttf out_ttf temp w = (Ok tt, w') →
  ∃ w6 font4,
    R w w6
    ∧ bind (print (TTF out_ttf))
        (λ _, bind (ensure_parent_dir out_ttf)
                (λ _, write_file out_ttf (write_font E font4))) w6
      = (Ok tt, w').
Proof.
  intros Hrun. unfold process_ttf_worker in Hrun.
  apply bind_ok_inv in Hrun as (? & w1 & H1 & Hrun).
  apply bind_ok_inv in Hrun as (? & w2 & H2 & Hrun).
  apply bind_ok_inv in Hrun as (? & w3 & H3 & Hrun).
  apply bind_ok_inv in Hrun as (? & w4 & H4 & Hrun).
  apply bind_ok_inv in Hrun as (font0 & w5 & H5 & Hrun).
  apply bind_ok_inv in Hrun as (font4 & w6 & H6 & Hrun).
  exists w6, font4. split; [|done].
  apply preserves_ensure_parent_dir in H1.
  apply preserves_print_transform in H2; [|done].
  apply preserves_run_add_chws in H3.
  apply preserves_print_transform in H4; [|done].
  apply preserves_load_font in H5.
  apply preserves_instantiate_if_variable in H6.
  repeat (etrans; [eassumption|]). reflexivity.
Qed.

Lemma preserves_unpack_ttc_worker in_ttc i out_file :
  preserves R (unpack_ttc_worker E in_ttc i out_file).
Proof.
  unfold unpack_ttc_worker. pres; [by apply transform_allowed|].
  case_match; pres.
Qed.

Lemma preserves_member_chains sched temp in_ttc n :
  preserves R
    (gather sched
       (map (λ i, unpack_and_process_ttf E temp in_ttc i
                    (processed_ttf temp in_ttc i)) (seq 0 n))).
Proof.
  apply preserves_gather, Forall_map, Forall_forall. intros i _.
  unfold unpack_and_process_ttf. repeat constructor.
  - apply preserves_unpack_ttc_worker.
  - apply preserves_process_ttf_worker.
Qed.

Hypothesis pack_allowed : ∀ ev, pack_event ev → allowed ev.

Lemma preserves_pack_ttc ttfs out_ttc : preserves R (pack_ttc E ttfs out_ttc).
Proof.
  unfold pack_ttc. pres. by apply pack_allowed.
Qed.

Lemma preserves_process_font sched in_font out_font temp :
  preserves R (process_font E sched in_font out_font temp).
Proof.
  unfold process_font, is_ttc.
  apply preserves_bind; [pres|intros [|]].
  - unfold process_ttc.
    apply preserves_bind; [apply preserves_load_ttc|intros ttc].
    apply preserves_bind; [apply preserves_member_chains|intros _].
    apply preserves_pack_ttc.
  - apply preserves_process_ttf_worker.
Qed.

Hypothesis transfer_allowed : ∀ ev, transfer_event ev → allowed ev.

Lemma preserves_fetch_body url p : preserves R (fetch_body E url p).
Proof.
  unfold fetch_body, stream_to. pres; try (by apply transfer_allowed).
  case_match; pres. case_decide; pres; [by apply transfer_allowed|..].
  - apply preserves_for_each. intros chunk _. pres.
  - case_match; pres.
Qed.

Hypothesis gate_allowed : ∀ ev, gate_event ev → allowed ev.

Lemma preserves_with_gate {A} gated (body : M A) :
  preserves R body → preserves R (with_gate gated body).
Proof.
  intros Hbody w r w'. unfold with_gate. destruct gated; [|apply Hbody].
  simpl. destruct (body _) as [r2 w2] eqn:Hrun. intros [= <- <-].
  etrans; [apply (R_emit w Acquire), gate_allowed; exact I|].
  etrans; [by eapply Hbody|].
  apply (R_emit w2 Release), gate_allowed. exact I.
Qed.

Lemma preserves_download_file url p gated :
  preserves R (download_file E url p gated).
Proof.
  unfold download_file.
  apply preserves_bind; [|intros [b|]; apply preserves_ret].
  apply preserves_with_gate, preserves_fetch_body.
Qed.

Lemma preserves_run_chains sch args_url :
  preserves R (run_chains E sch args_url).
Proof.
  unfold run_chains, main_futures. destruct (select_urls args_url) as [urls b].
  apply preserves_gather, Forall_app. split.
  - apply Forall_map, Forall_forall. intros url _.
    unfold download_and_process_file. repeat constructor.
    + apply preserves_bind; [apply preserves_download_file|intros _].
      apply preserves_ret.
    + apply preserves_process_font.
  - destruct b; repeat constructor.
    apply preserves_bind; [apply preserves_download_file|intros _].
    apply preserves_ret.
Qed.

End Stages.

End Preservation.

(** ** Two instances of the frame *)

Global Instance extends_trace_preorder allowed : PreOrder (extends_trace allowed).
Proof.
  split.
  - intros w. exists []. by rewrite app_nil_r.
  - intros w1 w2 w3 (evs1 & H1 & Ha1) (evs2 & H2 & Ha2).
    exists (evs1 ++ evs2). rewrite H2, H1, app_assoc.
    split; [done|by apply Forall_app].
Qed.

Global Instance keeps_files_preorder : PreOrder keeps_files.
Proof. split; [by intros w p|]. intros w1 w2 w3 H1 H2 p Hp. by apply H2, H1. Qed.

Lemma extends_trace_dirs allowed w m1 d :
  dirs_added (fs w) m1 d → extends_trace allowed w (World m1 (trace w)).
Proof. intros _. exists []. by rewrite app_nil_r. Qed.

Lemma extends_trace_file allowed w p data :
  is_dir (fs w) p = false →
  extends_trace allowed w (World (<[p := File data]> (fs w)) (trace w)).
Proof. intros _. exists []. by rewrite app_nil_r. Qed.

Lemma extends_trace_emit allowed w ev :
  allowed ev → extends_trace allowed w (World (fs w) (trace w ++ [ev])).
Proof. intros Hev. exists [ev]. split; [done|by constructor]. Qed.

Lemma keeps_files_dirs w m1 d :
  dirs_added (fs w) m1 d → keeps_files w (World m1 (trace w)).
Proof. intros Hadd p Hp. simpl. by rewrite (dirs_added_is_file _ _ _ _ Hadd). Qed.

Lemma keeps_files_file w p data :
  is_dir (fs w) p = false →
  keeps_files w (World (<[p := File data]> (fs w)) (trace w)).
Proof.
  intros Hnd q Hq. unfold is_file in *. simpl.
  destruct q as [|x q]; [done|]. simpl in *.
  destruct (decide (p = x :: q)) as [->|Hne].
  - by rewrite lookup_insert_eq.
  - by rewrite lookup_insert_ne.
Qed.

Lemma keeps_files_emit w ev :
  True → keeps_files w (World (fs w) (trace w ++ [ev])).
Proof. by intros _ p Hp. Qed.

(** ** Teardown of the staging root *)

Lemma teardowns_stage_events w w' :
  extends_trace stage_event w w' → teardowns w' = teardowns w.
Proof.
  intros (evs & Htr & Hevs). unfold teardowns.
  rewrite Htr, filter_app, length_app.
  assert (filter (λ ev, ev = Rmtree temp_dir) evs = []) as ->; [|simpl; lia].
  clear Htr. induction Hevs as [|ev evs Hev _ IH]; [done|].
  rewrite filter_cons_False; [done|]. by intros ->.
Qed.

Lemma run_chains_stage_events E sch args_url :
  preserves (extends_trace stage_event) (run_chains E sch args_url).
Proof.
  apply (preserves_run_chains stage_event);
    first [ apply _ | apply extends_trace_dirs | apply extends_trace_file
          | apply extends_trace_emit | by intros [[]| | | | | |] ].
Qed.

(** C1 as stated fails: a download that delivers bytes the patch tool
    rejects makes its chain raise; [main] ends with that exception, the
    staging root was never removed and the downloaded file is still in
    it. *)
Lemma failed_run_leaves_staging_behind :
  let run := main Ref.externals Ref.in_order (Some Ref.url_junk)
               Ref.empty_world in
  (fst run) = Raise (PatchError ["temp"; "input"; "junk.otf"])
  ∧ teardowns (snd run) = 0%nat
  ∧ (Rmtree temp_dir ∉ trace (snd run))
  ∧ is_file (fs (snd run)) ["temp"; "input"; "junk.otf"] = true.
Proof.
  vm_compute. split_and!; [done..| |done].
  intros H. repeat (apply elem_of_cons in H as [[=]|H]). by apply elem_of_nil in H.
Qed.

(** ** The fetcher *)

Section Fetcher.

Context (E : Externals).

Lemma world_eta w : World (fs w) (trace w) = w.
Proof. by destruct w. Qed.

Lemma open_wb_ok w p :
  lookup_node (fs w) (path_parent p) = Some Dir →
  is_dir (fs w) p = false →
  path_name p ≠ ".." →
  open_wb p w = (Ok tt, World (<[p := File []]> (fs w)) (trace w)).
Proof.
  intros Hpar Hnd Hname. unfold open_wb, is_dir in *. rewrite Hpar.
  rewrite decide_False by done.
  by destruct (lookup_node (fs w) p) as [[|?]|].
Qed.

Lemma stream_chunks p cs w d :
  lookup_node (fs w) p = Some (File d) →
  for_each cs (write_chunk p) w
  = (Ok tt, World (<[p := File (d ++ concat cs)]> (fs w)) (trace w)).
Proof.
  revert w d. induction cs as [|c cs IH]; intros w d Hp; simpl.
  - assert (p ≠ []) by (by intros ->).
    rewrite app_nil_r, insert_id; [by rewrite world_eta|].
    by destruct p.
  - assert (p ≠ []) by (by intros ->).
    unfold write_chunk at 1, bind. rewrite Hp.
    rewrite (IH _ (d ++ c)); simpl.
    + by rewrite insert_insert_eq, <- app_assoc.
    + destruct p; [done|]. simpl. by rewrite lookup_insert_eq.
Qed.

Lemma fetch_body_failure url p w resp :
  http_stream E url = Responded resp →
  status_code resp ≠ 200 →
  fetch_body E url p w
  = (Ok (Some false),
     World (fs w) (trace w ++ [Print (FETCH p); HttpGet url; LogError url])).
Proof.
  intros Hresp Hstatus. unfold fetch_body, print, bind, emit, ret. simpl.
  rewrite Hresp. rewrite decide_True by done. simpl.
  by rewrite <- !app_assoc.
Qed.

Lemma fetch_body_success url p w resp :
  http_stream E url = Responded resp →
  status_code resp = 200 →
  stream_ok resp = true →
  writable (fs w) p = true →
  ∃ m, fetch_body E url p w
       = (Ok None, World m (trace w ++ [Print (FETCH p); HttpGet url]))
       ∧ saved (fs w) m p (concat (chunks resp)).
Proof.
  intros Hresp Hstatus Hstream Hw.
  pose proof (writable_nonempty _ _ Hw) as Hne.
  apply writable_inv in Hw as (Hnf & Hnd & Hpl).
  pose proof (plain_name _ Hpl) as Hname.
  unfold fetch_body, print.
  rewrite (bind_ok _ _ _ _ _ (emit_run _ _)).
  rewrite (bind_ok _ _ _ _ _ (emit_run _ _)). simpl.
  rewrite Hresp. rewrite decide_False by (by intros ?).
  set (w1 := World _ _).
  destruct (ensure_parent_dir_ok w1 p Hnf) as (m1 & Hmk & Hadd & Hpar).
  rewrite (bind_ok _ _ _ _ _ Hmk).
  assert (Hnd1 : is_dir m1 p = false).
  { eapply dirs_added_is_dir; [done| |done]. by apply not_prefix_parent. }
  rewrite (bind_ok _ _ _ _ _ (open_wb_ok (World m1 (trace w1)) p Hpar Hnd1 Hname)).
  simpl.
  unfold stream_to. rewrite Hstream.
  erewrite (bind_ok (bind (for_each _ _) _)); last first.
  { erewrite bind_ok; [done|]. apply stream_chunks. simpl.
    destruct p; [done|]. simpl. by rewrite lookup_insert_eq. }
  simpl. rewrite insert_insert_eq, <- app_assoc.
  eexists. split; [done|]. by exists m1.
Qed.

Lemma download_file_run url p gated w r w2 :
  fetch_body E url p (World (fs w) (trace w ++ gate_open gated)) = (r, w2) →
  download_file E url p gated w
  = (match r with
     | Ok (Some b) => Ok b
     | Ok None => Ok true
     | Raise e => Raise e
     end, World (fs w2) (trace w2 ++ gate_close gated)).
Proof.
  intros Hrun. unfold download_file, bind, with_gate.
  destruct gated; simpl in *.
  - rewrite Hrun. by destruct r as [[b|]|e].
  - rewrite app_nil_r, world_eta in Hrun. rewrite Hrun, app_nil_r, world_eta.
    by destruct r as [[b|]|e].
Qed.

Lemma download_file_failure url p gated w resp :
  http_stream E url = Responded resp →
  status_code resp ≠ 200 →
  download_file E url p gated w
  = (Ok false,
     World (fs w)
       (trace w ++ gate_open gated
          ++ [Print (FETCH p); HttpGet url; LogError url]
          ++ gate_close gated)).
Proof.
  intros Hresp Hstatus.
  erewrite download_file_run; [|by apply (fetch_body_failure _ _ _ resp)].
  simpl. by rewrite <- !app_assoc.
Qed.

End Fetcher.

(** C2, as the code has it: a response whose status is not 200 makes
    [download_file] log an error and return [False]; it raises nothing,
    sends no second request and leaves the file system as it was.  A
    complete response with status 200 is streamed to the destination and
    [download_file] returns [True]; the file holds the chunks in order. *)
Theorem download_file_by_status
    (E : Externals) (url : string) (p : path) (gated : bool) (w : world)
    (resp : response) :
  http_stream E url = Responded resp →
  (status_code resp ≠ 200 →
     download_file E url p gated w
     = (Ok false,
        World (fs w)
          (trace w ++ gate_open gated
             ++ [Print (FETCH p); HttpGet url; LogError url]
             ++ gate_close gated)))
  ∧ (status_code resp = 200 → stream_ok resp = true →
     writable (fs w) p = true →
     ∃ m,
       download_file E url p gated w
       = (Ok true,
          World m
            (trace w ++ gate_open gated ++ [Print (FETCH p); HttpGet url]
               ++ gate_close gated))
       ∧ saved (fs w) m p (concat (chunks resp))
       ∧ lookup_node m p = Some (File (concat (chunks resp)))).
Proof.
  intros Hresp. split.
  - intros Hstatus.
    erewrite download_file_run; [|by apply (fetch_body_failure _ _ _ _ resp)].
    simpl. by rewrite <- !app_assoc.
  - intros Hstatus Hstream Hw.
    destruct (fetch_body_success E url p
                (World (fs w) (trace w ++ gate_open gated)) resp)
      as (m & Hrun & Hsaved); [done..|].
    erewrite download_file_run; [|done]. simpl.
    exists m. rewrite <- !app_assoc. split_and!; [done..|].
    eapply saved_lookup; [|done]. by eapply writable_nonempty.
Qed.

Lemma download_file_by_status_witness :
  download_file Ref.externals Ref.url_gone ["temp"; "input"; "gone.otf"] true
    Ref.empty_world
  = (Ok false,
     World ∅ [Acquire; Print (FETCH ["temp"; "input"; "gone.otf"]);
              HttpGet Ref.url_gone; LogError Ref.url_gone; Release])
  ∧ ∃ m,
      download_file Ref.externals Ref.url_junk ["temp"; "input"; "junk.otf"]
        true Ref.empty_world
      = (Ok true,
         World m [Acquire; Print (FETCH ["temp"; "input"; "junk.otf"]);
                  HttpGet Ref.url_junk; Release])
      ∧ lookup_node m ["temp"; "input"; "junk.otf"]
        = Some (File ["j"; "u"; "n"; "k"]%byte).
Proof.
  split.
  - apply (download_file_by_status Ref.externals Ref.url_gone
             ["temp"; "input"; "gone.otf"] true Ref.empty_world
             (Response 404 [] true)); [reflexivity|done].
  - destruct (proj2 (download_file_by_status Ref.externals Ref.url_junk
             ["temp"; "input"; "junk.otf"] true Ref.empty_world
             (Response 200 [["j"; "u"]%byte; ["n"; "k"]%byte] true)
             eq_refl) eq_refl eq_refl eq_refl) as (m & Hrun & _ & Hfile).
    exists m. split; [exact Hrun|exact Hfile].
Defined.

(** C2 as stated fails for the statuses of the 2xx range other than 200:
    on a 204 response [download_file] logs an error and returns [False],
    and nothing is written at the destination. *)
Lemma status_204_is_treated_as_failure :
  let run := download_file Ref.externals Ref.url_no_content
               ["temp"; "input"; "empty.otf"] true Ref.empty_world in
  (∃ resp, http_stream Ref.externals Ref.url_no_content = Responded resp
           ∧ 200 ≤ status_code resp < 300)
  ∧ fst run = Ok false
  ∧ LogError Ref.url_no_content ∈ trace (snd run)
  ∧ lookup_node (fs (snd run)) ["temp"; "input"; "empty.otf"] = None.
Proof.
  split; [by eexists; split; [reflexivity|]|].
  vm_compute. split_and!; [done| |done].
  do 3 right. left.
Qed.

(** ** A chain whose download failed *)

Lemma for_each_steps (steps : list (M unit)) w :
  for_each steps (λ step, step) w
  = match steps with
    | [] => (Ok tt, w)
    | step :: rest => bind step (λ _, for_each rest (λ step, step)) w
    end.
Proof. by destruct steps. Qed.

Lemma bind_assoc {A B C} (m : M A) (k : A → M B) (k' : B → M C) w :
  bind (bind m k) k' w = bind m (λ a, bind (k a) k') w.
Proof. unfold bind. by destruct (m w) as [[a|e] w1]. Qed.

(** one awaited task runs its steps in order, whatever the schedule *)
Lemma gather_single sched (t : list (M unit)) w :
  gather sched [t] w = run_in_order [t] w.
Proof.
  revert t w. induction sched as [|i sched IH]; intros t w; [done|].
  destruct i as [|i]; simpl; [|apply IH].
  destruct t as [|step rest]; [apply IH|].
  simpl. rewrite bind_assoc. unfold bind at 1 2.
  destruct (step w) as [[[]|e] w1]; [|done].
  by rewrite IH.
Qed.

Lemma open_error_missing m (p : path) :
  no_file_above m (path_parent p) = true → path_name p ≠ ".." →
  open_error m p = FileNotFoundError p.
Proof.
  intros Hnf Hname. unfold open_error. rewrite Hnf. simpl.
  rewrite bool_decide_false by done. by rewrite andb_false_r.
Qed.

(** C3, as the code has it: when the download of an asset fails and no
    file is at the asset's staging input path, the chain ends with the
    exception that [is_ttc] raises on opening that path: one request was
    sent, the error was logged, and no unpack, transform or pack stage has
    run.  (The result of [download_file] itself is not looked at.)  The
    exception is [FileNotFoundError] unless a regular file is on the way
    to the path or its last component is [..]. *)
Theorem failed_download_ends_chain
    (E : Externals) (sch : schedules) (sched : list nat) (url : string)
    (w : world) (resp : response) :
  http_stream E url = Responded resp →
  status_code resp ≠ 200 →
  lookup_node (fs w) (input_file E url) = None →
  gather sched [download_and_process_file E sch url] w
  = (Raise (open_error (fs w) (input_file E url)),
     World (fs w)
       (trace w ++ [Acquire; Print (FETCH (input_file E url)); HttpGet url;
                    LogError url; Release]))
  ∧ (no_file_above (fs w) (path_parent (input_file E url)) = true →
     path_name (input_file E url) ≠ ".." →
     open_error (fs w) (input_file E url)
     = FileNotFoundError (input_file E url)).
Proof.
  intros Hresp Hstatus Hnone. split; [|apply open_error_missing].
  rewrite gather_single. unfold run_in_order, download_and_process_file.
  apply bind_raise. simpl. rewrite bind_assoc.
  rewrite (bind_ok _ _ _ _ _
             (download_file_failure E url (input_file E url) true w resp
                Hresp Hstatus)).
  rewrite (bind_ok (ret tt) _ _ _ _ eq_refl).
  apply bind_raise. unfold process_font, is_ttc.
  apply bind_raise, bind_raise. unfold read_file. simpl. by rewrite Hnone.
Qed.

Lemma failed_download_ends_chain_witness :
  gather [1; 0]%nat
    [download_and_process_file Ref.externals Ref.in_order Ref.url_gone]
    Ref.empty_world
  = (Raise (FileNotFoundError ["temp"; "input"; "gone.otf"]),
     World ∅ [Acquire; Print (FETCH ["temp"; "input"; "gone.otf"]);
              HttpGet Ref.url_gone; LogError Ref.url_gone; Release]).
Proof.
  apply (proj1 (failed_download_ends_chain Ref.externals Ref.in_order
                  [1; 0]%nat Ref.url_gone Ref.empty_world
                  (Response 404 [] true) eq_refl ltac:(done) eq_refl)).
Defined.

(** C3 as stated fails: with a file of an earlier run at the staging input
    path, the chain of an asset whose download failed goes on, transforms
    that file and writes it to the destination. *)
Lemma failed_download_still_processes_stale_file :
  let run := gather []
               [download_and_process_file Ref.externals Ref.in_order
                  Ref.url_gone] Ref.stale_world in
  fst (download_file Ref.externals Ref.url_gone ["temp"; "input"; "gone.otf"]
         true Ref.stale_world) = Ok false
  ∧ fst run = Ok tt
  ∧ trace (snd run)
    = [Acquire; Print (FETCH ["temp"; "input"; "gone.otf"]);
       HttpGet Ref.url_gone; LogError Ref.url_gone; Release;
       Print (ADD_CHWS ["temp"; "input"; "gone.otf"]);
       Print (SUBSET ["temp"; "intermediate_chws"; "gone.otf"]);
       Print (TTF ["system"; "fonts"; "gone.otf"])]
  ∧ is_file (fs (snd run)) ["system"; "fonts"; "gone.otf"] = true.
Proof. by vm_compute. Qed.

(** ** The gate *)

Lemma download_file_gate_protocol (E : Externals) url p gated w r w' :
  download_file E url p gated w = (r, w') →
  ∃ evs, trace w' = trace w ++ gate_open gated ++ evs ++ gate_close gated
         ∧ Forall transfer_event evs.
Proof.
  intros Hrun.
  destruct (fetch_body E url p (World (fs w) (trace w ++ gate_open gated)))
    as [r2 w2] eqn:Hbody.
  rewrite (download_file_run _ _ _ _ _ _ _ Hbody) in Hrun.
  injection Hrun as _ <-.
  apply (preserves_fetch_body transfer_event (extends_trace transfer_event))
    in Hbody as (evs & Htr & Hevs);
    [|first [ apply _ | apply extends_trace_dirs | apply extends_trace_file
            | apply extends_trace_emit | done ]..].
  exists evs. simpl in *. by rewrite Htr, <- !app_assoc.
Qed.

(** ** Member paths *)

Lemma string_length_app (s t : string) :
  String.length (s +:+ t) = (String.length s + String.length t)%nat.
Proof. induction s as [|a s IH]; simpl; [done|]. by rewrite IH. Qed.

Lemma string_app_inj_r (s1 s2 t : string) : s1 +:+ t = s2 +:+ t → s1 = s2.
Proof.
  revert s2. induction s1 as [|a s1 IH]; intros [|b s2] Heq; simpl in *.
  - done.
  - apply (f_equal String.length) in Heq.
    rewrite !string_length_app in Heq. simpl in Heq. lia.
  - apply (f_equal String.length) in Heq.
    rewrite !string_length_app in Heq. simpl in Heq. lia.
  - injection Heq as -> Heq. f_equal. by apply IH.
Qed.

Lemma member_name_inj in_ttc i j :
  member_name in_ttc i = member_name in_ttc j → i = j.
Proof.
  unfold member_name. intros Heq.
  apply (inj (String.app _)) in Heq. apply (inj (String.app _)) in Heq.
  apply string_app_inj_r in Heq. by apply (inj pretty) in Heq.
Qed.

Lemma member_name_length in_ttc i :
  (String.length (path_name in_ttc) + 5 ≤ String.length (member_name in_ttc i))%nat.
Proof. unfold member_name. rewrite !string_length_app. simpl. lia. Qed.

Lemma member_name_plain in_ttc i : member_name in_ttc i ≠ "..".
Proof.
  intros Heq. pose proof (member_name_length in_ttc i) as Hlen.
  rewrite Heq in Hlen. simpl in Hlen. lia.
Qed.

Lemma path_join_member d in_ttc i :
  path_join d (member_name in_ttc i) = d ++ [member_name in_ttc i].
Proof.
  unfold path_join. rewrite decide_False; [done|].
  pose proof (member_name_length in_ttc i) as Hlen.
  intros [Heq|Heq]; rewrite Heq in Hlen; simpl in Hlen; lia.
Qed.



Lemma member_path_parent d in_ttc i :
  path_parent (path_join d (member_name in_ttc i)) = d.
Proof. by rewrite path_join_member, path_parent_snoc. Qed.

(** ** Awaiting tasks that all succeed *)

Section GatherInvariant.

(** [Inv] relates the steps still to run to the world; every step that is
    next in its task runs to the end and re-establishes it *)
Context (Inv : list (list (M unit)) → world → Prop).

Hypothesis Inv_step : ∀ tasks i step rest w,
  Inv tasks w → tasks !! i = Some (step :: rest) →
  ∃ w', step w = (Ok tt, w') ∧ Inv (<[i := rest]> tasks) w'.

Lemma for_each_inv done t ts w :
  Inv (done ++ t :: ts) w →
  ∃ w', for_each t (λ step, step) w = (Ok tt, w') ∧ Inv (done ++ [] :: ts) w'.
Proof.
  revert w. induction t as [|step rest IH]; intros w HI; simpl; [eauto|].
  destruct (Inv_step _ (length done) step rest w HI) as (w1 & Hrun & HI1).
  { by rewrite list_lookup_middle. }
  rewrite (bind_ok _ _ _ _ _ Hrun).
  rewrite insert_app_r_alt, Nat.sub_diag in HI1 by done. by apply IH.
Qed.

Lemma run_in_order_inv done ts w :
  Inv (done ++ ts) w →
  ∃ w', run_in_order ts w = (Ok tt, w')
        ∧ Inv (done ++ map (λ _, []) ts) w'.
Proof.
  revert done w. induction ts as [|t ts IH]; intros done w HI; simpl; [eauto|].
  destruct (for_each_inv done t ts w HI) as (w1 & Hrun & HI1).
  rewrite (bind_ok _ _ _ _ _ Hrun).
  rewrite (cons_middle [] done ts), app_assoc in HI1.
  destruct (IH _ _ HI1) as (w2 & Hrun2 & HI2).
  exists w2. split; [done|]. by rewrite (cons_middle [] done), app_assoc.
Qed.

Lemma gather_inv sched tasks w :
  Inv tasks w →
  ∃ w' tasks', gather sched tasks w = (Ok tt, w') ∧ Inv tasks' w'
               ∧ length tasks' = length tasks ∧ Forall (λ t, t = []) tasks'.
Proof.
  revert tasks w. induction sched as [|i sched IH]; intros tasks w HI; simpl.
  - destruct (run_in_order_inv [] tasks w HI) as (w' & Hrun & HI').
    exists w', (map (λ _, []) tasks).
    split_and!; [done|done|by rewrite length_map|]. by apply Forall_fmap, Forall_true.
  - destruct (tasks !! i) as [[|step rest]|] eqn:Hi; [by apply IH| |by apply IH].
    destruct (Inv_step _ _ _ _ _ HI Hi) as (w1 & Hrun & HI1).
    rewrite (bind_ok _ _ _ _ _ Hrun).
    destruct (IH _ _ HI1) as (w' & tasks' & Hg & HI' & Hlen & Hall).
    exists w', tasks'. by rewrite length_insert in Hlen.
Qed.

End GatherInvariant.

(** ** Unpacking a collection *)




Section Unpack.

Context (E : Externals) (in_ttc out_dir : path) (data : bytes)
        (members : list font) (m0 : gmap path node).

Hypothesis Hread : read_ttc E data = Some members.



Lemma unpack_ttc_worker_run i m w :
  members !! i = Some m →
  lookup_node (fs w) in_ttc = Some (File data) →
  no_file_above (fs w) out_dir = true →
  is_dir (fs w) (member_path out_dir in_ttc i) = false →
  ∃ m2, unpack_ttc_worker E in_ttc i (member_path out_dir in_ttc i) w
        = (Ok tt,
           World m2 (trace w ++ [Print (UNTTC_member in_ttc
                                          (member_path out_dir in_ttc i))]))
        ∧ saved (fs w) m2 (member_path out_dir in_ttc i) (write_font E m).
Proof.
  intros Hm Hin Hnf Hnd. unfold unpack_ttc_worker, print.
  rewrite (bind_ok _ _ _ _ _ (emit_run _ _)).
  unfold load_ttc. rewrite bind_assoc.
  erewrite bind_ok; [|by apply read_file_ok]. rewrite Hread.
  rewrite (bind_ok (ret _) _ _ _ _ eq_refl). rewrite Hm.
  apply (save_file_ok (World (fs w) (trace w ++ [_]))); simpl.
  - unfold member_path. rewrite path_join_member. by destruct out_dir.
  - unfold member_path. by rewrite member_path_parent.
  - done.
  - unfold member_path. rewrite path_join_member, path_name_snoc.
    apply member_name_plain.
Qed.


End Unpack.




(** ** Packing a collection *)

Lemma load_font_run (E : Externals) p w d f :
  lookup_node (fs w) p = Some (File d) → read_font E d = Some f →
  load_font E p w = (Ok f, w).
Proof.
  intros Hp Hf. unfold load_font.
  rewrite (bind_ok _ _ _ _ _ (read_file_ok _ _ _ Hp)). by rewrite Hf.
Qed.

Lemma load_fonts_run (E : Externals) ttfs fonts w :
  Forall2 (λ p f, ∃ d, lookup_node (fs w) p = Some (File d)
                       ∧ read_font E d = Some f) ttfs fonts →
  load_fonts E ttfs w = (Ok fonts, w).
Proof.
  induction 1 as [|p f ttfs fonts (d & Hp & Hf) _ IH]; simpl; [done|].
  rewrite (bind_ok _ _ _ _ _ (load_font_run E _ _ _ _ Hp Hf)).
  by rewrite (bind_ok _ _ _ _ _ IH).
Qed.




(** ** What holds once all awaited tasks have returned *)

Section GatherPost.

(** [R] bounds what any step does; [I] and the results [Q i] of the tasks
    are kept by [R]; the last step of task [i] brings about [Q i] *)
Context (R : relation world) `{!PreOrder R}
        (I : world → Prop) (Q : nat → world → Prop).

Hypothesis I_closed : ∀ w w', R w w' → I w → I w'.
Hypothesis Q_closed : ∀ i w w', R w w' → Q i w → Q i w'.

Lemma for_each_post i (steps : list (M unit)) w w1 :
  Forall (preserves R) steps →
  (∀ l, last steps = Some l → ∀ w w', I w → l w = (Ok tt, w') → Q i w') →
  I w → for_each steps (λ step, step) w = (Ok tt, w1) →
  steps ≠ [] → Q i w1.
Proof.
  revert w. induction steps as [|step rest IH]; intros w Hpres Hlast HI Hrun Hne;
    [done|].
  apply Forall_cons in Hpres as [Hstep Hrest]. simpl in Hrun.
  apply bind_inv in Hrun as [([] & w2 & Hrun1 & Hrun2)|(e & _ & [=])].
  destruct rest as [|step' rest].
  - simpl in Hrun2. injection Hrun2 as <-. by eapply Hlast.
  - eapply (IH w2); [done| |by eapply I_closed, HI; eapply Hstep|done|done].
    intros l Hl. apply Hlast. by rewrite last_cons, Hl.
Qed.

Lemma run_in_order_post k (tasks : list (list (M unit))) w w1 :
  Forall (Forall (preserves R)) tasks →
  (∀ i steps l, tasks !! i = Some steps → last steps = Some l →
     ∀ w w', I w → l w = (Ok tt, w') → Q (k + i)%nat w') →
  I w → run_in_order tasks w = (Ok tt, w1) →
  ∀ i steps, tasks !! i = Some steps → steps ≠ [] → Q (k + i)%nat w1.
Proof.
  revert k w. induction tasks as [|t ts IH]; intros k w Hpres Hlast HI Hrun;
    [done|].
  apply Forall_cons in Hpres as [Ht Hts]. simpl in Hrun.
  apply bind_inv in Hrun as [([] & w2 & Hrun1 & Hrun2)|(e & _ & [=])].
  assert (R w w2) as Hw2.
  { eapply (preserves_for_each R); [|done].
    intros x Hx. by apply (proj1 (Forall_forall _ _) Ht). }
  intros [|i] steps Hi Hne; simpl in Hi.
  - injection Hi as ->.
    eapply Q_closed; [by eapply (preserves_run_in_order R)|].
    eapply for_each_post; [done| |done..].
    intros l Hl. by apply (Hlast 0%nat steps).
  - replace (k + S i)%nat with (S k + i)%nat by lia.
    eapply (IH (S k) w2); [done| |by eapply I_closed|done..].
    intros j stepsj l Hj Hl. replace (S k + j)%nat with (k + S j)%nat by lia.
    by apply (Hlast (S j) stepsj).
Qed.

Lemma gather_post sched (tasks : list (list (M unit))) w w1 :
  Forall (Forall (preserves R)) tasks →
  (∀ i steps l, tasks !! i = Some steps → last steps = Some l →
     ∀ w w', I w → l w = (Ok tt, w') → Q i w') →
  I w → gather sched tasks w = (Ok tt, w1) →
  ∀ i steps, tasks !! i = Some steps → steps ≠ [] → Q i w1.
Proof.
  revert tasks w. induction sched as [|i0 sched IH];
    intros tasks w Hpres Hlast HI Hrun; simpl in Hrun.
  { by apply (run_in_order_post 0 tasks w w1). }
  destruct (tasks !! i0) as [[|step rest]|] eqn:Hi0;
    [by eapply IH| |by eapply IH].
  apply bind_inv in Hrun as [([] & w2 & Hrun1 & Hrun2)|(e & _ & [=])].
  pose proof (Forall_lookup_1 _ _ _ _ Hpres Hi0) as Hsteps.
  apply Forall_cons in Hsteps as [Hstep Hrest].
  assert (Hpres' : Forall (Forall (preserves R)) (<[i0 := rest]> tasks))
    by by apply Forall_insert.
  assert (Hlast' : ∀ i steps l, <[i0 := rest]> tasks !! i = Some steps →
            last steps = Some l → ∀ w w', I w → l w = (Ok tt, w') → Q i w').
  { intros i steps l Hi Hl. destruct (decide (i = i0)) as [->|Hne].
    - rewrite list_lookup_insert_eq in Hi by (by eapply lookup_lt_Some).
      injection Hi as <-. apply (Hlast i0 (step :: rest)); [done|].
      destruct rest; [done|]. by rewrite last_cons, Hl.
    - rewrite list_lookup_insert_ne in Hi by done. by eapply Hlast. }
  assert (HI2 : I w2) by (eapply I_closed, HI; by eapply Hstep).
  intros i steps Hi Hne. destruct (decide (i = i0)) as [->|Hneq].
  - assert (steps = step :: rest) as -> by congruence.
    destruct rest as [|step' rest].
    + eapply (Q_closed i0 w2 w1).
      * eapply (preserves_gather R); [exact Hpres'|exact Hrun2].
      * by eapply (Hlast i0 [step] step Hi0 eq_refl w w2).
    + eapply (IH _ w2 Hpres' Hlast' HI2 Hrun2 i0 (step' :: rest)); [|done].
      rewrite list_lookup_insert_eq; [done|by eapply lookup_lt_Some].
  - eapply (IH _ w2 Hpres' Hlast' HI2 Hrun2 i steps); [|done].
    by rewrite list_lookup_insert_ne.
Qed.

End GatherPost.

(** * Further properties of the package *)

(** ** [ensure_parent_dir] *)

Lemma mkdir_parents_existing rd m :
  lookup_node m (rev rd) = Some Dir → mkdir_parents rd m = Ok m.
Proof.
  destruct rd as [|x rp]; [done|]. simpl. intros Hd.
  unfold os_mkdir, is_dir. by rewrite Hd.
Qed.



(** [ensure_parent_dir] is idempotent: once it has returned, calling it
    again for the same path returns and changes nothing. *)
Theorem ensure_parent_dir_idempotent (p : path) (w w1 : world) :
  ensure_parent_dir p w = (Ok tt, w1) → ensure_parent_dir p w1 = (Ok tt, w1).
Proof.
  unfold ensure_parent_dir.
  destruct (mkdir_parents _ (fs w)) as [m1|e] eqn:Hmk; intros [= <-].
  apply mkdir_parents_added in Hmk as [_ Hdir]. simpl.
  by rewrite (mkdir_parents_existing _ _ Hdir).
Qed.

Lemma ensure_parent_dir_idempotent_witness :
  let w1 := snd (ensure_parent_dir ["temp"; "input"; "x.ttf"] Ref.empty_world) in
  ensure_parent_dir ["temp"; "input"; "x.ttf"] w1 = (Ok tt, w1).
Proof.
  apply (ensure_parent_dir_idempotent ["temp"; "input"; "x.ttf"]
           Ref.empty_world). reflexivity.
Defined.

(** ** [is_ttc] *)

(** [is_ttc] answers whether the bytes of the file start with the four
    bytes [ttcf] (a file shorter than that does not), and leaves the world
    as it is.  On a path that holds no file it raises and changes nothing:
    [IsADirectoryError] on a directory, [NotADirectoryError] when a
    regular file is on the way to the path, [IsADirectoryError] again
    when the last component is [..] below a directory, and
    [FileNotFoundError] when the path has no component [..] and is just
    missing. *)
Theorem is_ttc_tests_magic (p : path) (w : world) :
  (∀ data, lookup_node (fs w) p = Some (File data) →
     ∃ b, is_ttc p w = (Ok b, w)
          ∧ (b = true ↔ ∃ rest, data = ttcf ++ rest)
          ∧ ((length data < 4)%nat → b = false))
  ∧ (lookup_node (fs w) p = None →
     no_file_above (fs w) (path_parent p) = false →
     is_ttc p w = (Raise (NotADirectoryError p), w))
  ∧ (lookup_node (fs w) p = None →
     no_file_above (fs w) (path_parent p) = true →
     plain p = true →
     is_ttc p w = (Raise (FileNotFoundError p), w))
  ∧ (lookup_node (fs w) p = None →
     no_file_above (fs w) (path_parent p) = true →
     is_dir (fs w) (path_parent p) = true →
     path_name p = ".." →
     is_ttc p w = (Raise (IsADirectoryError p), w))
  ∧ (lookup_node (fs w) p = Some Dir →
     is_ttc p w = (Raise (IsADirectoryError p), w)).
Proof.
  unfold is_ttc, bind, read_file, ret. split_and!.
  - intros data ->. eexists. split; [done|]. split.
    + rewrite bool_decide_eq_true. split.
      * intros Htake. exists (drop 4 data). by rewrite <- Htake, take_drop.
      * intros [rest ->]. done.
    + intros Hlen. apply bool_decide_eq_false. intros Htake.
      apply (f_equal length) in Htake. rewrite length_take in Htake.
      change (length ttcf) with 4%nat in Htake. lia.
  - intros -> Hnf. unfold open_error. by rewrite Hnf.
  - intros -> Hnf Hpl. rewrite open_error_missing; [done..|].
    by apply plain_name.
  - intros -> Hnf Hd Hname. unfold open_error.
    rewrite Hnf, Hd. simpl. by rewrite bool_decide_true.
  - by intros ->.
Qed.

Lemma is_ttc_tests_magic_witness :
  (∃ b, is_ttc ["in.ttc"] (Ref.world_with_ttc ["in.ttc"] [Ref.font_A])
        = (Ok b, Ref.world_with_ttc ["in.ttc"] [Ref.font_A])
        ∧ (b = true ↔ ∃ rest, Ref.write_ttc [Ref.font_A] = ttcf ++ rest)
        ∧ ((length (Ref.write_ttc [Ref.font_A]) < 4)%nat → b = false))
  ∧ is_ttc ["out"; "x.ttc"] Flaky.blocked_world
    = (Raise (NotADirectoryError ["out"; "x.ttc"]), Flaky.blocked_world)
  ∧ is_ttc ["in.ttc"] Ref.empty_world
    = (Raise (FileNotFoundError ["in.ttc"]), Ref.empty_world).
Proof.
  split_and!.
  - apply (proj1 (is_ttc_tests_magic ["in.ttc"]
                    (Ref.world_with_ttc ["in.ttc"] [Ref.font_A]))).
    reflexivity.
  - apply (proj1 (proj2 (is_ttc_tests_magic ["out"; "x.ttc"]
                           Flaky.blocked_world))); reflexivity.
  - apply (proj1 (proj2 (proj2 (is_ttc_tests_magic ["in.ttc"]
                                  Ref.empty_world))));
      reflexivity.
Defined.

(** ** [process_ttf_worker] on fonts without variation *)

Lemma delete_from_cmap_lookup f chars c :
  cmap (delete_from_cmap f chars) !! c
  = if decide (c ∈ chars) then None else cmap f !! c.
Proof.
  simpl. case_decide as Hc.
  - apply map_lookup_filter_None. right. intros x _ Hx. by apply Hx.
  - destruct (cmap f !! c) as [g|] eqn:Hg.
    + by apply map_lookup_filter_Some.
    + apply map_lookup_filter_None. by left.
Qed.

(** For a patched font without an ['fvar'] table the worker saves, at
    [out_ttf], the patched font with exactly the excluded codepoints taken
    out of its character map: an excluded codepoint is unmapped in the
    output whether the font had it or not, every other codepoint maps as
    before, and the other tables are untouched.  It prints the lines
    [ADD_CHWS], [SUBSET] and [TTF], in this order. *)
Theorem worker_subsets_static_font
    (E : Externals) (in_ttf out_ttf temp : path) (w : world)
    (data patched : bytes) (f : font) :
  lookup_node (fs w) in_ttf = Some (File data) →
  add_chws E data = Some patched →
  read_font E patched = Some f →
  writable (fs w) (chws_output_of temp in_ttf) = true →
  writable (fs w) out_ttf = true →
  unrelated (chws_output_of temp in_ttf) out_ttf →
  fvar f = None →
  ∃ w' g,
    process_ttf_worker E in_ttf out_ttf temp w = (Ok tt, w')
    ∧ lookup_node (fs w') out_ttf = Some (File (write_font E g))
    ∧ (∀ c, cmap g !! c
            = if decide (c ∈ EXCLUDED_CODEPOINTS) then None else cmap f !! c)
    ∧ (fvar g, VORG g, VVAR g, name g, other_tables g)
      = (fvar f, VORG f, VVAR f, name f, other_tables f)
    ∧ trace w' = trace w ++ [Print (ADD_CHWS in_ttf);
                             Print (SUBSET (chws_output_of temp in_ttf));
                             Print (TTF out_ttf)].
Proof.
  intros Hin Hpatch Hread Hw Hwout Hunrel Hfvar.
  destruct (process_ttf_worker_front E in_ttf out_ttf temp w _ _ _
              Hin Hpatch Hread Hw) as (m1 & Hsaved & ->).
  unfold instantiate_if_variable. rewrite font_contains_fvar. simpl.
  rewrite Hfvar. rewrite bool_decide_false by (by intros [? ?]).
  rewrite (bind_ok (ret _) _ _ _ _ eq_refl).
  unfold print. rewrite (bind_ok (emit _) _ _ _ _ (emit_run _ _)).
  set (w2 := World _ _).
  destruct (save_ok w2 out_ttf
              (write_font E (delete_from_cmap f EXCLUDED_CODEPOINTS)))
    as (m2 & -> & Hs2).
  { subst w2. simpl. by eapply saved_writable. }
  eexists _, (delete_from_cmap f EXCLUDED_CODEPOINTS).
  split_and!; [done| |apply delete_from_cmap_lookup| |].
  - simpl. eapply saved_lookup; [|done]. by eapply writable_nonempty.
  - simpl. by rewrite Hfvar.
  - subst w2. simpl. by rewrite <- !app_assoc.
Qed.

Lemma worker_subsets_static_font_witness :
  ∃ w' g,
    process_ttf_worker Ref.externals ["in.ttf"] ["out.ttf"] ["temp"]
      (Ref.world_with ["in.ttf"] Ref.font_A) = (Ok tt, w')
    ∧ lookup_node (fs w') ["out.ttf"]
      = Some (File (write_font Ref.externals g))
    ∧ (∀ c, cmap g !! c
            = if decide (c ∈ EXCLUDED_CODEPOINTS) then None
              else cmap Ref.font_A !! c)
    ∧ (fvar g, VORG g, VVAR g, name g, other_tables g)
      = (fvar Ref.font_A, VORG Ref.font_A, VVAR Ref.font_A,
         name Ref.font_A, other_tables Ref.font_A)
    ∧ trace w' = [Print (ADD_CHWS ["in.ttf"]);
                  Print (SUBSET ["temp"; "intermediate_chws"; "in.ttf"]);
                  Print (TTF ["out.ttf"])].
Proof.
  apply (worker_subsets_static_font Ref.externals
           ["in.ttf"] ["out.ttf"] ["temp"]
           (Ref.world_with ["in.ttf"] Ref.font_A)
           (Ref.write_font Ref.font_A) (Ref.write_font Ref.font_A)
           Ref.font_A).
  - reflexivity.
  - reflexivity.
  - reflexivity.
  - reflexivity.
  - reflexivity.
  - split; apply (bool_decide_unpack _); by vm_compute.
  - reflexivity.
Defined.



(** ** [unpack_ttc_worker] and [pack_ttc] when members are missing *)

(** Asked for a member the container does not have, [unpack_ttc_worker]
    raises [IndexError]; given a file that is no collection it raises the
    font library's error.  In both cases it has printed its line and
    written nothing. *)
Theorem unpack_ttc_worker_failures
    (E : Externals) (in_ttc out_file : path) (index : nat) (w : world)
    (data : bytes) :
  lookup_node (fs w) in_ttc = Some (File data) →
  (∀ members, read_ttc E data = Some members →
     (length members ≤ index)%nat →
     unpack_ttc_worker E in_ttc index out_file w
     = (Raise IndexError,
        World (fs w) (trace w ++ [Print (UNTTC_member in_ttc out_file)])))
  ∧ (read_ttc E data = None →
     unpack_ttc_worker E in_ttc index out_file w
     = (Raise (TTLibError in_ttc),
        World (fs w) (trace w ++ [Print (UNTTC_member in_ttc out_file)]))).
Proof.
  intros Hin. unfold unpack_ttc_worker, print, load_ttc.
  rewrite (bind_ok _ _ _ _ _ (emit_run _ _)), bind_assoc.
  erewrite bind_ok; [|by apply read_file_ok]. split.
  - intros members -> Hlen. rewrite (bind_ok (ret _) _ _ _ _ eq_refl).
    by rewrite (lookup_ge_None_2 members index Hlen).
  - by intros ->.
Qed.

Lemma unpack_ttc_worker_failures_witness :
  unpack_ttc_worker Ref.externals ["in.ttc"] 2 ["out"; "x.ttf"]
    (Ref.world_with_ttc ["in.ttc"] [Ref.font_A; Ref.font_B])
  = (Raise IndexError,
     World (fs (Ref.world_with_ttc ["in.ttc"] [Ref.font_A; Ref.font_B]))
       [Print (UNTTC_member ["in.ttc"] ["out"; "x.ttf"])]).
Proof.
  apply (proj1 (unpack_ttc_worker_failures Ref.externals ["in.ttc"]
                  ["out"; "x.ttf"] 2
                  (Ref.world_with_ttc ["in.ttc"] [Ref.font_A; Ref.font_B])
                  (Ref.write_ttc [Ref.font_A; Ref.font_B]) eq_refl)
           [Ref.font_A; Ref.font_B]); [reflexivity|simpl; lia].
Defined.





(** ** [download_file] when the transport fails *)

(** When the server cannot be reached, [download_file] raises; the gate, if
    one was given, has been released, and the file system is untouched. *)
Theorem download_file_connect_failure
    (E : Externals) (url : string) (p : path) (gated : bool) (w : world) :
  http_stream E url = ConnectFailed →
  download_file E url p gated w
  = (Raise (TransportError url),
     World (fs w)
       (trace w ++ gate_open gated ++ [Print (FETCH p); HttpGet url]
          ++ gate_close gated)).
Proof.
  intros Hconn. erewrite download_file_run; last first.
  { unfold fetch_body, print.
    rewrite (bind_ok _ _ _ _ _ (emit_run _ _)).
    rewrite (bind_ok _ _ _ _ _ (emit_run _ _)). by rewrite Hconn. }
  simpl. by rewrite <- !app_assoc.
Qed.

Lemma download_file_connect_failure_witness :
  download_file Flaky.externals Flaky.url_down ["temp"; "input"; "down.otf"]
    true Ref.empty_world
  = (Raise (TransportError Flaky.url_down),
     World ∅ [Acquire; Print (FETCH ["temp"; "input"; "down.otf"]);
              HttpGet Flaky.url_down; Release]).
Proof.
  apply (download_file_connect_failure Flaky.externals Flaky.url_down
           ["temp"; "input"; "down.otf"] true Ref.empty_world).
  reflexivity.
Defined.

(** When a 200 response breaks off, [download_file] raises and releases
    the gate, and the destination is left holding the chunks that had
    arrived: a truncated file that nothing removes. *)
Theorem download_file_broken_stream_leaves_partial_file
    (E : Externals) (url : string) (p : path) (gated : bool) (w : world)
    (resp : response) :
  http_stream E url = Responded resp →
  status_code resp = 200 →
  stream_ok resp = false →
  writable (fs w) p = true →
  ∃ m,
    download_file E url p gated w
    = (Raise (TransportError url),
       World m (trace w ++ gate_open gated ++ [Print (FETCH p); HttpGet url]
                  ++ gate_close gated))
    ∧ lookup_node m p = Some (File (concat (chunks resp))).
Proof.
  intros Hresp Hstatus Hstream Hw.
  pose proof (writable_nonempty _ _ Hw) as Hne.
  apply writable_inv in Hw as (Hnf & Hnd & Hpl).
  pose proof (plain_name _ Hpl) as Hname.
  set (w0 := World (fs w) (trace w ++ gate_open gated)).
  set (w1 := World (fs w) ((trace w0 ++ [Print (FETCH p)]) ++ [HttpGet url])).
  destruct (ensure_parent_dir_ok w1 p Hnf) as (m1 & Hmk & Hadd & Hpar).
  assert (Hnd1 : is_dir m1 p = false).
  { eapply dirs_added_is_dir; [done| |done]. by apply not_prefix_parent. }
  exists (<[p := File (concat (chunks resp))]> m1). split.
  - erewrite download_file_run; last first.
    { unfold fetch_body, print. fold w0.
      rewrite (bind_ok _ _ _ _ _ (emit_run _ _)).
      rewrite (bind_ok _ _ _ _ _ (emit_run _ _)). simpl. fold w1.
      rewrite Hresp. rewrite decide_False by (by intros ?).
      rewrite (bind_ok _ _ _ _ _ Hmk).
      rewrite (bind_ok _ _ _ _ _
                 (open_wb_ok (World m1 (trace w1)) p Hpar Hnd1 Hname)).
      apply bind_raise. unfold stream_to. rewrite Hstream.
      erewrite bind_ok; [done|]. apply stream_chunks. simpl.
      destruct p; [done|]. simpl. by rewrite lookup_insert_eq. }
    simpl. by rewrite insert_insert_eq, <- !app_assoc.
  - destruct p; [done|]. simpl. by rewrite lookup_insert_eq.
Qed.

Lemma download_file_broken_stream_leaves_partial_file_witness :
  ∃ m,
    download_file Flaky.externals Flaky.url_broken
      ["temp"; "input"; "broken.otf"] true Ref.empty_world
    = (Raise (TransportError Flaky.url_broken),
       World m [Acquire; Print (FETCH ["temp"; "input"; "broken.otf"]);
                HttpGet Flaky.url_broken; Release])
    ∧ lookup_node m ["temp"; "input"; "broken.otf"]
      = Some (File ["O"; "T"; "T"; "O"]%byte).
Proof.
  apply (download_file_broken_stream_leaves_partial_file Flaky.externals
           Flaky.url_broken ["temp"; "input"; "broken.otf"] true
           Ref.empty_world
           (Response 200 [["O"; "T"]%byte; ["T"; "O"]%byte] false));
    reflexivity.
Defined.

(** ** [process_ttc]: packing comes last *)

Lemma write_file_inv p data w w' :
  write_file p data w = (Ok tt, w') →
  is_file (fs w') p = true ∧ trace w' = trace w.
Proof.
  unfold write_file. intros Hrun.
  apply bind_ok_inv in Hrun as ([] & w1 & Hopen & Hwrite).
  unfold open_wb in Hopen. unfold write_chunk in Hwrite.
  assert (trace w1 = trace w) as <-.
  { destruct (lookup_node (fs w) p) as [[|?]|];
      destruct (lookup_node (fs w) (path_parent p)) as [[|?]|];
      try case_decide; by simplify_eq. }
  destruct (lookup_node (fs w1) p) as [[|d]|] eqn:Hp; simplify_eq.
  split; [|done]. unfold is_file. simpl.
  destruct p; [done|]. simpl. by rewrite lookup_insert_eq.
Qed.

Lemma ensure_parent_dir_trace p w r w' :
  ensure_parent_dir p w = (r, w') → trace w' = trace w.
Proof.
  unfold ensure_parent_dir.
  destruct (mkdir_parents _ (fs w)); by intros [= <- <-].
Qed.

(** a worker that returns has written its output and printed its [TTF]
    line *)
Lemma process_ttf_worker_ok (E : Externals) in_ttf out_ttf temp w w' :
  process_ttf_worker E in_ttf out_ttf temp w = (Ok tt, w') →
  is_file (fs w') out_ttf = true
  ∧ ∃ evs, trace w' = trace w ++ evs ∧ Print (TTF out_ttf) ∈ evs.
Proof.
  intros Hrun.
  apply (process_ttf_worker_reaches_save (λ _, True)
           (extends_trace (λ _, True))) in Hrun
    as (w6 & font4 & (evs & Htr & _) & Hrun);
    [|first [ apply _ | apply extends_trace_dirs | apply extends_trace_file
            | apply extends_trace_emit | done ]..].
  apply bind_ok_inv in Hrun as ([] & w7 & Hprint & Hrun).
  apply bind_ok_inv in Hrun as ([] & w8 & Hmk & Hrun).
  apply write_file_inv in Hrun as [Hfile Htr8].
  apply ensure_parent_dir_trace in Hmk. injection Hprint as <-.
  split; [done|]. exists (evs ++ [Print (TTF out_ttf)]). split.
  - rewrite Htr8, Hmk. simpl. by rewrite Htr, <- app_assoc.
  - apply elem_of_app. right. left.
Qed.

Lemma load_ttc_reads (E : Externals) p w r w1 :
  load_ttc E p w = (r, w1) → w1 = w.
Proof.
  unfold load_ttc, bind, read_file.
  destruct (lookup_node (fs w) p) as [[|d]|]; [by intros [= <- <-]| |
    by intros [= <- <-]].
  destruct (read_ttc E d); by intros [= <- <-].
Qed.

Lemma member_chains_lookup (E : Externals) temp in_ttc n i steps :
  map (λ i, unpack_and_process_ttf E temp in_ttc i
              (processed_ttf temp in_ttc i)) (seq 0 n) !! i = Some steps →
  (i < n)%nat
  ∧ steps = unpack_and_process_ttf E temp in_ttc i (processed_ttf temp in_ttc i).
Proof.
  rewrite list_lookup_fmap.
  destruct (seq 0 n !! i) as [j|] eqn:Hj; [|done].
  apply lookup_seq in Hj as [-> ?]. simpl. by intros [= <-].
Qed.

Lemma member_chains_keep_files (E : Externals) temp in_ttc n :
  Forall (Forall (preserves keeps_files))
    (map (λ i, unpack_and_process_ttf E temp in_ttc i
                 (processed_ttf temp in_ttc i)) (seq 0 n)).
Proof.
  apply Forall_map, Forall_forall. intros i _.
  unfold unpack_and_process_ttf. repeat constructor.
  - apply (preserves_unpack_ttc_worker (λ _, True));
      first [ apply _ | apply keeps_files_dirs | apply keeps_files_file
            | apply keeps_files_emit | done ].
  - apply (preserves_process_ttf_worker (λ _, True));
      first [ apply _ | apply keeps_files_dirs | apply keeps_files_file
            | apply keeps_files_emit | done ].
Qed.

Lemma member_chains_any_trace (E : Externals) temp in_ttc n :
  Forall (Forall (preserves (extends_trace (λ _, True))))
    (map (λ i, unpack_and_process_ttf E temp in_ttc i
                 (processed_ttf temp in_ttc i)) (seq 0 n)).
Proof.
  apply Forall_map, Forall_forall. intros i _.
  unfold unpack_and_process_ttf. repeat constructor.
  - apply (preserves_unpack_ttc_worker (λ _, True));
      first [ apply _ | apply extends_trace_dirs | apply extends_trace_file
            | apply extends_trace_emit | done ].
  - apply (preserves_process_ttf_worker (λ _, True));
      first [ apply _ | apply extends_trace_dirs | apply extends_trace_file
            | apply extends_trace_emit | done ].
Qed.

(** Whatever the interleaving of the member chains, [process_ttc] starts
    [pack_ttc] only from a world in which every member chain has returned:
    each transformed member is on disk and its [TTF] line has been printed,
    and no [TTC] line has been printed before.  The paths it hands to
    [pack_ttc] are those of members 0 to N-1, in this order.  When the
    container cannot be read or a member chain raises, [pack_ttc] is not
    started at all. *)
Theorem process_ttc_packs_after_all_members
    (E : Externals) (sched : list nat) (in_ttc out_ttc temp : path)
    (w : world) (r : result unit) (w' : world) :
  process_ttc E sched in_ttc out_ttc temp w = (r, w') →
  (∃ e, r = Raise e
        ∧ ∀ p, Print (TTC p) ∉ drop (length (trace w)) (trace w'))
  ∨ (∃ members w1,
       load_ttc E in_ttc w = (Ok members, w)
       ∧ gather sched
           (map (λ i, unpack_and_process_ttf E temp in_ttc i
                        (processed_ttf temp in_ttc i))
              (seq 0 (length members))) w = (Ok tt, w1)
       ∧ (∀ i, (i < length members)%nat →
            is_file (fs w1) (processed_ttf temp in_ttc i) = true
            ∧ Print (TTF (processed_ttf temp in_ttc i))
              ∈ drop (length (trace w)) (trace w1))
       ∧ (∀ p, Print (TTC p) ∉ drop (length (trace w)) (trace w1))
       ∧ pack_ttc E (map (processed_ttf temp in_ttc) (seq 0 (length members)))
           out_ttc w1 = (r, w')).
Proof.
  intros Hrun. unfold process_ttc in Hrun.
  assert (Hno : ∀ n w1 r1,
    gather sched (map (λ i, unpack_and_process_ttf E temp in_ttc i
                              (processed_ttf temp in_ttc i)) (seq 0 n)) w
    = (r1, w1) →
    ∀ p, Print (TTC p) ∉ drop (length (trace w)) (trace w1)).
  { intros n w1 r1 Hg p.
    apply (preserves_member_chains transform_event
             (extends_trace transform_event)) in Hg as (evs & Htr & Hevs);
      [|first [ apply _ | apply extends_trace_dirs | apply extends_trace_file
              | apply extends_trace_emit | done ]..].
    rewrite Htr, drop_app_length. intros Hin.
    by apply (proj1 (Forall_forall _ _) Hevs) in Hin. }
  apply bind_inv in Hrun as [(members & w0 & Hload & Hrun)|(e & Hload & ->)].
  - pose proof (load_ttc_reads _ _ _ _ _ Hload) as ->.
    apply bind_inv in Hrun as [([] & w1 & Hg & Hrun)|(e & Hg & ->)].
    + right. exists members, w1. split_and!; [done|done| |by eapply Hno|done].
      intros i Hi.
      assert (Hlook : map (λ i, unpack_and_process_ttf E temp in_ttc i
                                  (processed_ttf temp in_ttc i))
                        (seq 0 (length members)) !! i
                      = Some (unpack_and_process_ttf E temp in_ttc i
                                (processed_ttf temp in_ttc i))).
      { by rewrite list_lookup_fmap, lookup_seq_lt. }
      split.
      * eapply (gather_post keeps_files (λ _, True)
                  (λ i w, is_file (fs w) (processed_ttf temp in_ttc i) = true));
          [done|intros ???? HQ; by apply H|apply member_chains_keep_files
          | |done|exact Hg|exact Hlook|done].
        intros j steps l Hj Hl wa wb _ Hl_run.
        apply member_chains_lookup in Hj as [_ ->]. injection Hl as <-.
        by apply process_ttf_worker_ok in Hl_run as [? _].
      * eapply (gather_post (extends_trace (λ _, True))
                  (λ wa, (length (trace w) ≤ length (trace wa))%nat)
                  (λ i wa, Print (TTF (processed_ttf temp in_ttc i))
                           ∈ drop (length (trace w)) (trace wa)));
          [|intros j wa wb (evs & Htr & _) HQ|apply member_chains_any_trace
          | |reflexivity|exact Hg|exact Hlook|done].
        -- intros wa wb (evs & Htr & _) Hle. rewrite Htr, length_app. lia.
        -- rewrite Htr, drop_app. apply elem_of_app. by left.
        -- intros j steps l Hj Hl wa wb Hle Hl_run.
           apply member_chains_lookup in Hj as [_ ->]. injection Hl as <-.
           apply process_ttf_worker_ok in Hl_run as [_ (evs & Htr & Hin)].
           rewrite Htr, drop_app. apply elem_of_app. right.
           by replace (length (trace w) - length (trace wa))%nat with 0%nat
             by lia.
    + left. exists e. split; [done|]. by eapply Hno.
  - left. exists e. split; [done|]. intros p.
    apply load_ttc_reads in Hload. subst w'. rewrite drop_all.
    apply not_elem_of_nil.
Qed.

Lemma process_ttc_packs_after_all_members_witness :
  let w := Ref.world_with_ttc ["in.ttc"] [Ref.font_A; Ref.font_B] in
  let run := process_ttc Ref.externals [1; 0; 0; 1]%nat ["in.ttc"]
               ["out.ttc"] ["temp"] w in
  fst run = Ok tt
  ∧ ∃ w1,
      (∀ i, (i < 2)%nat →
         is_file (fs w1) (processed_ttf ["temp"] ["in.ttc"] i) = true
         ∧ Print (TTF (processed_ttf ["temp"] ["in.ttc"] i)) ∈ trace w1)
      ∧ (∀ p, Print (TTC p) ∉ trace w1)
      ∧ pack_ttc Ref.externals
          (map (processed_ttf ["temp"] ["in.ttc"]) (seq 0 2)) ["out.ttc"] w1
        = run.
Proof.
  intros w run. split; [by vm_compute|].
  destruct (process_ttc_packs_after_all_members Ref.externals [1; 0; 0; 1]%nat
              ["in.ttc"] ["out.ttc"] ["temp"] w (fst run) (snd run))
    as [(e & He & _)|(members & w1 & Hload & _ & Hdone & Hnone & Hpack)].
  - apply surjective_pairing.
  - by vm_compute in He.
  - assert (Hl : load_ttc Ref.externals ["in.ttc"] w
                 = (Ok [Ref.font_A; Ref.font_B], w)) by reflexivity.
    rewrite Hl in Hload. injection Hload as <-.
    exists w1. split_and!; [exact Hdone|exact Hnone|].
    etrans; [exact Hpack|]. symmetry. apply surjective_pairing.
Defined.

(** ** What a run leaves in place *)

Global Instance keeps_kinds_preorder : PreOrder keeps_kinds.
Proof.
  split; [by intros w p|].
  intros w1 w2 w3 H1 H2 p. split; intros Hp.
  - by apply H2, H1.
  - by apply H2, H1.
Qed.

Lemma keeps_kinds_dirs w m1 d :
  dirs_added (fs w) m1 d → keeps_kinds w (World m1 (trace w)).
Proof.
  intros Hadd p. simpl. split.
  - by rewrite (dirs_added_is_file _ _ _ _ Hadd).
  - unfold is_dir. destruct p as [|x p]; [done|]. simpl.
    destruct (Hadd (x :: p)) as [->|(-> & _ & _)]; done.
Qed.

Lemma keeps_kinds_file w p data :
  is_dir (fs w) p = false →
  keeps_kinds w (World (<[p := File data]> (fs w)) (trace w)).
Proof.
  intros Hnd q. split; [by apply keeps_files_file|].
  unfold is_dir in *. simpl. destruct q as [|x q]; [done|]. simpl.
  destruct (decide (p = x :: q)) as [->|Hne].
  - simpl in Hnd. intros Hq. by rewrite Hq in Hnd.
  - by rewrite lookup_insert_ne.
Qed.

Lemma keeps_kinds_emit w ev :
  True → keeps_kinds w (World (fs w) (trace w ++ [ev])).
Proof. by intros _ p. Qed.

Lemma run_chains_keeps_kinds E sch args_url :
  preserves keeps_kinds (run_chains E sch args_url).
Proof.
  apply (preserves_run_chains (λ _, True));
    first [ apply _ | apply keeps_kinds_dirs | apply keeps_kinds_file
          | apply keeps_kinds_emit | done ].
Qed.

Lemma rmtree_outside root m (p : path) :
  ¬ root `prefix_of` p →
  lookup_node (filter (λ kv : path * node, ¬ root `prefix_of` kv.1) m) p
  = lookup_node m p.
Proof.
  intros Hnp. destruct p as [|x p]; [done|]. simpl.
  destruct (m !! (x :: p)) as [n|] eqn:Hn.
  - by apply map_lookup_filter_Some.
  - apply map_lookup_filter_None. by left.
Qed.

(** A run removes nothing but the staging root: whatever [main] returns
    or raises, under every interleaving and with every behaviour of the
    network and the font tools, a regular file outside [temp] is still a
    regular file afterwards and a directory outside [temp] still a
    directory; and as long as the staging root has not been removed,
    this holds for every path. *)
Theorem main_removes_only_staging
    (E : Externals) (sch : schedules) (args_url : option string)
    (w w' : world) (r : result unit) :
  main E sch args_url w = (r, w') →
  (∀ p, ¬ temp_dir `prefix_of` p →
     (is_file (fs w) p = true → is_file (fs w') p = true)
     ∧ (is_dir (fs w) p = true → is_dir (fs w') p = true))
  ∧ ((Rmtree temp_dir ∉ drop (length (trace w)) (trace w')) →
     keeps_kinds w w').
Proof.
  intros Hmain. unfold main in Hmain.
  apply bind_inv in Hmain as [([] & w1 & Hrun & Hrest)|(e & Hrun & ->)].
  - pose proof (run_chains_keeps_kinds E sch args_url _ _ _ Hrun) as Hk.
    pose proof (run_chains_stage_events E sch args_url _ _ _ Hrun)
      as (evs & Htr & _).
    rewrite (bind_ok _ _ _ _ _ (emit_run _ _)) in Hrest.
    unfold rmtree in Hrest. simpl in Hrest.
    assert (Htr' : trace w' = trace w ++ evs ++ [Shutdown; Rmtree temp_dir]).
    { destruct (fs w1 !! temp_dir) as [[|?]|]; injection Hrest as _ <-;
        simpl; by rewrite Htr, <- !app_assoc. }
    split.
    + intros p Hp. destruct (Hk p) as [Hf Hd].
      destruct (fs w1 !! temp_dir) as [[|?]|]; injection Hrest as _ <-;
        simpl; [|done..].
      unfold is_file, is_dir. rewrite (rmtree_outside _ _ _ Hp).
      split; [apply Hf|apply Hd].
    + intros Hnot. destruct Hnot. rewrite Htr', drop_app_length.
      set_solver.
  - pose proof (run_chains_keeps_kinds E sch args_url _ _ _ Hrun) as Hk.
    split; [|done]. intros p _. apply Hk.
Qed.

Lemma main_removes_only_staging_witness :
  let w := Ref.world_with ["keep.otf"] Ref.font_B in
  let run := main Ref.externals Ref.in_order (Some Ref.url_A) w in
  fst run = Ok tt ∧ is_file (fs (snd run)) ["keep.otf"] = true.
Proof.
  intros w run. split; [reflexivity|].
  destruct (main_removes_only_staging Ref.externals Ref.in_order
              (Some Ref.url_A) w (snd run) (fst run)) as [Hout _].
  { symmetry. apply surjective_pairing. }
  apply (Hout ["keep.otf"]).
  - apply (bool_decide_unpack _). by vm_compute.
  - reflexivity.
Defined.

(** ** The gate never blocks a run *)

Section Summing.

Context {A : Type} (f : A → nat).


End Summing.









(** ** The file name of a download *)

Lemma split_on_nonempty sep s : split_on sep s ≠ [].
Proof.
  destruct s as [|c s]; simpl; [done|].
  case_decide; [done|]. by destruct (split_on sep s).
Qed.

(** the last piece of a split is what follows the last separator *)
Lemma split_on_last sep s :
  ∃ pre, s = pre +:+ List.last (split_on sep s) ""
         ∧ match split_on sep s with
           | [_] => pre = ""
           | _ => ∃ pre', pre = pre' +:+ String sep ""
           end.
Proof.
  induction s as [|c s (pre & Hs & Hpre)]; simpl.
  { by exists "". }
  pose proof (split_on_nonempty sep s) as Hne.
  case_decide as Hc.
  - subst c. exists (String sep pre).
    destruct (split_on sep s) as [|x [|y l]] eqn:Hsplit; [done|..].
    + subst pre. split; [rewrite Hs; reflexivity|]. by exists "".
    + destruct Hpre as (pre' & ->). split.
      * rewrite Hs. reflexivity.
      * by exists (String sep pre').
  - destruct (split_on sep s) as [|x [|y l]] eqn:Hsplit; [done|..].
    + subst pre. exists "". split; [rewrite Hs; reflexivity|done].
    + destruct Hpre as (pre' & ->). exists (String c (pre' +:+ String sep "")).
      split.
      * rewrite Hs. reflexivity.
      * by exists (String c pre').
Qed.

Lemma split_on_no_sep sep s :
  Forall (λ piece, ¬ has_char sep piece) (split_on sep s).
Proof.
  unfold has_char. induction s as [|c s IH]; simpl.
  { repeat constructor. simpl. by intros ?%elem_of_nil. }
  case_decide as Hc.
  - constructor; [|done]. simpl. by intros ?%elem_of_nil.
  - destruct (split_on sep s) as [|piece pieces].
    + repeat constructor. simpl. intros Hin.
      apply elem_of_cons in Hin as [->|Hin]; [done|].
      by apply elem_of_nil in Hin.
    + apply Forall_cons in IH as [Hp Hps]. constructor; [|done].
      simpl. intros Hin. apply elem_of_cons in Hin as [->|Hin]; done.
Qed.

Lemma last_elem_of {A} (l : list A) d : l ≠ [] → List.last l d ∈ l.
Proof.
  induction l as [|a [|b l] IH]; intros Hne; [done|by left|].
  right. by apply IH.
Qed.

(** [urlparse(url).path.split("/")[-1]] is what follows the last slash of
    the URL's path: the path is the name after a prefix that is empty or
    ends in a slash, and the name holds no slash.  A path that ends in a
    slash (or is empty) gives the empty name, and then the staging input
    path is the directory [temp/input] itself. *)
Theorem base_file_name_is_last_segment (E : Externals) (url : string) :
  (∃ pre, urlparse_path E url = pre +:+ base_file_name E url
          ∧ (pre = "" ∨ ∃ pre', pre = pre' +:+ "/"))
  ∧ ¬ has_char "/" (base_file_name E url)
  ∧ input_file E url
    = if decide (base_file_name E url = "" ∨ base_file_name E url = ".")
      then ["temp"; "input"]
      else ["temp"; "input"; base_file_name E url].
Proof.
  unfold base_file_name. split_and!.
  - destruct (split_on_last "/" (urlparse_path E url)) as (pre & Hs & Hpre).
    exists pre. split; [done|].
    destruct (split_on "/" (urlparse_path E url)) as [|x [|y l]]; auto.
  - pose proof (split_on_no_sep "/" (urlparse_path E url)) as Hall.
    eapply (proj1 (Forall_forall _ _) Hall), last_elem_of, split_on_nonempty.
  - unfold input_file, base_file_name, path_join, temp_dir.
    rewrite (decide_False (P := "input" = "" ∨ "input" = "."))
      by (by intros [|]).
    by case_decide.
Qed.

(** ** A run for one font, from the download to the teardown *)

Lemma prefix_snoc_inv {A} (q l : list A) x :
  q `prefix_of` l ++ [x] → q = l ++ [x] ∨ q `prefix_of` l.
Proof.
  intros [k Hk]. destruct k as [|y k _] using rev_ind.
  - left. by rewrite app_nil_r in Hk.
  - right. rewrite app_assoc in Hk. apply app_inj_tail in Hk as [-> _].
    by exists k.
Qed.

Lemma tree_dir_prefixes m (d q : path) :
  tree m → is_dir m d = true → q `prefix_of` d → is_dir m q = true.
Proof.
  intros Htree Hd Hq. destruct (decide (q = d)) as [->|Hne]; [done|].
  apply (Htree d q); [|done..].
  unfold is_dir in Hd. destruct d as [|x d]; [|simpl in Hd].
  - apply prefix_nil_inv in Hq. by subst.
  - destruct (m !! (x :: d)) as [[|?]|]; [by eexists|done..].
Qed.

Lemma is_dir_insert_dir m (d q : path) :
  is_dir m q = true → is_dir (<[d := Dir]> m) q = true.
Proof.
  unfold is_dir. destruct q as [|x q]; [done|]. simpl.
  destruct (decide (d = x :: q)) as [->|Hne].
  - by rewrite lookup_insert_eq.
  - by rewrite lookup_insert_ne.
Qed.

Lemma is_dir_insert_eq m (d : path) : is_dir (<[d := Dir]> m) d = true.
Proof.
  unfold is_dir. destruct d as [|x d]; [done|]. simpl.
  by rewrite lookup_insert_eq.
Qed.

(** in a tree, [mkdir(parents=True)] leaves every ancestor a directory *)
Lemma mkdir_parents_dirs rd m m' :
  tree m → mkdir_parents rd m = Ok m' →
  ∀ q, q `prefix_of` rev rd → is_dir m' q = true.
Proof.
  intros Htree. revert m'.
  induction rd as [|x rp IH]; intros m' Hmk q Hq; simpl in *.
  { apply prefix_nil_inv in Hq. by subst. }
  assert (Hkeep : ∀ m1,
    (∀ q, q `prefix_of` rev rp → is_dir m1 q = true) →
    is_dir (<[rev rp ++ [x] := Dir]> m1) q = true).
  { intros m1 H1. apply prefix_snoc_inv in Hq as [->|Hq].
    - apply is_dir_insert_eq.
    - by apply is_dir_insert_dir, H1. }
  assert (Hsame : is_dir m (rev rp ++ [x]) = true → is_dir m q = true).
  { intros Hd. by eapply tree_dir_prefixes. }
  destruct (os_mkdir m (rev rp ++ [x])) as [m0|e] eqn:Hos.
  - simplify_eq. apply os_mkdir_ok in Hos as (_ & _ & Hpar & ->).
    rewrite path_parent_snoc in Hpar. apply Hkeep. intros q' Hq'.
    eapply tree_dir_prefixes; [done| |done].
    unfold is_dir. by rewrite Hpar.
  - assert (Hother :
      (if is_dir m (rev rp ++ [x]) then Ok m else Raise e) = Ok m' →
      is_dir m' q = true).
    { destruct (is_dir m (rev rp ++ [x])) eqn:Hd; [|done].
      intros [= <-]. by apply Hsame. }
    destruct e; try (by apply Hother).
    destruct (mkdir_parents rp m) as [m1|e1] eqn:Hrec; [|done].
    specialize (IH _ eq_refl).
    destruct (os_mkdir m1 (rev rp ++ [x])) as [m2|e2] eqn:Hos2.
    + simplify_eq. apply os_mkdir_ok in Hos2 as (_ & _ & _ & ->).
      by apply Hkeep.
    + destruct (is_dir m1 (rev rp ++ [x])) eqn:Hd; [|done]. simplify_eq.
      apply prefix_snoc_inv in Hq as [->|Hq]; [done|by apply IH].
Qed.

Lemma saved_keeps_dir m m2 p data q :
  saved m m2 p data → q ≠ p → is_dir m q = true → is_dir m2 q = true.
Proof.
  intros (m1 & Hadd & ->) Hne Hd. unfold is_dir in *.
  destruct q as [|x q]; [done|]. simpl in *.
  rewrite lookup_insert_ne by done.
  destruct (Hadd (x :: q)) as [->|(Hn & _ & _)]; [done|].
  by rewrite Hn in Hd.
Qed.

Lemma download_file_success (E : Externals) url p gated w resp :
  http_stream E url = Responded resp →
  status_code resp = 200 →
  stream_ok resp = true →
  writable (fs w) p = true →
  ∃ m, download_file E url p gated w
       = (Ok true,
          World m (trace w ++ gate_open gated
                     ++ [Print (FETCH p); HttpGet url] ++ gate_close gated))
       ∧ saved (fs w) m p (concat (chunks resp)).
Proof.
  intros Hresp Hstatus Hstream Hw.
  destruct (fetch_body_success E url p
              (World (fs w) (trace w ++ gate_open gated)) resp)
    as (m & Hrun & Hsaved); [done..|].
  exists m. split; [|done].
  erewrite download_file_run; [|exact Hrun]. simpl.
  by rewrite <- !app_assoc.
Qed.

(** a download that returns [True] has made every directory above its
    destination *)
Lemma download_file_makes_ancestors (E : Externals) url p gated w w' :
  tree (fs w) →
  download_file E url p gated w = (Ok true, w') →
  ∀ q, q `prefix_of` path_parent p → is_dir (fs w') q = true.
Proof.
  intros Htree Hrun q Hq.
  destruct (fetch_body E url p (World (fs w) (trace w ++ gate_open gated)))
    as [r2 w2] eqn:Hbody.
  rewrite (download_file_run _ _ _ _ _ _ _ Hbody) in Hrun.
  injection Hrun as Hr <-. simpl.
  unfold fetch_body, print in Hbody.
  rewrite (bind_ok _ _ _ _ _ (emit_run _ _)) in Hbody.
  rewrite (bind_ok _ _ _ _ _ (emit_run _ _)) in Hbody.
  destruct (http_stream E url) as [|resp].
  { injection Hbody as <- _. done. }
  case_decide.
  { rewrite (bind_ok _ _ _ _ _ (emit_run _ _)) in Hbody.
    injection Hbody as <- _. done. }
  apply bind_inv in Hbody as [([] & w3 & Hmk & Hrest)|(e & _ & ->)]; [|done].
  assert (Hk : preserves keeps_kinds
                 (bind (open_wb p)
                    (λ _, bind (stream_to url p resp)
                            (λ _, ret (None : option bool))))).
  { apply (preserves_bind keeps_kinds);
      [apply (preserves_open_wb keeps_kinds), keeps_kinds_file|intros _].
    apply (preserves_bind keeps_kinds);
      [|intros _; apply (preserves_ret keeps_kinds)].
    unfold stream_to. apply (preserves_bind keeps_kinds).
    - apply (preserves_for_each keeps_kinds). intros c _.
      apply (preserves_write_chunk keeps_kinds), keeps_kinds_file.
    - intros _. destruct (stream_ok resp);
        [apply (preserves_ret keeps_kinds)
        |apply (preserves_raise keeps_kinds)]. }
  apply (Hk _ _ _ Hrest).
  unfold ensure_parent_dir in Hmk. simpl in Hmk.
  destruct (mkdir_parents (rev (path_parent p)) (fs w)) as [m1|e] eqn:Hm;
    [|done].
  injection Hmk as <-. simpl.
  eapply mkdir_parents_dirs; [done..|]. by rewrite rev_involutive.
Qed.

Lemma path_join_name (p : path) (s : string) :
  s ≠ "" → s ≠ "." → path_join p s = p ++ [s].
Proof. intros ? ?. unfold path_join. rewrite decide_False; [done|]. by intros [|]. Qed.

(** the worker on a font without variation, with the file systems it
    goes through *)
Lemma process_ttf_worker_static_run (E : Externals) in_ttf out_ttf temp w
    data patched f :
  lookup_node (fs w) in_ttf = Some (File data) →
  add_chws E data = Some patched →
  read_font E patched = Some f →
  writable (fs w) (chws_output_of temp in_ttf) = true →
  writable (fs w) out_ttf = true →
  unrelated (chws_output_of temp in_ttf) out_ttf →
  fvar f = None →
  ∃ m1 m2,
    saved (fs w) m1 (chws_output_of temp in_ttf) patched
    ∧ saved m1 m2 out_ttf
        (write_font E (delete_from_cmap f EXCLUDED_CODEPOINTS))
    ∧ process_ttf_worker E in_ttf out_ttf temp w
      = (Ok tt,
         World m2 (trace w ++ [Print (ADD_CHWS in_ttf);
                               Print (SUBSET (chws_output_of temp in_ttf));
                               Print (TTF out_ttf)])).
Proof.
  intros Hin Hpatch Hread Hw Hwout Hunrel Hfvar.
  destruct (process_ttf_worker_front E in_ttf out_ttf temp w _ _ _
              Hin Hpatch Hread Hw) as (m1 & Hsaved & ->).
  unfold instantiate_if_variable. rewrite font_contains_fvar. simpl.
  rewrite Hfvar. rewrite bool_decide_false by (by intros [? ?]).
  rewrite (bind_ok (ret _) _ _ _ _ eq_refl).
  unfold print. rewrite (bind_ok (emit _) _ _ _ _ (emit_run _ _)).
  set (w2 := World _ _).
  destruct (save_ok w2 out_ttf
              (write_font E (delete_from_cmap f EXCLUDED_CODEPOINTS)))
    as (m2 & -> & Hs2).
  { subst w2. simpl. by eapply saved_writable. }
  exists m1, m2. split_and!; [done..|].
  subst w2. simpl. by rewrite <- !app_assoc.
Qed.

Lemma single_chain_run sched (s1 s2 : M unit) w w1 w2 :
  s1 w = (Ok tt, w1) → s2 w1 = (Ok tt, w2) →
  gather sched [[s1; s2]] w = (Ok tt, w2).
Proof.
  intros H1 H2. rewrite gather_single. simpl. unfold bind.
  by rewrite H1, H2.
Qed.

(** A run for one font that is no collection and has no variation
    axes, from a URL whose path ends in a file name (not in a slash, [.]
    or [..]).  When the server answers 200 and streams the file to its end,
    the patch tool accepts it, and the three files of the chain (staging
    input, patched intermediate, output under [system/fonts]) can be
    written in a tree-shaped file system, [main] returns: the output holds
    the patched font without the excluded codepoints, no path under the
    staging root is left, every other regular file outside it is as it
    was, and the stages ran in the order download (inside the gate),
    patch, subset, save, pool shutdown, teardown. *)
Theorem main_builds_single_static_font
    (E : Externals) (sch : schedules) (url : string) (w : world)
    (resp : response) (patched : bytes) (f : font) :
  url ≠ "" →
  base_file_name E url ≠ "" →
  base_file_name E url ≠ "." →
  base_file_name E url ≠ ".." →
  http_stream E url = Responded resp →
  status_code resp = 200 →
  stream_ok resp = true →
  take 4 (concat (chunks resp)) ≠ ttcf →
  add_chws E (concat (chunks resp)) = Some patched →
  read_font E patched = Some f →
  fvar f = None →
  tree (fs w) →
  writable (fs w) ["temp"; "input"; base_file_name E url] = true →
  writable (fs w) ["temp"; "intermediate_chws"; base_file_name E url] = true →
  writable (fs w) ["system"; "fonts"; base_file_name E url] = true →
  ∃ w',
    main E sch (Some url) w = (Ok tt, w')
    ∧ lookup_node (fs w') ["system"; "fonts"; base_file_name E url]
      = Some (File (write_font E (delete_from_cmap f EXCLUDED_CODEPOINTS)))
    ∧ (∀ p, temp_dir `prefix_of` p → fs w' !! p = None)
    ∧ (∀ p d, ¬ temp_dir `prefix_of` p →
         p ≠ ["system"; "fonts"; base_file_name E url] →
         lookup_node (fs w) p = Some (File d) →
         lookup_node (fs w') p = Some (File d))
    ∧ trace w'
      = trace w
        ++ [Acquire;
            Print (FETCH ["temp"; "input"; base_file_name E url]);
            HttpGet url;
            Release;
            Print (ADD_CHWS ["temp"; "input"; base_file_name E url]);
            Print (SUBSET ["temp"; "intermediate_chws"; base_file_name E url]);
            Print (TTF ["system"; "fonts"; base_file_name E url]);
            Shutdown;
            Rmtree temp_dir].
Proof.
  intros Hurl Hne Hdot _ Hresp Hstatus Hstream Hmagic Hpatch Hread Hfvar
    Htree Hw_in Hw_chws Hw_out.
  assert (Hinput : input_file E url = ["temp"; "input"; base_file_name E url]).
  { unfold input_file. rewrite (path_join_name _ _ Hne Hdot).
    by rewrite path_join_name. }
  set (name := base_file_name E url) in *.
  set (input := ["temp"; "input"; name]) in *.
  set (chws := ["temp"; "intermediate_chws"; name]) in *.
  set (out := ["system"; "fonts"; name]) in *.
  assert (Hchws : chws_output_of temp_dir input = chws).
  { unfold chws_output_of, path_name, input. simpl.
    rewrite (path_join_name _ _ Hne Hdot). by rewrite path_join_name. }
  assert (Hout : path_join ["system"; "fonts"] name = out)
    by by rewrite (path_join_name _ _ Hne Hdot).
  assert (Hu1 : unrelated input chws).
  { split; intros [k Hk]; by simplify_eq/=. }
  assert (Hu2 : unrelated input out).
  { split; intros [k Hk]; by simplify_eq/=. }
  assert (Hu3 : unrelated chws out).
  { split; intros [k Hk]; by simplify_eq/=. }
  destruct (download_file_success E url input true w resp
              Hresp Hstatus Hstream Hw_in) as (m_a & Hdl & Hs_a).
  pose proof (download_file_makes_ancestors E url input true w _ Htree Hdl
                ["temp"]) as Hdir_a.
  simpl in Hdir_a. specialize (Hdir_a ltac:(by exists ["input"])).
  set (w_a := World m_a _) in Hdl.
  assert (Hin_a : lookup_node (fs w_a) input
                  = Some (File (concat (chunks resp)))).
  { apply (saved_lookup (fs w) m_a); done. }
  destruct (process_ttf_worker_static_run E input out temp_dir w_a
              _ patched f Hin_a Hpatch Hread)
    as (m_b & m_c & Hs_b & Hs_c & Hworker); [..|done|].
  { rewrite Hchws. simpl. by eapply saved_writable. }
  { simpl. by eapply saved_writable. }
  { by rewrite Hchws. }
  rewrite Hchws in Hs_b, Hworker.
  assert (Hchain : run_chains E sch (Some url) w
                   = (Ok tt, World m_c (trace w_a ++
                        [Print (ADD_CHWS input); Print (SUBSET chws);
                         Print (TTF out)]))).
  { unfold run_chains, main_futures, select_urls.
    rewrite decide_False by done. simpl.
    unfold download_and_process_file. fold name. rewrite Hinput, Hout.
    apply (single_chain_run _ _ _ _ w_a).
    - unfold bind. by rewrite Hdl.
    - unfold process_font, is_ttc.
      erewrite (bind_ok (bind (read_file input) _)); last first.
      { erewrite bind_ok; [done|]. by apply read_file_ok. }
      rewrite bool_decide_false by done. exact Hworker. }
  assert (Hdir_c : m_c !! temp_dir = Some Dir).
  { assert (is_dir m_c temp_dir = true) as Hd.
    { eapply saved_keeps_dir; [exact Hs_c|done|].
      eapply saved_keeps_dir; [exact Hs_b|done|]. exact Hdir_a. }
    unfold is_dir in Hd. simpl in Hd.
    by destruct (m_c !! temp_dir) as [[|?]|]. }
  eexists. split_and!.
  - unfold main. rewrite (bind_ok _ _ _ _ _ Hchain).
    rewrite (bind_ok _ _ _ _ _ (emit_run _ _)).
    unfold rmtree. simpl. rewrite Hdir_c. reflexivity.
  - cbn [fs]. rewrite rmtree_outside.
    + eapply saved_lookup; [done|exact Hs_c].
    + intros [k Hk]. by simplify_eq/=.
  - intros p Hp. simpl. apply map_lookup_filter_None. right.
    intros x _ Hnot. by apply Hnot.
  - intros p d Hp Hpo Hfile. cbn [fs]. rewrite rmtree_outside by done.
    apply (saved_other_file _ _ _ _ _ Hs_c Hpo).
    apply (saved_other_file _ _ _ _ p Hs_b).
    { intros ->. apply Hp. by exists ["intermediate_chws"; name]. }
    apply (saved_other_file _ _ _ _ p Hs_a); [|done].
    intros ->. apply Hp. by exists ["input"; name].
  - simpl. by rewrite <- !app_assoc.
Qed.

Lemma main_builds_single_static_font_witness :
  ∃ w',
    main Ref.externals Ref.in_order (Some Ref.url_A) Ref.empty_world
    = (Ok tt, w')
    ∧ lookup_node (fs w') ["system"; "fonts"; "A.otf"]
      = Some (File (Ref.write_font
                      (delete_from_cmap Ref.font_A EXCLUDED_CODEPOINTS)))
    ∧ (∀ p, temp_dir `prefix_of` p → fs w' !! p = None)
    ∧ (∀ p d, ¬ temp_dir `prefix_of` p →
         p ≠ ["system"; "fonts"; "A.otf"] →
         lookup_node (fs Ref.empty_world) p = Some (File d) →
         lookup_node (fs w') p = Some (File d))
    ∧ trace w'
      = [Acquire;
         Print (FETCH ["temp"; "input"; "A.otf"]);
         HttpGet Ref.url_A;
         Release;
         Print (ADD_CHWS ["temp"; "input"; "A.otf"]);
         Print (SUBSET ["temp"; "intermediate_chws"; "A.otf"]);
         Print (TTF ["system"; "fonts"; "A.otf"]);
         Shutdown;
         Rmtree temp_dir].
Proof.
  apply (main_builds_single_static_font Ref.externals Ref.in_order Ref.url_A
           Ref.empty_world
           (Response 200 [Ref.sfnt_magic; drop 4 (Ref.write_font Ref.font_A)]
              true)
           (Ref.write_font Ref.font_A) Ref.font_A).
  - discriminate.
  - discriminate.
  - discriminate.
  - discriminate.
  - reflexivity.
  - reflexivity.
  - reflexivity.
  - discriminate.
  - reflexivity.
  - reflexivity.
  - reflexivity.
  - intros p q [x Hx]. simpl in Hx. rewrite lookup_empty in Hx. discriminate.
  - reflexivity.
  - reflexivity.
  - reflexivity.
Defined.

(** ** Trees stay trees *)

Global Instance tree_kept_preorder : PreOrder tree_kept.
Proof.
  split; [intros w Ht; exact Ht|].
  intros w1 w2 w3 H1 H2 Ht. by apply H2, H1.
Qed.

Lemma proper_prefix_parent (q d : path) :
  q `prefix_of` d → q ≠ d → q `prefix_of` path_parent d.
Proof.
  destruct d as [|x d _] using rev_ind.
  - intros Hq%prefix_nil_inv. by subst.
  - rewrite path_parent_snoc. intros Hq Hne.
    by apply prefix_snoc_inv in Hq as [->|Hq].
Qed.

Lemma tree_insert m (d : path) n :
  tree m → d ≠ [] → is_dir m (path_parent d) = true →
  n = Dir ∨ is_dir m d = false →
  tree (<[d := n]> m).
Proof.
  intros Htree Hne Hpar Hn p q Hp Hq Hqp.
  assert (Hq0 : is_dir m q = true).
  { destruct (decide (p = d)) as [->|Hpd].
    - eapply tree_dir_prefixes; [done..|]. by apply proper_prefix_parent.
    - rewrite lookup_insert_ne in Hp by done. by apply (Htree p q). }
  unfold is_dir in *. destruct q as [|y q]; [done|]. simpl in *.
  destruct (decide (d = y :: q)) as [Hd|Hd].
  - rewrite Hd. rewrite lookup_insert_eq.
    destruct Hn as [->|Hn]; [done|].
    rewrite Hd in Hn. simpl in Hn. by rewrite Hn in Hq0.
  - by rewrite lookup_insert_ne.
Qed.

Lemma mkdir_parents_tree rd m m' :
  tree m → mkdir_parents rd m = Ok m' → tree m'.
Proof.
  revert m m'. induction rd as [|x rp IH]; intros m m' Htree Hmk; simpl in *.
  { by simplify_eq. }
  assert (Hins : ∀ m1 m2, tree m1 →
            os_mkdir m1 (rev rp ++ [x]) = Ok m2 → tree m2).
  { intros m1 m2 Ht Hos. apply os_mkdir_ok in Hos as (_ & Hne & Hpar & ->).
    apply tree_insert; [done|done| |by left].
    unfold is_dir. by rewrite Hpar. }
  destruct (os_mkdir m (rev rp ++ [x])) as [m0|e] eqn:Hos.
  - simplify_eq. by eapply Hins.
  - assert (Hother :
      (if is_dir m (rev rp ++ [x]) then Ok m else Raise e) = Ok m' → tree m').
    { destruct (is_dir m (rev rp ++ [x])); [|done]. by intros [= <-]. }
    destruct e; try (by apply Hother).
    destruct (mkdir_parents rp m) as [m1|e1] eqn:Hrec; [|done].
    pose proof (IH _ _ Htree Hrec) as Ht1.
    destruct (os_mkdir m1 (rev rp ++ [x])) as [m2|e2] eqn:Hos2.
    + simplify_eq. by eapply Hins.
    + destruct (is_dir m1 (rev rp ++ [x])); [|done]. by simplify_eq.
Qed.

Lemma tree_kept_ensure_parent_dir p : preserves tree_kept (ensure_parent_dir p).
Proof.
  intros w r w' Hrun Ht. unfold ensure_parent_dir in Hrun.
  destruct (mkdir_parents _ (fs w)) as [m1|e] eqn:Hmk;
    injection Hrun as _ <-; [|done].
  simpl. by eapply mkdir_parents_tree.
Qed.

Lemma tree_kept_open_wb p : preserves tree_kept (open_wb p).
Proof.
  intros w r w' Hrun Ht. unfold open_wb in Hrun.
  assert (Hins : lookup_node (fs w) p ≠ Some Dir →
            lookup_node (fs w) (path_parent p) = Some Dir →
            tree (<[p := File []]> (fs w))).
  { intros Hp Hpar. apply tree_insert; [done| | |right].
    - intros ->. by apply Hp.
    - unfold is_dir. by rewrite Hpar.
    - unfold is_dir. by destruct (lookup_node (fs w) p) as [[|?]|]. }
  destruct (lookup_node (fs w) p) as [[|?]|] eqn:Hp;
    [by injection Hrun as _ <-|..];
    (destruct (lookup_node (fs w) (path_parent p)) as [[|?]|] eqn:Hpar;
     [case_decide|..]; injection Hrun as _ <-; try done;
     simpl; by apply Hins).
Qed.

Lemma tree_kept_write_chunk p chunk : preserves tree_kept (write_chunk p chunk).
Proof.
  intros w r w' Hrun Ht. unfold write_chunk in Hrun.
  destruct (lookup_node (fs w) p) as [[|data]|] eqn:Hp;
    injection Hrun as _ <-; [done| |done].
  simpl. assert (Hne : p ≠ []) by (by intros ->).
  apply tree_insert; [done|done| |right].
  - apply (Ht p); [|apply parent_prefix|].
    + destruct p; [done|]. by eexists.
    + intros Heq. apply (not_prefix_parent p Hne). by rewrite Heq.
  - unfold is_dir. by rewrite Hp.
Qed.

Lemma tree_kept_emit ev : preserves tree_kept (emit ev).
Proof. intros w r w' [= <- <-] Ht. exact Ht. Qed.

(** a download leaves a tree a tree, whatever its outcome *)
Lemma download_file_tree (E : Externals) url p gated :
  preserves tree_kept (download_file E url p gated).
Proof.
  assert (Hbody : preserves tree_kept (fetch_body E url p)).
  { unfold fetch_body, print, stream_to.
    apply (preserves_bind tree_kept); [apply tree_kept_emit|intros _].
    apply (preserves_bind tree_kept); [apply tree_kept_emit|intros _].
    destruct (http_stream E url) as [|resp];
      [apply (preserves_raise tree_kept)|].
    case_decide.
    { apply (preserves_bind tree_kept); [apply tree_kept_emit|intros _].
      apply (preserves_ret tree_kept). }
    apply (preserves_bind tree_kept);
      [apply tree_kept_ensure_parent_dir|intros _].
    apply (preserves_bind tree_kept); [apply tree_kept_open_wb|intros _].
    apply (preserves_bind tree_kept);
      [|intros _; apply (preserves_ret tree_kept)].
    apply (preserves_bind tree_kept).
    - apply (preserves_for_each tree_kept). intros c _.
      apply tree_kept_write_chunk.
    - intros _. destruct (stream_ok resp);
        [apply (preserves_ret tree_kept)|apply (preserves_raise tree_kept)]. }
  intros w r w' Hrun Ht.
  destruct (fetch_body E url p (World (fs w) (trace w ++ gate_open gated)))
    as [r2 w2] eqn:Hrun2.
  rewrite (download_file_run _ _ _ _ _ _ _ Hrun2) in Hrun.
  injection Hrun as _ <-. simpl. by apply (Hbody _ _ _ Hrun2).
Qed.

(** ** What every file operation keeps, every stage keeps *)

Section Stepwise.

Context (R : relation world) `{!PreOrder R}.

Hypothesis R_mkdir : ∀ p, preserves R (ensure_parent_dir p).
Hypothesis R_open : ∀ p, preserves R (open_wb p).
Hypothesis R_chunk : ∀ p chunk, preserves R (write_chunk p chunk).
Hypothesis R_emit : ∀ ev, preserves R (emit ev).

Ltac stepwise_stage := fail.

Ltac stepwise :=
  repeat first
    [ stepwise_stage
    | apply (preserves_ret R) | apply (preserves_raise R)
    | apply (preserves_read_file R)
    | apply R_mkdir | apply R_open | apply R_chunk | apply R_emit
    | apply (preserves_bind R); [|intros ?]
    | progress unfold print, write_file ].

Context (E : Externals).

Lemma stepwise_load_font p : preserves R (load_font E p).
Proof. unfold load_font. stepwise. case_match; stepwise. Qed.

Lemma stepwise_load_ttc p : preserves R (load_ttc E p).
Proof. unfold load_ttc. stepwise. case_match; stepwise. Qed.

Lemma stepwise_load_fonts ttfs : preserves R (load_fonts E ttfs).
Proof.
  induction ttfs as [|ttf ttfs IH]; simpl; [apply (preserves_ret R)|].
  apply (preserves_bind R); [apply stepwise_load_font|intros f].
  apply (preserves_bind R); [done|intros fonts]. apply (preserves_ret R).
Qed.

Ltac stepwise_stage ::=
  first [ apply stepwise_load_font | apply stepwise_load_ttc
        | apply stepwise_load_fonts ].

Lemma stepwise_instantiate_if_variable p f :
  preserves R (instantiate_if_variable E p f).
Proof.
  unfold instantiate_if_variable, del_VORG, clear_VOrgMap, run_instancer.
  case_match; stepwise; case_match; stepwise.
Qed.

Lemma stepwise_process_ttf_worker in_ttf out_ttf temp :
  preserves R (process_ttf_worker E in_ttf out_ttf temp).
Proof.
  unfold process_ttf_worker, run_add_chws. stepwise.
  - case_match; stepwise.
  - apply stepwise_instantiate_if_variable.
Qed.

Lemma stepwise_unpack_ttc_worker in_ttc i out_file :
  preserves R (unpack_ttc_worker E in_ttc i out_file).
Proof.
  unfold unpack_ttc_worker. stepwise. case_match; stepwise.
Qed.

Lemma stepwise_pack_ttc ttfs out_ttc : preserves R (pack_ttc E ttfs out_ttc).
Proof. unfold pack_ttc. stepwise. Qed.

Lemma stepwise_process_font sched in_font out_font temp :
  preserves R (process_font E sched in_font out_font temp).
Proof.
  unfold process_font, is_ttc.
  apply (preserves_bind R); [stepwise|intros [|]].
  - unfold process_ttc.
    apply (preserves_bind R); [apply stepwise_load_ttc|intros ttc].
    apply (preserves_bind R); [|intros _; apply stepwise_pack_ttc].
    apply (preserves_gather R), Forall_map, Forall_forall. intros i _.
    unfold unpack_and_process_ttf. repeat constructor.
    + apply stepwise_unpack_ttc_worker.
    + apply stepwise_process_ttf_worker.
  - apply stepwise_process_ttf_worker.
Qed.

Lemma stepwise_fetch_body url p : preserves R (fetch_body E url p).
Proof.
  unfold fetch_body, stream_to. stepwise.
  case_match; stepwise. case_decide; stepwise.
  - apply (preserves_for_each R). intros chunk _. stepwise.
  - case_match; stepwise.
Qed.

Lemma stepwise_download_file url p gated :
  preserves R (download_file E url p gated).
Proof.
  unfold download_file.
  apply (preserves_bind R); [|intros [b|]; apply (preserves_ret R)].
  intros w r w'. unfold with_gate.
  destruct gated; [|apply stepwise_fetch_body].
  destruct (emit Acquire w) as [r1 w1] eqn:Hacq.
  destruct (fetch_body E url p w1) as [r2 w2] eqn:Hbody.
  intros [= <- <-].
  etrans; [by eapply R_emit|].
  etrans; [by eapply stepwise_fetch_body|].
  by eapply (R_emit Release w2).
Qed.

Lemma stepwise_main_futures sch args_url :
  Forall (Forall (preserves R)) (main_futures E sch args_url).
Proof.
  unfold main_futures. destruct (select_urls args_url) as [urls b].
  apply Forall_app. split.
  - apply Forall_map, Forall_forall. intros url _.
    unfold download_and_process_file. repeat constructor.
    + apply (preserves_bind R); [apply stepwise_download_file|intros _].
      apply (preserves_ret R).
    + apply stepwise_process_font.
  - destruct b; repeat constructor.
    apply (preserves_bind R); [apply stepwise_download_file|intros _].
    apply (preserves_ret R).
Qed.

Lemma stepwise_run_chains sch args_url :
  preserves R (run_chains E sch args_url).
Proof. apply (preserves_gather R), stepwise_main_futures. Qed.

End Stepwise.

(** ** Changes confined to a set of paths *)

Lemma unrelated_ne (p q : path) : unrelated p q → q ≠ p.
Proof. intros [Hpq _] ->. by apply Hpq. Qed.

Global Instance confined_preorder F : PreOrder (confined F).
Proof.
  split; [by intros w q|].
  intros w1 w2 w3 H1 H2 q Hq.
  destruct (H1 q Hq) as [Hw1 Hf1]. destruct (H2 q Hq) as [Hw2 Hf2].
  split; [by auto|]. intros d Hd. by apply Hf2, Hf1.
Qed.

Lemma confined_mono (F F' : path → Prop) w w' :
  (∀ p, F p → F' p) → confined F w w' → confined F' w w'.
Proof. intros Hsub Hc q Hq. apply Hc. intros p Hp. by apply Hq, Hsub. Qed.

Lemma saved_confined (F : path → Prop) w w' p d :
  saved (fs w) (fs w') p d → F p → confined F w w'.
Proof.
  intros Hs Hp q Hq. pose proof (Hq p Hp) as Hun. split.
  - by eapply saved_writable.
  - intros x. apply (saved_other_file _ _ _ _ _ Hs). by apply unrelated_ne.
Qed.

(** ** [process_ttc] on a collection of fonts without variation *)

Lemma slot_input temp in_ttc i :
  member_path (path_join temp "input_ttf") in_ttc i
  = slot temp in_ttc "input_ttf" i.
Proof.
  unfold member_path, slot. rewrite path_join_member.
  rewrite path_join_name by done. by rewrite <- app_assoc.
Qed.

Lemma slot_processed temp in_ttc i :
  processed_ttf temp in_ttc i = slot temp in_ttc "processed_ttf" i.
Proof.
  unfold processed_ttf, slot. rewrite path_join_member.
  rewrite path_join_name by done. by rewrite <- app_assoc.
Qed.

Lemma slot_chws temp in_ttc dir i :
  chws_output_of temp (slot temp in_ttc dir i)
  = slot temp in_ttc "intermediate_chws" i.
Proof.
  unfold chws_output_of, slot.
  replace (temp ++ [dir; member_name in_ttc i])
    with ((temp ++ [dir]) ++ [member_name in_ttc i])
    by (by rewrite <- app_assoc).
  rewrite path_name_snoc, path_join_member.
  rewrite path_join_name by done. by rewrite <- app_assoc.
Qed.

Lemma slot_unrelated temp in_ttc dir i dir' j :
  (dir, i) ≠ (dir', j) →
  unrelated (slot temp in_ttc dir i) (slot temp in_ttc dir' j).
Proof.
  intros Hne. unfold slot.
  split; intros Hpre; apply prefix_length_eq in Hpre;
    try (rewrite !length_app; simpl; lia);
    apply app_inv_head in Hpre; injection Hpre as Hd Hn;
    apply member_name_inj in Hn; congruence.
Qed.

Lemma slot_not_source temp in_ttc dir i : in_ttc ≠ slot temp in_ttc dir i.
Proof.
  unfold slot. intros Heq.
  pose proof (member_name_length in_ttc i) as Hlen.
  rewrite Heq in Hlen at 1.
  replace (temp ++ [dir; member_name in_ttc i])
    with ((temp ++ [dir]) ++ [member_name in_ttc i]) in Hlen
    by (by rewrite <- app_assoc).
  rewrite path_name_snoc in Hlen. lia.
Qed.

Lemma stage_dir_elem dir :
  dir ∈ stage_dirs ↔
  dir = "input_ttf" ∨ dir = "intermediate_chws" ∨ dir = "processed_ttf".
Proof. unfold stage_dirs. rewrite !elem_of_cons, elem_of_nil. tauto. Qed.

(** a file saved elsewhere leaves a member as its chain has brought it *)
Lemma member_state_saved E temp in_ttc m g k j files files' p d :
  saved files files' p d →
  (∀ dir, dir ∈ stage_dirs → unrelated p (slot temp in_ttc dir j)) →
  member_state E temp in_ttc m g k j files →
  member_state E temp in_ttc m g k j files'.
Proof.
  intros Hs Hun.
  assert (Hw : ∀ dir, dir ∈ stage_dirs →
            writable files (slot temp in_ttc dir j) = true →
            writable files' (slot temp in_ttc dir j) = true).
  { intros dir Hdir. eapply saved_writable; [done|by apply Hun]. }
  assert (Hf : ∀ dir x, dir ∈ stage_dirs →
            lookup_node files (slot temp in_ttc dir j) = Some (File x) →
            lookup_node files' (slot temp in_ttc dir j) = Some (File x)).
  { intros dir x Hdir. apply (saved_other_file _ _ _ _ _ Hs).
    by apply unrelated_ne, Hun. }
  destruct k as [|[|k]]; simpl.
  - intros (H1 & H2 & H3).
    split_and!; (apply Hw; [apply stage_dir_elem; auto|done]).
  - intros (H1 & H2 & H3).
    split_and!; [apply Hf|apply Hw..]; try done; apply stage_dir_elem; auto.
  - apply Hf, stage_dir_elem; auto.
Qed.

(** a worker whose transform succeeds, with the file systems it goes
    through *)
Lemma process_ttf_worker_run (E : Externals) in_ttf out_ttf temp w
    data patched f g :
  lookup_node (fs w) in_ttf = Some (File data) →
  add_chws E data = Some patched →
  read_font E patched = Some f →
  writable (fs w) (chws_output_of temp in_ttf) = true →
  writable (fs w) out_ttf = true →
  unrelated (chws_output_of temp in_ttf) out_ttf →
  subset_instance E f g →
  ∃ m1 m2 evs,
    saved (fs w) m1 (chws_output_of temp in_ttf) patched
    ∧ saved m1 m2 out_ttf (write_font E g)
    ∧ process_ttf_worker E in_ttf out_ttf temp w
      = (Ok tt, World m2 (trace w ++ evs)).
Proof.
  intros Hin Hpatch Hread Hw Hwout Hunrel Hg.
  destruct (process_ttf_worker_front E in_ttf out_ttf temp w _ _ _
              Hin Hpatch Hread Hw) as (m1 & Hsaved & ->).
  set (w1 := World m1 _).
  assert (Hinst : ∃ evs1,
    instantiate_if_variable E (chws_output_of temp in_ttf)
      (delete_from_cmap f EXCLUDED_CODEPOINTS) w1
    = (Ok g, World m1 (trace w1 ++ evs1))).
  { unfold subset_instance in Hg. destruct (fvar f) as [axes|] eqn:Hfvar.
    - destruct Hg as (vorg & vvar & HVORG & HVVAR & Hinst).
      exists [Print (VFINST (chws_output_of temp in_ttf))].
      erewrite instantiate_if_variable_run; [by rewrite Hinst| |done..].
      simpl. rewrite Hfvar. by eexists.
    - subst g. exists []. unfold instantiate_if_variable.
      rewrite font_contains_fvar. simpl. rewrite Hfvar.
      rewrite bool_decide_false by (by intros [? ?]).
      subst w1. simpl. by rewrite app_nil_r. }
  destruct Hinst as (evs1 & Hinst).
  rewrite (bind_ok _ _ _ _ _ Hinst).
  unfold print. rewrite (bind_ok (emit _) _ _ _ _ (emit_run _ _)).
  set (w2 := World _ _).
  destruct (save_ok w2 out_ttf (write_font E g)) as (m2 & -> & Hs2).
  { subst w2. simpl. by eapply saved_writable. }
  exists m1, m2. eexists. split_and!; [done..|].
  subst w2 w1. simpl. by rewrite <- !app_assoc.
Qed.

Section Chains.

Context (E : Externals) (temp in_ttc : path) (data : bytes)
        (members outs : list font) (w0 : world).

Hypothesis Hread : read_ttc E data = Some members.
Hypothesis Houts : Forall2 (transforms_to E) members outs.

Lemma chain_tasks_lookup st i t :
  chain_tasks E temp in_ttc (length members) st !! i = Some t →
  (i < length members)%nat
  ∧ t = drop (st i)
          (unpack_and_process_ttf E temp in_ttc i
             (processed_ttf temp in_ttc i)).
Proof.
  unfold chain_tasks. rewrite list_lookup_fmap.
  destruct (seq 0 (length members) !! i) as [j|] eqn:Hj; [|done].
  apply lookup_seq in Hj as [-> ?]. simpl. by intros [= <-].
Qed.

Lemma chain_tasks_insert st i :
  (i < length members)%nat →
  <[i := drop (S (st i))
           (unpack_and_process_ttf E temp in_ttc i
              (processed_ttf temp in_ttc i))]>
    (chain_tasks E temp in_ttc (length members) st)
  = chain_tasks E temp in_ttc (length members)
      (λ j, if decide (j = i) then S (st i) else st j).
Proof.
  intros Hi. apply list_eq. intros j. unfold chain_tasks.
  destruct (decide (j = i)) as [->|Hne].
  - rewrite list_lookup_insert_eq by (by rewrite length_map, length_seq).
    rewrite list_lookup_fmap, lookup_seq_lt by done. simpl.
    by rewrite decide_True.
  - rewrite list_lookup_insert_ne by done. rewrite !list_lookup_fmap.
    destruct (seq 0 (length members) !! j) as [k|] eqn:Hk; [|done].
    apply lookup_seq in Hk as [-> ?]. simpl. by rewrite decide_False.
Qed.

Lemma chains_inv_step tasks i step rest w :
  chains_inv E temp in_ttc data members outs w0 tasks w →
  tasks !! i = Some (step :: rest) →
  ∃ w', step w = (Ok tt, w')
        ∧ chains_inv E temp in_ttc data members outs w0
            (<[i := rest]> tasks) w'.
Proof.
  intros (st & -> & Hin & Hmem & Hframe) Hi.
  apply chain_tasks_lookup in Hi as [Hlt Hi].
  destruct (lookup_lt_is_Some_2 members i Hlt) as [m Hm].
  destruct (Forall2_lookup_l _ _ _ _ _ Houts Hm)
    as (g & Hg & patched & f & Hpatch & Hfont & Hsub).
  pose proof (Hmem i m _ Hm Hg) as Hstate.
  assert (Hothers : ∀ p d files files' j mj gj,
    saved files files' p d →
    (∃ dir, dir ∈ stage_dirs ∧ p = slot temp in_ttc dir i) →
    j ≠ i →
    member_state E temp in_ttc mj gj (st j) j files →
    member_state E temp in_ttc mj gj (st j) j files').
  { intros p d files files' j mj gj Hs (dir & _ & ->) Hji.
    apply (member_state_saved _ _ _ _ _ _ _ _ _ _ _ Hs).
    intros dir' _. apply slot_unrelated. congruence. }
  destruct (st i) as [|[|k]] eqn:Hst; simpl in Hi.
  - (* the member is unpacked *)
    injection Hi as -> ->. destruct Hstate as (Hw1 & Hw2 & Hw3).
    pose proof Hw1 as Hw1'.
    apply writable_inv in Hw1' as (Hnf & Hnd & _).
    destruct (unpack_ttc_worker_run E in_ttc (path_join temp "input_ttf")
                data members Hread i m w Hm Hin) as (m2 & Hrun & Hs).
    { rewrite <- (member_path_parent _ in_ttc i).
      fold (member_path (path_join temp "input_ttf") in_ttc i).
      by rewrite slot_input. }
    { by rewrite slot_input. }
    rewrite slot_input in Hs.
    eexists. split; [exact Hrun|].
    exists (λ j, if decide (j = i) then S (st i) else st j).
    split_and!; simpl.
    + rewrite <- chain_tasks_insert by done. by rewrite Hst.
    + apply (saved_other_file _ _ _ _ in_ttc Hs); [|done].
      apply slot_not_source.
    + intros j mj gj Hmj Hgj. case_decide as Hji.
      * subst j. rewrite Hst. simpl.
        assert (mj = m) as -> by congruence.
        split_and!.
        -- eapply saved_lookup; [|done]. unfold slot. by destruct temp.
        -- eapply saved_writable; [done| |done].
           apply slot_unrelated. congruence.
        -- eapply saved_writable; [done| |done].
           apply slot_unrelated. congruence.
      * eapply Hothers; [done| |done|by apply Hmem].
        exists "input_ttf". split; [apply stage_dir_elem; auto|done].
    + etrans; [exact Hframe|].
      eapply (saved_confined _ w (World m2 _)); [exact Hs|].
      exists i, "input_ttf". split_and!; [done|apply stage_dir_elem; auto|done].
  - (* the member is transformed *)
    injection Hi as -> ->. destruct Hstate as (Hfile & Hw2 & Hw3).
    destruct (process_ttf_worker_run E
                (slot temp in_ttc "input_ttf" i)
                (slot temp in_ttc "processed_ttf" i) temp w
                (write_font E m) patched f g Hfile Hpatch Hfont)
      as (m1 & m2 & evs & Hs1 & Hs2 & Hrun); [..|done|].
    { by rewrite slot_chws. }
    { done. }
    { rewrite slot_chws. apply slot_unrelated. congruence. }
    rewrite slot_chws in Hs1.
    eexists. split.
    { unfold process_ttf. rewrite slot_processed.
      fold (member_path (path_join temp "input_ttf") in_ttc i).
      rewrite slot_input. exact Hrun. }
    exists (λ j, if decide (j = i) then S (st i) else st j).
    split_and!; simpl.
    + rewrite <- chain_tasks_insert by done. by rewrite Hst.
    + apply (saved_other_file _ _ _ _ in_ttc Hs2); [apply slot_not_source|].
      apply (saved_other_file _ _ _ _ in_ttc Hs1); [apply slot_not_source|].
      done.
    + intros j mj gj Hmj Hgj. case_decide as Hji.
      * subst j. rewrite Hst. simpl.
        assert (gj = g) as -> by congruence.
        eapply saved_lookup; [|done]. unfold slot. by destruct temp.
      * eapply Hothers; [exact Hs2| |done|].
        { exists "processed_ttf". split; [apply stage_dir_elem; auto|done]. }
        eapply Hothers; [exact Hs1| |done|by apply Hmem].
        exists "intermediate_chws". split; [apply stage_dir_elem; auto|done].
    + etrans; [exact Hframe|].
      etrans.
      * eapply (saved_confined _ w (World m1 (trace w))); [exact Hs1|].
        exists i, "intermediate_chws".
        split_and!; [done|apply stage_dir_elem; auto|done].
      * eapply (saved_confined _ (World m1 (trace w)) (World m2 _));
          [exact Hs2|].
        exists i, "processed_ttf".
        split_and!; [done|apply stage_dir_elem; auto|done].
  - by rewrite drop_nil in Hi.
Qed.

End Chains.

Lemma pack_ttc_saved (E : Externals) ttfs fonts out_ttc w :
  Forall2 (λ p f, ∃ d, lookup_node (fs w) p = Some (File d)
                       ∧ read_font E d = Some f) ttfs fonts →
  writable (fs w) out_ttc = true →
  ∃ m2, pack_ttc E ttfs out_ttc w
        = (Ok tt, World m2 (trace w ++ [Print (TTC out_ttc)]))
        ∧ saved (fs w) m2 out_ttc (write_ttc E fonts).
Proof.
  intros Hfonts Hw. unfold pack_ttc, print.
  rewrite (bind_ok _ _ _ _ _ (emit_run _ _)).
  erewrite bind_ok; [|by apply load_fonts_run].
  apply (save_ok (World (fs w) (trace w ++ [Print (TTC out_ttc)]))).
  exact Hw.
Qed.

(** what a call of [process_ttc] does when every member can be
    transformed, under any schedule of the member chains *)
Lemma process_ttc_run (E : Externals) sched in_ttc out_ttc temp w
    data members outs :
  lookup_node (fs w) in_ttc = Some (File data) →
  read_ttc E data = Some members →
  Forall2 (transforms_to E) members outs →
  (∀ g, g ∈ outs → read_font E (write_font E g) = Some g) →
  (∀ i dir, (i < length members)%nat → dir ∈ stage_dirs →
     writable (fs w) (slot temp in_ttc dir i) = true) →
  writable (fs w) out_ttc = true →
  (∀ i dir, (i < length members)%nat → dir ∈ stage_dirs →
     unrelated (slot temp in_ttc dir i) out_ttc) →
  ∃ w1 m2,
    process_ttc E sched in_ttc out_ttc temp w
    = (Ok tt, World m2 (trace w1 ++ [Print (TTC out_ttc)]))
    ∧ confined (member_slots temp in_ttc (length members)) w w1
    ∧ saved (fs w1) m2 out_ttc (write_ttc E outs).
Proof.
  intros Hin Hread Houts Hround Hw Hwout Hun.
  unfold process_ttc, load_ttc. rewrite bind_assoc.
  erewrite bind_ok; [|by apply read_file_ok]. rewrite Hread.
  rewrite (bind_ok (ret _) _ _ _ _ eq_refl).
  destruct (gather_inv (chains_inv E temp in_ttc data members outs w)
              (chains_inv_step E temp in_ttc data members outs w
                 Hread Houts)
              sched
              (chain_tasks E temp in_ttc (length members) (λ _, 0%nat)) w)
    as (w1 & tasks' & Hrun & (st & -> & Hin1 & Hmem & Hframe) & _ & Hall).
  { exists (λ _, 0%nat). split_and!; [done|done| |done].
    intros i m g Hm Hg. apply lookup_lt_Some in Hm. simpl.
    split_and!; (apply Hw; [done|apply stage_dir_elem; auto]). }
  erewrite bind_ok; [|exact Hrun].
  destruct (pack_ttc_saved E
              (map (processed_ttf temp in_ttc) (seq 0 (length members)))
              outs out_ttc w1) as (m2 & Hpack & Hout).
  { apply Forall2_same_length_lookup.
    split; [by rewrite length_map, length_seq, (Forall2_length _ _ _ Houts)|].
    intros i p g Hp Hg. exists (write_font E g).
    assert (Hlt : (i < length members)%nat).
    { rewrite (Forall2_length _ _ _ Houts). by eapply lookup_lt_Some. }
    rewrite list_lookup_fmap, lookup_seq_lt in Hp by done.
    injection Hp as <-.
    split; [|apply Hround; by eapply list_elem_of_lookup_2].
    destruct (lookup_lt_is_Some_2 members i Hlt) as [m Hm].
    pose proof (Hmem i m g Hm Hg) as Hstate.
    eapply Forall_lookup_1 with (i := i) in Hall; last first.
    { unfold chain_tasks. rewrite list_lookup_fmap, lookup_seq_lt by done.
      done. }
    simpl in Hall. rewrite slot_processed.
    by destruct (st i) as [|[|k]]. }
  { apply Hframe; [|done]. intros p (i & dir & Hi & Hdir & ->).
    by apply Hun. }
  by exists w1, m2.
Qed.

(** [process_ttc] on a collection whose members can all be transformed
    (the patch tool accepts each, and each one with variation axes has
    the two tables the worker touches and is accepted by the instancer).
    When the staging files of the members and the destination can be
    written, the call returns under every interleaving of the member
    chains, and the destination then holds the collection of the
    transformed members, member [i] of the input transformed as member
    [i] of the output; its [TTC] line is the last thing it prints. *)
Theorem process_ttc_builds_collection
    (E : Externals) (sched : list nat) (in_ttc out_ttc temp : path)
    (w : world) (data : bytes) (members outs : list font) :
  lookup_node (fs w) in_ttc = Some (File data) →
  read_ttc E data = Some members →
  Forall2 (transforms_to E) members outs →
  (∀ g, g ∈ outs → read_font E (write_font E g) = Some g) →
  (∀ i dir, (i < length members)%nat → dir ∈ stage_dirs →
     writable (fs w) (slot temp in_ttc dir i) = true) →
  writable (fs w) out_ttc = true →
  (∀ i dir, (i < length members)%nat → dir ∈ stage_dirs →
     unrelated (slot temp in_ttc dir i) out_ttc) →
  ∃ w',
    process_ttc E sched in_ttc out_ttc temp w = (Ok tt, w')
    ∧ lookup_node (fs w') out_ttc = Some (File (write_ttc E outs))
    ∧ last (trace w') = Some (Print (TTC out_ttc)).
Proof.
  intros Hin Hread Houts Hround Hw Hwout Hun.
  destruct (process_ttc_run E sched in_ttc out_ttc temp w data members outs
              Hin Hread Houts Hround Hw Hwout Hun)
    as (w1 & m2 & Hrun & _ & Hs).
  eexists. split_and!; [exact Hrun| |].
  - simpl. eapply saved_lookup; [|done]. by eapply writable_nonempty.
  - simpl. apply last_snoc.
Qed.

Lemma process_ttc_builds_collection_witness :
  ∃ w',
    process_ttc Ref.externals [1; 0; 1]%nat ["in.ttc"] ["out.ttc"] ["temp"]
      (Ref.world_with_ttc ["in.ttc"] [Ref.font_A; Ref.font_V])
    = (Ok tt, w')
    ∧ lookup_node (fs w') ["out.ttc"]
      = Some (File (write_ttc Ref.externals
                      [Ref.font_A_subset; Ref.font_V_instance]))
    ∧ last (trace w') = Some (Print (TTC ["out.ttc"])).
Proof.
  apply (process_ttc_builds_collection Ref.externals [1; 0; 1]%nat
           ["in.ttc"] ["out.ttc"] ["temp"]
           (Ref.world_with_ttc ["in.ttc"] [Ref.font_A; Ref.font_V])
           (Ref.write_ttc [Ref.font_A; Ref.font_V])
           [Ref.font_A; Ref.font_V]
           [Ref.font_A_subset; Ref.font_V_instance]).
  - reflexivity.
  - reflexivity.
  - repeat constructor.
    + exists (Ref.write_font Ref.font_A), Ref.font_A.
      split_and!; [reflexivity..|]. vm_compute. reflexivity.
    + exists (Ref.write_font Ref.font_V), Ref.font_V.
      split_and!; [reflexivity..|].
      exists [("A", 880)], (VVARTable (Some [0]) (Some [1])).
      split_and!; [reflexivity..|]. vm_compute. reflexivity.
  - intros g Hg.
    apply elem_of_cons in Hg as [->|Hg]; [reflexivity|].
    apply elem_of_cons in Hg as [->|Hg]; [reflexivity|].
    by apply elem_of_nil in Hg.
  - intros i dir Hi Hdir. apply stage_dir_elem in Hdir.
    destruct i as [|[|i]]; [| |simpl in Hi; lia];
      destruct Hdir as [->|[->| ->]]; reflexivity.
  - reflexivity.
  - intros i dir Hi Hdir. apply stage_dir_elem in Hdir.
    destruct i as [|[|i]]; [| |simpl in Hi; lia];
      destruct Hdir as [->|[->| ->]];
      (split; apply (bool_decide_unpack _); by vm_compute).
Defined.


(** ** Chains that write apart from each other *)

Lemma drop_cons_lookup {A} (l : list A) n x rest :
  drop n l = x :: rest → l !! n = Some x ∧ rest = drop (S n) l.
Proof.
  revert l. induction n as [|n IH]; intros [|a l]; simpl; try done.
  - by intros [= -> ->].
  - intros H. by apply IH in H.
Qed.

Lemma chains_left_lookup chains st i t :
  chains_left chains st !! i = Some t →
  ∃ c, chains !! i = Some c ∧ t = drop (st i) c.
Proof.
  unfold chains_left. rewrite list_lookup_imap.
  destruct (chains !! i) as [c|]; simpl; [|done].
  intros [= <-]. by exists c.
Qed.

Lemma chains_left_insert chains st i c :
  chains !! i = Some c →
  <[i := drop (S (st i)) c]> (chains_left chains st)
  = chains_left chains (λ j, if decide (j = i) then S (st i) else st j).
Proof.
  intros Hc. apply list_eq. intros j. unfold chains_left.
  destruct (decide (j = i)) as [->|Hne].
  - rewrite list_lookup_insert_eq
      by (rewrite length_imap; by eapply lookup_lt_Some).
    rewrite list_lookup_imap, Hc. simpl. by rewrite decide_True.
  - rewrite list_lookup_insert_ne by done. rewrite !list_lookup_imap.
    destruct (chains !! j); simpl; [|done]. by rewrite decide_False.
Qed.

Lemma chains_left_0 chains : chains_left chains (λ _, 0%nat) = chains.
Proof.
  apply list_eq. intros i. unfold chains_left. rewrite list_lookup_imap.
  by destruct (chains !! i).
Qed.

Section GatherApart.

(** chain [i] writes within [F i] only; what it needs, [P i k] after [k]
    of its steps, is untouched by the other chains *)
Context (chains : list (list (M unit))) (F : nat → path → Prop)
        (P : nat → nat → world → Prop) (G : world → Prop).

Hypothesis P_stable : ∀ i j ci cj k w w',
  i ≠ j → chains !! i = Some ci → chains !! j = Some cj →
  confined (F j) w w' → keeps_kinds w w' → P i k w → P i k w'.

Hypothesis P_step : ∀ i c k step w,
  chains !! i = Some c → c !! k = Some step → G w → P i k w →
  ∃ w', step w = (Ok tt, w') ∧ P i (S k) w'
        ∧ confined (F i) w w' ∧ keeps_kinds w w' ∧ G w'.

Lemma apart_inv_step tasks i step rest w :
  apart_inv chains P G tasks w →
  tasks !! i = Some (step :: rest) →
  ∃ w', step w = (Ok tt, w')
        ∧ apart_inv chains P G (<[i := rest]> tasks) w'.
Proof.
  intros (st & -> & HG & HP) Hi.
  apply chains_left_lookup in Hi as (c & Hc & Hdrop). symmetry in Hdrop.
  apply drop_cons_lookup in Hdrop as [Hstep ->].
  destruct (P_step i c (st i) step w Hc Hstep HG (HP i c Hc))
    as (w' & Hrun & HP' & Hconf & Hkeep & HG').
  exists w'. split; [done|].
  exists (λ j, if decide (j = i) then S (st i) else st j).
  split_and!; [by rewrite chains_left_insert|done|].
  intros j cj Hcj. case_decide as Hji.
  - by subst j.
  - eapply P_stable; [exact Hji|exact Hcj|exact Hc|done|done|by eapply HP].
Qed.

Lemma gather_apart sched w :
  G w → (∀ i c, chains !! i = Some c → P i 0%nat w) →
  ∃ w' st, gather sched chains w = (Ok tt, w') ∧ G w'
           ∧ ∀ i c, chains !! i = Some c →
               (length c ≤ st i)%nat ∧ P i (st i) w'.
Proof.
  intros HG HP.
  destruct (gather_inv (apart_inv chains P G) apart_inv_step sched chains w)
    as (w' & tasks' & Hrun & (st & -> & HG' & HP') & _ & Hall).
  { exists (λ _, 0%nat). by rewrite chains_left_0. }
  exists w', st. split_and!; [done..|].
  intros i c Hc. split; [|by eapply HP'].
  eapply Forall_lookup_1 with (i := i) in Hall; last first.
  { unfold chains_left. by rewrite list_lookup_imap, Hc. }
  simpl in Hall. apply (f_equal length) in Hall.
  rewrite length_drop in Hall. simpl in Hall. lia.
Qed.

End GatherApart.

(** ** The files of an asset *)

Lemma unrelated_same_length (p q : path) :
  length p = length q → p ≠ q → unrelated p q.
Proof.
  intros Hlen Hne. split; intros H%prefix_length_eq; try lia; congruence.
Qed.

Lemma unrelated_heads (x y : string) (p q : path) :
  x ≠ y → unrelated (x :: p) (y :: q).
Proof. intros Hne. split; intros [k Hk]; by simplify_eq/=. Qed.

Lemma download_file_keeps_kinds (E : Externals) url p gated :
  preserves keeps_kinds (download_file E url p gated).
Proof.
  apply (preserves_download_file (λ _, True));
    first [ apply _ | apply keeps_kinds_dirs | apply keeps_kinds_file
          | apply keeps_kinds_emit | done ].
Qed.

Lemma process_font_keeps_kinds (E : Externals) sched in_font out_font temp :
  preserves keeps_kinds (process_font E sched in_font out_font temp).
Proof.
  apply (preserves_process_font (λ _, True));
    first [ apply _ | apply keeps_kinds_dirs | apply keeps_kinds_file
          | apply keeps_kinds_emit | done ].
Qed.

Section AssetShapes.

Context (E : Externals) (u : string).

Hypothesis Hne : base_file_name E u ≠ "".
Hypothesis Hdot : base_file_name E u ≠ ".".

Lemma input_file_shape :
  input_file E u = ["temp"; "input"; base_file_name E u].
Proof.
  unfold input_file. rewrite (path_join_name _ _ Hne Hdot).
  by rewrite path_join_name.
Qed.

Lemma output_file_shape :
  output_file E u = ["system"; "fonts"; base_file_name E u].
Proof. unfold output_file. by rewrite (path_join_name _ _ Hne Hdot). Qed.

Lemma chws_file_shape :
  chws_output_of temp_dir (input_file E u)
  = ["temp"; "intermediate_chws"; base_file_name E u].
Proof.
  rewrite input_file_shape. unfold chws_output_of, path_name. simpl.
  rewrite (path_join_name _ _ Hne Hdot). by rewrite path_join_name.
Qed.

Lemma asset_files_shape p :
  asset_files E u p →
  ∃ a b c, p = [a; b; c] ∧ (a = "temp" ∨ a = "system").
Proof.
  intros [->|[->|[->|(dir & k & _ & ->)]]].
  - rewrite input_file_shape. eauto 10.
  - rewrite output_file_shape. eauto 10.
  - rewrite chws_file_shape. eauto 10.
  - unfold slot, temp_dir. simpl. eauto 10.
Qed.

(** what [process_font] does to an asset that can be transformed *)
Lemma process_font_run sched w data result :
  lookup_node (fs w) (input_file E u) = Some (File data) →
  font_job E data result →
  (∀ p, asset_files E u p → p ≠ input_file E u →
        writable (fs w) p = true) →
  ∃ w',
    process_font E sched (input_file E u) (output_file E u) temp_dir w
    = (Ok tt, w')
    ∧ lookup_node (fs w') (output_file E u) = Some (File result)
    ∧ confined (asset_files E u) w w'.
Proof.
  intros Hin Hjob Hw.
  assert (Hwout : writable (fs w) (output_file E u) = true).
  { apply Hw; [right; by left|].
    by rewrite input_file_shape, output_file_shape. }
  unfold process_font, is_ttc.
  erewrite (bind_ok (bind (read_file _) _)); last first.
  { erewrite bind_ok; [done|]. by apply read_file_ok. }
  unfold font_job in Hjob. destruct (bool_decide (take 4 data = ttcf)).
  - destruct Hjob as (members & outs & Hread & Houts & Hround & ->).
    destruct (process_ttc_run E sched (input_file E u) (output_file E u)
                temp_dir w data members outs Hin Hread Houts Hround)
      as (w1 & m2 & Hrun & Hconf & Hs).
    { intros i dir _ Hdir. apply Hw; [do 3 right; by exists dir, i|].
      apply not_eq_sym, slot_not_source. }
    { done. }
    { intros i dir _ _. rewrite output_file_shape. unfold slot, temp_dir.
      simpl. by apply unrelated_heads. }
    eexists. split_and!; [exact Hrun| |].
    + simpl. eapply saved_lookup; [|done]. by rewrite output_file_shape.
    + etrans.
      * eapply confined_mono; [|exact Hconf].
        intros p (i & dir & _ & Hdir & ->). do 3 right. by exists dir, i.
      * eapply (saved_confined _ w1 (World m2 _)); [exact Hs|].
        right. by left.
  - destruct Hjob as (patched & f & g & Hpatch & Hfont & Hsub & ->).
    destruct (process_ttf_worker_run E (input_file E u) (output_file E u)
                temp_dir w data patched f g Hin Hpatch Hfont)
      as (m1 & m2 & evs & Hs1 & Hs2 & Hrun); [..|done|].
    { apply Hw; [right; right; by left|].
      by rewrite chws_file_shape, input_file_shape. }
    { done. }
    { rewrite chws_file_shape, output_file_shape. by apply unrelated_heads. }
    eexists. split_and!; [exact Hrun| |].
    + simpl. eapply saved_lookup; [|done]. by rewrite output_file_shape.
    + etrans.
      * eapply (saved_confined _ w (World m1 (trace w))); [exact Hs1|].
        right. right. by left.
      * eapply (saved_confined _ (World m1 (trace w)) (World m2 _));
          [exact Hs2|].
        right. by left.
Qed.

End AssetShapes.

(** ** The chains of a run *)

Lemma main_futures_chains (E : Externals) sch args_url :
  main_futures E sch args_url
  = asset_chains E sch (select_urls args_url).1 (select_urls args_url).2.
Proof.
  unfold main_futures, asset_chains. by destruct (select_urls args_url).
Qed.

Lemma select_urls_nonempty args_url : (select_urls args_url).1 ≠ [].
Proof. unfold select_urls. destruct args_url; [case_decide|]; done. Qed.

Section MainChains.

Context (E : Externals) (sch : schedules) (urls : list string)
        (build_module : bool) (body result : string → bytes)
        (script : bytes).

Hypothesis H_assets : ∀ u, u ∈ urls →
  base_file_name E u ≠ "" ∧ base_file_name E u ≠ "."
  ∧ served E u (body u) ∧ font_job E (body u) (result u).

Hypothesis H_apart : ∀ i j u u',
  i ≠ j → urls !! i = Some u → urls !! j = Some u' →
  ∀ p q, asset_files E u p → asset_files E u' q → p ≠ q.

Hypothesis H_script : build_module = true → served E installer_url script.

Lemma asset_chains_lookup i c :
  asset_chains E sch urls build_module !! i = Some c →
  (∃ u, urls !! i = Some u ∧ c = download_and_process_file E sch u)
  ∨ (urls !! i = None ∧ i = length urls ∧ build_module = true
     ∧ c = download_installer E).
Proof.
  unfold asset_chains. intros Hi.
  apply lookup_app_Some in Hi as [Hi|[Hlen Hi]].
  - left. rewrite list_lookup_fmap in Hi.
    destruct (urls !! i) as [u|]; simplify_eq/=. eauto.
  - right. rewrite length_map in Hlen, Hi.
    destruct build_module; [|done].
    destruct (i - length urls)%nat as [|n] eqn:Hn; simplify_eq/=.
    split_and!; [apply lookup_ge_None_2; lia|lia|done..].
Qed.

Lemma main_files_apart i j ci cj p q :
  i ≠ j →
  asset_chains E sch urls build_module !! i = Some ci →
  asset_chains E sch urls build_module !! j = Some cj →
  main_files E urls i p → main_files E urls j q → unrelated p q.
Proof.
  intros Hij Hi Hj. unfold main_files.
  destruct (asset_chains_lookup i ci Hi) as [(u & Hu & _)|(Hu & Hil & _)];
    destruct (asset_chains_lookup j cj Hj) as [(v & Hv & _)|(Hv & Hjl & _)];
    rewrite Hu, Hv; [| | |lia].
  - intros Hp Hq.
    destruct (H_assets u) as (Hne & Hdot & _);
      [by eapply list_elem_of_lookup_2|].
    destruct (H_assets v) as (Hne' & Hdot' & _);
      [by eapply list_elem_of_lookup_2|].
    destruct (asset_files_shape E u Hne Hdot p Hp) as (a & b & c & -> & _).
    destruct (asset_files_shape E v Hne' Hdot' q Hq) as (a' & b' & c' & -> & _).
    apply unrelated_same_length; [done|].
    by apply (H_apart i j u v).
  - intros Hp ->.
    destruct (H_assets u) as (Hne & Hdot & _);
      [by eapply list_elem_of_lookup_2|].
    destruct (asset_files_shape E u Hne Hdot p Hp)
      as (a & b & c & -> & [->| ->]); by apply unrelated_heads.
  - intros -> Hq.
    destruct (H_assets v) as (Hne & Hdot & _);
      [by eapply list_elem_of_lookup_2|].
    destruct (asset_files_shape E v Hne Hdot q Hq)
      as (a & b & c & -> & [->| ->]); by apply unrelated_heads.
Qed.

Lemma main_state_stable i j ci cj k w w' :
  i ≠ j →
  asset_chains E sch urls build_module !! i = Some ci →
  asset_chains E sch urls build_module !! j = Some cj →
  confined (main_files E urls j) w w' → keeps_kinds w w' →
  main_state E urls body result script i k w →
  main_state E urls body result script i k w'.
Proof.
  intros Hij Hi Hj Hconf Hkeep.
  assert (Hfree : ∀ q, main_files E urls i q →
    (writable (fs w) q = true → writable (fs w') q = true)
    ∧ (∀ d, lookup_node (fs w) q = Some (File d) →
            lookup_node (fs w') q = Some (File d))).
  { intros q Hq. apply Hconf. intros p Hp.
    by apply (main_files_apart j i cj ci). }
  assert (Hdir : is_dir (fs w) temp_dir = true →
                 is_dir (fs w') temp_dir = true) by apply Hkeep.
  unfold main_state, main_files in *.
  destruct (urls !! i) as [u|]; destruct k as [|[|k]].
  - intros Hw p Hp. by apply (Hfree p), Hw.
  - intros (Hin & Hd & Hw). split_and!; [|by auto|].
    + apply (Hfree (input_file E u)); [by left|done].
    + intros p Hp Hpne. by apply (Hfree p), Hw.
  - intros (Hout & Hd). split; [|by auto].
    apply (Hfree (output_file E u)); [right; by left|done].
  - by apply Hfree.
  - by apply Hfree.
  - by apply Hfree.
Qed.

Lemma main_state_step i c k step w :
  asset_chains E sch urls build_module !! i = Some c →
  c !! k = Some step →
  staging_ready w →
  main_state E urls body result script i k w →
  ∃ w', step w = (Ok tt, w')
        ∧ main_state E urls body result script i (S k) w'
        ∧ confined (main_files E urls i) w w'
        ∧ keeps_kinds w w'
        ∧ staging_ready w'.
Proof.
  intros Hc Hstep HG HP.
  destruct (asset_chains_lookup i c Hc) as [(u & Hu & ->)|(Hu & -> & Hb & ->)].
  - destruct (H_assets u)
      as (Hne & Hdot & (resp & Hresp & Hstatus & Hstream & Hbody) & Hjob);
      [by eapply list_elem_of_lookup_2|].
    unfold main_state, main_files in *. rewrite Hu in *.
    destruct k as [|[|k]]; [| |done].
    + (* the download *)
      injection Hstep as <-.
      destruct (download_file_success E u (input_file E u) true w resp
                  Hresp Hstatus Hstream) as (m & Hdl & Hs).
      { apply HP. by left. }
      pose proof (download_file_keeps_kinds E u _ _ _ _ _ Hdl) as Hkeep.
      assert (Hdir : is_dir m temp_dir = true).
      { destruct HG as [Ht|Hd]; [|by apply Hkeep].
        apply (download_file_makes_ancestors E u (input_file E u) true w _
                 Ht Hdl).
        rewrite (input_file_shape E u Hne Hdot). by exists ["input"]. }
      eexists. split; [unfold bind; by rewrite Hdl|].
      split_and!; [|exact Hdir| | |exact Hkeep|by right].
      * simpl. rewrite <- Hbody. eapply saved_lookup; [|done].
        by rewrite (input_file_shape E u Hne Hdot).
      * intros p Hp Hpne. simpl.
        eapply saved_writable; [exact Hs| |by apply HP].
        destruct (asset_files_shape E u Hne Hdot p Hp) as (a & b & c & -> & _).
        rewrite (input_file_shape E u Hne Hdot) in Hpne |- *.
        apply unrelated_same_length; [done|]. by apply not_eq_sym.
      * eapply (saved_confined _ w (World m _)); [exact Hs|]. by left.
    + (* the processing *)
      injection Hstep as <-. destruct HP as (Hin & Hd & Hw).
      destruct (process_font_run E u Hne Hdot (font_sched sch u) w _ _
                  Hin Hjob Hw) as (w' & Hrun & Hout & Hconf).
      pose proof (process_font_keeps_kinds E _ _ _ _ _ _ _ Hrun) as Hkeep.
      exists w'. split; [exact Hrun|].
      split_and!; [done|by apply Hkeep|done|done|right; by apply Hkeep].
  - (* the installer script *)
    destruct (H_script Hb) as (resp & Hresp & Hstatus & Hstream & Hbody).
    unfold main_state, main_files in *. rewrite Hu in *.
    destruct k as [|k]; [|done].
    injection Hstep as <-.
    destruct (download_file_success E installer_url installer_path false w
                resp Hresp Hstatus Hstream HP) as (m & Hdl & Hs).
    pose proof (download_file_keeps_kinds E _ _ _ _ _ _ Hdl) as Hkeep.
    eexists. split; [unfold bind; by rewrite Hdl|].
    split_and!; [| |exact Hkeep|].
    + cbn [fs]. rewrite <- Hbody. by apply (saved_lookup (fs w) m).
    + by eapply (saved_confined _ w (World m _)).
    + destruct HG as [Ht|Hd]; [left|right; by apply Hkeep].
      by apply (download_file_tree E _ _ _ _ _ _ Hdl).
Qed.

(** chains that can all be run to their end are, in any order *)
Lemma asset_chains_run w :
  tree (fs w) →
  (∀ u p, u ∈ urls → asset_files E u p → writable (fs w) p = true) →
  (build_module = true → writable (fs w) installer_path = true) →
  ∃ w1, gather (main_sched sch) (asset_chains E sch urls build_module) w
        = (Ok tt, w1)
        ∧ (∀ u, u ∈ urls →
             lookup_node (fs w1) (output_file E u) = Some (File (result u))
             ∧ is_dir (fs w1) temp_dir = true)
        ∧ (build_module = true →
             lookup_node (fs w1) installer_path = Some (File script)).
Proof.
  intros Ht Hw Hwi.
  destruct (gather_apart (asset_chains E sch urls build_module)
              (main_files E urls)
              (main_state E urls body result script) staging_ready
              main_state_stable main_state_step (main_sched sch) w)
    as (w1 & st & Hrun & _ & Hfinal).
  { by left. }
  { intros i c Hc. unfold main_state.
    destruct (asset_chains_lookup i c Hc) as [(u & Hu & _)|(Hu & _ & Hb & _)];
      rewrite Hu; [|by apply Hwi].
    intros p Hp. apply (Hw u); [by eapply list_elem_of_lookup_2|done]. }
  exists w1. split_and!; [done| |].
  - intros u Hin. apply list_elem_of_lookup_1 in Hin as [i Hi].
    destruct (Hfinal i (download_and_process_file E sch u)) as [Hlen HP].
    { unfold asset_chains. apply lookup_app_l_Some.
      by rewrite list_lookup_fmap, Hi. }
    unfold main_state in HP. rewrite Hi in HP. simpl in Hlen.
    destruct (st i) as [|[|k]]; [lia..|done].
  - intros Hb.
    destruct (Hfinal (length urls) (download_installer E)) as [Hlen HP].
    { unfold asset_chains. rewrite Hb.
      rewrite lookup_app_r by (by rewrite length_map).
      by rewrite length_map, Nat.sub_diag. }
    unfold main_state in HP.
    rewrite (lookup_ge_None_2 urls (length urls)) in HP by lia.
    simpl in Hlen. destruct (st (length urls)); [lia|done].
Qed.

End MainChains.

(** ** A whole run *)

Lemma writable_empty (p : path) :
  p ≠ [] → plain p = true → writable ∅ p = true.
Proof.
  intros Hne Hpl. unfold writable. rewrite Hpl, andb_true_r.
  apply andb_true_iff. split.
  - apply no_file_above_spec. intros q _. unfold is_file.
    destruct q; [done|]. simpl. by rewrite lookup_empty.
  - unfold is_dir. destruct p; [done|]. simpl. by rewrite lookup_empty.
Qed.

Lemma asset_files_plain (E : Externals) u p :
  base_file_name E u ≠ "" → base_file_name E u ≠ "." →
  base_file_name E u ≠ ".." →
  asset_files E u p → plain p = true.
Proof.
  intros Hne Hdot Hdd [->|[->|[->|(dir & k & Hdir & ->)]]].
  - rewrite (input_file_shape E u Hne Hdot). simpl.
    by rewrite bool_decide_false.
  - rewrite (output_file_shape E u Hne Hdot). simpl.
    by rewrite bool_decide_false.
  - rewrite (chws_file_shape E u Hne Hdot). simpl.
    by rewrite bool_decide_false.
  - unfold slot, temp_dir. simpl.
    rewrite (bool_decide_false (member_name _ _ = ".."))
      by apply member_name_plain.
    apply stage_dir_elem in Hdir as [->|[->| ->]]; done.
Qed.

Lemma font_job_collection (E : Externals) data members outs :
  take 4 data = ttcf →
  read_ttc E data = Some members →
  Forall2 (transforms_to E) members outs →
  (∀ g, g ∈ outs → read_font E (write_font E g) = Some g) →
  font_job E data (write_ttc E outs).
Proof.
  intros Hmagic Hread Houts Hround. unfold font_job.
  rewrite bool_decide_true by done. by exists members, outs.
Qed.

(** A whole run, by default or for one URL.  When the file system is a
    tree, every asset of the run is served with status 200 to the end of
    its stream and can be transformed (a collection member by member, one
    font as a whole), the files of different assets are different files
    and all can be written, and (in a default run) the installer script
    is served and can be written, and no URL path ends in [..], then
    [main] returns whatever the schedule: in whichever order the asset
    chains take their turns, a download and the processing of one asset
    being one turn each, and in whichever order the member chains of each
    collection take theirs, an unpack and a transform being one turn
    each.  Each asset's result is under [system/fonts], the installer
    script is in place in a default run, and no path under the staging
    root is left.  Orders in which a turn of one asset falls between two
    writes of a download or between two member turns of another asset
    are not covered. *)
Theorem main_builds_all_assets
    (E : Externals) (sch : schedules) (args_url : option string) (w : world)
    (body result : string → bytes) (script : bytes) :
  tree (fs w) →
  (∀ u, u ∈ (select_urls args_url).1 →
     base_file_name E u ≠ "" ∧ base_file_name E u ≠ "."
     ∧ served E u (body u) ∧ font_job E (body u) (result u)) →
  (∀ u, u ∈ (select_urls args_url).1 → base_file_name E u ≠ "..") →
  (∀ u p, u ∈ (select_urls args_url).1 → asset_files E u p →
     writable (fs w) p = true) →
  (∀ i j u u', i ≠ j →
     (select_urls args_url).1 !! i = Some u →
     (select_urls args_url).1 !! j = Some u' →
     ∀ p q, asset_files E u p → asset_files E u' q → p ≠ q) →
  ((select_urls args_url).2 = true →
     served E installer_url script
     ∧ writable (fs w) installer_path = true) →
  ∃ w',
    main E sch args_url w = (Ok tt, w')
    ∧ (∀ u, u ∈ (select_urls args_url).1 →
         lookup_node (fs w') (output_file E u) = Some (File (result u)))
    ∧ ((select_urls args_url).2 = true →
         lookup_node (fs w') installer_path = Some (File script))
    ∧ (∀ p, temp_dir `prefix_of` p → fs w' !! p = None).
Proof.
  intros Ht Hassets _ Hw Hapart Hinst.
  pose proof (select_urls_nonempty args_url) as Hurls.
  destruct (asset_chains_run E sch (select_urls args_url).1
              (select_urls args_url).2 body result script
              Hassets Hapart (λ Hb, proj1 (Hinst Hb)) w Ht Hw
              (λ Hb, proj2 (Hinst Hb)))
    as (w1 & Hrun & Hout & Hscript).
  assert (Hdir : fs w1 !! temp_dir = Some Dir).
  { destruct ((select_urls args_url).1) as [|u0 rest]; [done|].
    destruct (Hout u0) as [_ Hd]; [by left|].
    unfold is_dir in Hd. simpl in Hd.
    by destruct (fs w1 !! temp_dir) as [[|?]|]. }
  eexists. split_and!.
  - unfold main, run_chains. rewrite main_futures_chains.
    rewrite (bind_ok _ _ _ _ _ Hrun).
    rewrite (bind_ok _ _ _ _ _ (emit_run _ _)).
    unfold rmtree. simpl. rewrite Hdir. reflexivity.
  - intros u Hu. cbn [fs]. rewrite rmtree_outside; [by apply Hout|].
    destruct (Hassets u Hu) as (Hne & Hdot & _).
    rewrite (output_file_shape E u Hne Hdot).
    intros [k Hk]. by simplify_eq/=.
  - intros Hb. cbn [fs]. rewrite rmtree_outside; [by apply Hscript|].
    intros [k Hk]. by simplify_eq/=.
  - intros p Hp. simpl. apply map_lookup_filter_None. right.
    intros x _ Hnot. by apply Hnot.
Qed.

Lemma main_builds_all_assets_witness :
  ∃ w',
    main Mirror.externals Mirror.schedule None Ref.empty_world = (Ok tt, w')
    ∧ lookup_node (fs w') ["system"; "fonts"; "NotoSerifCJK-VF.otf.ttc"]
      = Some (File (Ref.write_ttc [Ref.font_V_instance; Ref.font_A_subset]))
    ∧ lookup_node (fs w') ["system"; "fonts"; "NotoSansCJK-VF.otf.ttc"]
      = Some (File (Ref.write_ttc [Ref.font_B]))
    ∧ lookup_node (fs w') installer_path = Some (File Mirror.script)
    ∧ (∀ p, temp_dir `prefix_of` p → fs w' !! p = None).
Proof.
  assert (Hnames : ∀ u, u ∈ (select_urls None).1 →
            base_file_name Mirror.externals u ≠ ""
            ∧ base_file_name Mirror.externals u ≠ "."
            ∧ base_file_name Mirror.externals u ≠ "..").
  { intros u Hu.
    apply elem_of_cons in Hu as [->|Hu];
      [|apply elem_of_cons in Hu as [->|Hu]; [|by apply elem_of_nil in Hu]];
      split_and!; discriminate. }
  destruct (main_builds_all_assets Mirror.externals Mirror.schedule None
              Ref.empty_world Mirror.body Mirror.result Mirror.script)
    as (w' & Hrun & Hout & Hscript & Htemp).
  - intros p q [x Hx]. simpl in Hx. rewrite lookup_empty in Hx. discriminate.
  - intros u Hu. destruct (Hnames u Hu) as (Hne & Hdot & Hdd).
    split_and!; [done..| |].
    + apply elem_of_cons in Hu as [->|Hu];
        [|apply elem_of_cons in Hu as [->|Hu]; [|by apply elem_of_nil in Hu]];
        eexists; split_and!; reflexivity.
    + apply elem_of_cons in Hu as [->|Hu];
        [|apply elem_of_cons in Hu as [->|Hu]; [|by apply elem_of_nil in Hu]].
      * apply (font_job_collection Mirror.externals _
                 [Ref.font_V; Ref.font_A]
                 [Ref.font_V_instance; Ref.font_A_subset]);
          [reflexivity..| |].
        -- repeat constructor.
           ++ exists (Ref.write_font Ref.font_V), Ref.font_V.
              split_and!; [reflexivity..|].
              exists [("A", 880)], (VVARTable (Some [0]) (Some [1])).
              split_and!; [reflexivity..|]. vm_compute. reflexivity.
           ++ exists (Ref.write_font Ref.font_A), Ref.font_A.
              split_and!; [reflexivity..|]. vm_compute. reflexivity.
        -- intros g Hg.
           apply elem_of_cons in Hg as [->|Hg]; [reflexivity|].
           apply elem_of_cons in Hg as [->|Hg]; [reflexivity|].
           by apply elem_of_nil in Hg.
      * apply (font_job_collection Mirror.externals _
                 [Ref.font_B] [Ref.font_B]); [reflexivity..| |].
        -- repeat constructor.
           exists (Ref.write_font Ref.font_B), Ref.font_B.
           split_and!; [reflexivity..|]. vm_compute. reflexivity.
        -- intros g Hg.
           apply elem_of_cons in Hg as [->|Hg]; [reflexivity|].
           by apply elem_of_nil in Hg.
  - intros u Hu. by destruct (Hnames u Hu) as (_ & _ & Hdd).
  - intros u p Hu Hp. destruct (Hnames u Hu) as (Hne & Hdot & Hdd).
    apply writable_empty.
    + by destruct (asset_files_shape Mirror.externals u Hne Hdot p Hp)
        as (a & b & c & -> & _).
    + by apply (asset_files_plain Mirror.externals u).
  - intros i j u u' Hij Hi Hj p q Hp Hq.
    destruct i as [|[|i]]; destruct j as [|[|j]]; try done;
      injection Hi as <-; injection Hj as <-;
      destruct Hp as [->|[->|[->|(dir & k & _ & ->)]]];
      destruct Hq as [->|[->|[->|(dir' & k' & _ & ->)]]];
      vm_compute; intros [=].
  - intros _. split; [|reflexivity].
    eexists; split_and!; reflexivity.
  - exists w'. split_and!; [exact Hrun| | |by apply Hscript|exact Htemp].
    + apply (Hout Mirror.serif_url). by left.
    + apply (Hout Mirror.sans_url). right. by left.
Defined.

(** ** Teardown of the staging root, in a file system that is a tree *)

Global Instance tree_and_kinds_preorder : PreOrder tree_and_kinds.
Proof.
  split.
  - intros w. split; reflexivity.
  - intros w1 w2 w3 [Ht1 Hk1] [Ht2 Hk2]. split; etrans; eassumption.
Qed.

Lemma tree_and_kinds_main_futures (E : Externals) sch args_url :
  Forall (Forall (preserves tree_and_kinds)) (main_futures E sch args_url).
Proof.
  apply (stepwise_main_futures tree_and_kinds).
  - intros p w r w' Hrun. split.
    + by eapply tree_kept_ensure_parent_dir.
    + eapply (preserves_ensure_parent_dir keeps_kinds keeps_kinds_dirs);
        done.
  - intros p w r w' Hrun. split.
    + by eapply tree_kept_open_wb.
    + by eapply (preserves_open_wb keeps_kinds keeps_kinds_file).
  - intros p chunk w r w' Hrun. split.
    + by eapply tree_kept_write_chunk.
    + by eapply (preserves_write_chunk keeps_kinds keeps_kinds_file).
  - intros ev w r w' Hrun. split.
    + by eapply tree_kept_emit.
    + injection Hrun as _ <-. by apply keeps_kinds_emit.
Qed.

Lemma input_file_below_staging (E : Externals) u :
  temp_dir `prefix_of` input_file E u ∧ input_file E u ≠ temp_dir.
Proof.
  unfold input_file, path_join, temp_dir.
  rewrite (decide_False (P := "input" = "" ∨ "input" = "."))
    by (by intros [|]).
  case_decide; split; try done.
  - by exists ["input"].
  - by exists ["input"; base_file_name E u].
Qed.

Lemma asset_chains_url (E : Externals) sch urls b i u c :
  urls !! i = Some u → asset_chains E sch urls b !! i = Some c →
  c = download_and_process_file E sch u.
Proof.
  unfold asset_chains. intros Hu Hc.
  rewrite lookup_app_l in Hc
    by (rewrite length_map; by eapply lookup_lt_Some).
  rewrite list_lookup_fmap, Hu in Hc. by injection Hc.
Qed.

(** a chain that took its input from the staging directory and ran to
    the end leaves the staging root a directory *)
Lemma process_font_needs_staging (E : Externals) sched u out w w' :
  tree (fs w) →
  process_font E sched (input_file E u) out temp_dir w = (Ok tt, w') →
  is_dir (fs w') temp_dir = true.
Proof.
  intros Ht Hrun.
  apply (process_font_keeps_kinds E _ _ _ _ _ _ _ Hrun).
  unfold process_font, is_ttc in Hrun.
  apply bind_ok_inv in Hrun as (b & w1 & His & _).
  apply bind_ok_inv in His as (data & w2 & Hread & _).
  unfold read_file in Hread.
  destruct (lookup_node (fs w) (input_file E u)) as [[|d]|] eqn:Hin;
    [done| |done].
  destruct (input_file_below_staging E u) as [Hpre Hne].
  apply (Ht (input_file E u)); [|done|by apply not_eq_sym].
  destruct (input_file E u); [done|]. by eexists.
Qed.

(** C1, as the code has it (for a file system that is a tree): when
    every awaited chain has returned, the staging root is a directory, the
    pool is shut down, and then the staging root is removed, once: [main]
    returns, no path under the staging root is left and every other path
    is as the chains left it.  When a chain raises, the exception leaves
    [main] at the [gather]: neither the shutdown nor the removal is
    reached, and every file a chain has staged is still there. *)
Theorem main_tears_down_only_after_success
    (E : Externals) (sch : schedules) (args_url : option string) (w : world) :
  tree (fs w) →
  match run_chains E sch args_url w with
  | (Ok _, w1) =>
      is_dir (fs w1) temp_dir = true
      ∧ ∃ w',
          main E sch args_url w = (Ok tt, w')
          ∧ trace w' = trace w1 ++ [Shutdown; Rmtree temp_dir]
          ∧ teardowns w' = S (teardowns w)
          ∧ (∀ p, temp_dir `prefix_of` p → fs w' !! p = None)
          ∧ (∀ p, ¬ temp_dir `prefix_of` p →
               lookup_node (fs w') p = lookup_node (fs w1) p)
  | (Raise e, w1) =>
      main E sch args_url w = (Raise e, w1)
      ∧ teardowns w1 = teardowns w
      ∧ (Shutdown ∉ drop (length (trace w)) (trace w1))
      ∧ (Rmtree temp_dir ∉ drop (length (trace w)) (trace w1))
      ∧ keeps_kinds w w1
  end.
Proof.
  intros Ht.
  destruct (run_chains E sch args_url w) as [[[]|e] w1] eqn:Hrun.
  - pose proof (run_chains_stage_events E sch args_url _ _ _ Hrun) as Hext.
    apply teardowns_stage_events in Hext.
    assert (Hdir : is_dir (fs w1) temp_dir = true).
    { pose proof (select_urls_nonempty args_url) as Hne.
      unfold run_chains in Hrun.
      pose proof (gather_post tree_and_kinds (λ w, tree (fs w))
                    (λ i w, match (select_urls args_url).1 !! i with
                            | Some _ => is_dir (fs w) temp_dir = true
                            | None => True
                            end)) as Hpost.
      specialize (Hpost ltac:(by intros ? ? [? _])).
      specialize (Hpost ltac:(intros i w2 w3 [_ Hk];
                              destruct (_ !! i); [apply Hk|done])).
      specialize (Hpost (main_sched sch) (main_futures E sch args_url) w w1
                    (tree_and_kinds_main_futures E sch args_url)).
      destruct ((select_urls args_url).1) as [|u0 rest] eqn:Hurls; [done|].
      apply (Hpost) with (i := 0%nat)
                         (steps := download_and_process_file E sch u0);
        [|done|done| |done].
      - intros i steps l Hi Hl w2 w3 Ht2 Hl2.
        rewrite main_futures_chains, Hurls in Hi.
        destruct ((u0 :: rest) !! i) as [u|] eqn:Hu; [|done].
        rewrite (asset_chains_url _ _ _ _ _ _ _ Hu Hi) in Hl.
        simpl in Hl. injection Hl as <-.
        by eapply process_font_needs_staging.
      - by rewrite main_futures_chains, Hurls. }
    split; [done|].
    assert (Hnode : fs w1 !! temp_dir = Some Dir).
    { unfold is_dir in Hdir. simpl in Hdir.
      by destruct (fs w1 !! temp_dir) as [[|?]|]. }
    eexists. split_and!.
    + unfold main. rewrite (bind_ok _ _ _ _ _ Hrun).
      rewrite (bind_ok _ _ _ _ _ (emit_run _ _)).
      unfold rmtree. simpl. rewrite Hnode. reflexivity.
    + simpl. by rewrite <- app_assoc.
    + unfold teardowns in *. simpl.
      rewrite <- app_assoc, !filter_app, !length_app, Hext. simpl. lia.
    + intros p Hp. simpl. apply map_lookup_filter_None. right.
      intros x _ Hnot. by apply Hnot.
    + intros p Hp. cbn [fs]. by rewrite rmtree_outside.
  - pose proof (run_chains_stage_events E sch args_url _ _ _ Hrun)
      as (evs & Htr & Hevs).
    split_and!.
    + unfold main. by rewrite (bind_raise _ _ _ _ _ Hrun).
    + apply teardowns_stage_events. by exists evs.
    + rewrite Htr, drop_app_length.
      intros Hin. by apply (proj1 (Forall_forall _ _) Hevs) in Hin.
    + rewrite Htr, drop_app_length.
      intros Hin. by apply (proj1 (Forall_forall _ _) Hevs) in Hin.
    + by apply (run_chains_keeps_kinds E sch args_url _ _ _ Hrun).
Qed.

Lemma main_tears_down_only_after_success_witness :
  ∃ w',
    main Ref.externals Ref.in_order (Some Ref.url_A) Ref.empty_world
    = (Ok tt, w')
    ∧ teardowns w' = 1%nat
    ∧ (∀ p, temp_dir `prefix_of` p → fs w' !! p = None).
Proof.
  assert (Ht : tree (fs Ref.empty_world)).
  { intros p q [x Hx]. simpl in Hx. rewrite lookup_empty in Hx. discriminate. }
  pose proof (main_tears_down_only_after_success Ref.externals Ref.in_order
                (Some Ref.url_A) Ref.empty_world Ht) as H.
  destruct (run_chains Ref.externals Ref.in_order (Some Ref.url_A)
              Ref.empty_world) as [[[]|e] w1] eqn:Hrun.
  - destruct H as (_ & w' & Hmain & _ & Hcount & Hgone & _).
    exists w'. split_and!; [exact Hmain|exact Hcount|exact Hgone].
  - vm_compute in Hrun. discriminate Hrun.
Defined.

(** ** The downloads of a run at the gate *)

(** The chains that [main] awaits start with the downloads of
    [launches], in this order. *)
Lemma main_futures_launches (E : Externals) sch args_url :
  Forall2 (starts_with E) (main_futures E sch args_url) (launches E args_url).
Proof.
  unfold main_futures, launches.
  destruct (select_urls args_url) as [urls build_module].
  apply Forall2_app.
  - induction urls as [|url urls IH]; simpl; constructor; [|exact IH].
    by eexists.
  - destruct build_module; repeat constructor. by eexists.
Qed.

(** at most the installer script is fetched without the gate *)
Lemma launches_ungated (E : Externals) args_url :
  (length (filter (λ l, l_gated l = false) (launches E args_url)) ≤ 1)%nat.
Proof.
  unfold launches. destruct (select_urls args_url) as [urls build_module].
  rewrite filter_app, length_app.
  assert (Hgated : filter (λ l, l_gated l = false)
                     (map (λ url, Launch url (input_file E url) true) urls)
                   = []).
  { induction urls as [|url urls IH]; simpl; [done|].
    by rewrite filter_cons_False. }
  rewrite Hgated. destruct build_module; [|simpl; lia].
  rewrite filter_cons_True by done. simpl. lia.
Qed.

Lemma launches_ungated_filter (ls : list launch) :
  length (filter (λ g, g = false) (map l_gated ls))
  = length (filter (λ l, l_gated l = false) ls).
Proof.
  induction ls as [|l ls IH]; simpl; [done|].
  rewrite !filter_cons. repeat case_decide; simpl; congruence.
Qed.

Lemma zip_with_insert_r {A B C} (f : A → B → C) l k i x y :
  l !! i = Some x →
  zip_with f l (<[i := y]> k) = <[i := f x y]> (zip_with f l k).
Proof.
  intros Hx. rewrite insert_zip_with. by rewrite (list_insert_id l i x).
Qed.

Lemma gate_view_initial capacity ls w :
  gate_view ls (dl_initial capacity ls w)
  = Gate.initial capacity (map l_gated ls).
Proof.
  unfold gate_view, dl_initial, Gate.initial. simpl. f_equal.
  induction ls as [|l ls IH]; simpl; [done|]. by rewrite IH.
Qed.

Lemma gate_view_lookup ls ps i l p :
  ls !! i = Some l → ps !! i = Some p →
  zip_with Gate.Download (map l_gated ls) ps !! i
  = Some (Gate.Download (l_gated l) p).
Proof.
  intros Hl Hp. apply lookup_zip_with_Some. exists (l_gated l), p.
  split_and!; [done| |done].
  change (map l_gated ls) with (l_gated <$> ls).
  by rewrite list_lookup_fmap, Hl.
Qed.


(** what the gate sees of a step of the downloads is a step of the gate *)
Lemma dl_step_gate E ls s s' :
  dl_step E ls s s' → Gate.step (gate_view ls s) (gate_view ls s').
Proof.
  assert (Hmap : ∀ i l, ls !! i = Some l →
                   map l_gated ls !! i = Some (l_gated l)).
  { intros i l Hl. change (map l_gated ls) with (l_gated <$> ls).
    by rewrite list_lookup_fmap, Hl. }
  destruct 1 as [v ps w i l Hl Hg Hp|v ps w i l Hl Hg Hp
                |v ps w i l r w' Hl Hp Hrun];
    unfold gate_view; cbn [sem phases];
    rewrite (zip_with_insert_r _ _ _ _ _ _ (Hmap _ _ Hl));
    pose proof (gate_view_lookup ls ps i l _ Hl Hp) as Hi.
  - rewrite Hg in *. by apply Gate.step_acquire.
  - rewrite Hg in *. by apply Gate.step_enter_nullcontext.
  - destruct (l_gated l).
    + by apply Gate.step_release.
    + by apply Gate.step_exit_nullcontext.
Qed.




Lemma dl_reachable_gate E ls capacity w s :
  rtc (dl_step E ls) (dl_initial capacity ls w) s →
  Gate.reachable (Gate.initial capacity (map l_gated ls)) (gate_view ls s).
Proof.
  intros Hr. rewrite <- (gate_view_initial capacity ls w).
  eapply (rtc_congruence (gate_view ls)); [|exact Hr].
  apply dl_step_gate.
Qed.

(** a download that enters [async with actx] and leaves it with no other
    step in between does what [download_file] does *)
Lemma dl_step_download_file E ls v ps w i l :
  ls !! i = Some l → ps !! i = Some Gate.Pending →
  (l_gated l = true → (0 < v)%nat) →
  ∃ s1 s2,
    dl_step E ls (Loop v ps w) s1 ∧ dl_step E ls s1 s2
    ∧ sem s2 = v
    ∧ phases s2 = <[i := Gate.Finished]> ps
    ∧ loop_world s2
      = snd (download_file E (l_url l) (l_path l) (l_gated l) w).
Proof.
  intros Hl Hp Hv.
  assert (Hi : <[i := Gate.Active]> ps !! i = Some Gate.Active).
  { apply list_lookup_insert_eq. by apply lookup_lt_Some in Hp. }
  destruct (fetch_body E (l_url l) (l_path l)
              (World (fs w) (trace w ++ gate_open (l_gated l))))
    as [r w'] eqn:Hrun.
  rewrite (download_file_run _ _ _ _ _ _ _ Hrun). cbn [snd].
  destruct (l_gated l) eqn:Hg.
  - destruct v as [|v]; [specialize (Hv eq_refl); lia|].
    eexists _, _. split; [by eapply dl_acquire|].
    split; [by eapply dl_leave|].
    rewrite Hg. cbn [sem phases loop_world].
    by rewrite list_insert_insert_eq.
  - assert (Hw : World (fs w) (trace w ++ gate_open false) = w).
    { destruct w. simpl. by rewrite app_nil_r. }
    rewrite Hw in Hrun.
    eexists _, _. split; [by eapply dl_enter|].
    split; [by eapply dl_leave|].
    rewrite Hg. cbn [sem phases loop_world].
    by rewrite list_insert_insert_eq.
Qed.

Lemma fetch_body_transfer_events E url p w r w' :
  fetch_body E url p w = (r, w') →
  ∃ evs, trace w' = trace w ++ evs ∧ Forall transfer_event evs.
Proof.
  intros Hbody.
  by apply (preserves_fetch_body transfer_event (extends_trace transfer_event))
    in Hbody;
    [|first [ apply _ | apply extends_trace_dirs | apply extends_trace_file
            | apply extends_trace_emit | done ]..].
Qed.

Lemma acquires_app evs1 evs2 :
  acquires (evs1 ++ evs2) = (acquires evs1 + acquires evs2)%nat.
Proof. unfold acquires. by rewrite filter_app, length_app. Qed.

Lemma releases_app evs1 evs2 :
  releases (evs1 ++ evs2) = (releases evs1 + releases evs2)%nat.
Proof. unfold releases. by rewrite filter_app, length_app. Qed.

Lemma transfer_events_no_gate evs :
  Forall transfer_event evs → acquires evs = 0%nat ∧ releases evs = 0%nat.
Proof.
  unfold acquires, releases.
  induction 1 as [|ev evs Hev _ [IH1 IH2]]; [done|].
  rewrite !filter_cons_False; [done|..]; by intros ->.
Qed.

(** every slot that was taken is held by an active download or was given
    back *)
Lemma dl_reachable_trace E ls capacity w s :
  rtc (dl_step E ls) (dl_initial capacity ls w) s →
  ∃ evs, trace (loop_world s) = trace w ++ evs
         ∧ acquires evs
           = (releases evs + Gate.active_gated (gate_view ls s))%nat.
Proof.
  intros Hr. pattern s. revert s Hr. apply rtc_ind_r.
  - exists []. rewrite app_nil_r. split; [done|].
    by rewrite gate_view_initial, GateFacts.initial_active_gated.
  - intros s1 s2 _ Hs (evs & Htr & Hcount).
    pose proof (GateFacts.step_active_gated _ _ (dl_step_gate _ _ _ _ Hs))
      as Hsum.
    destruct Hs as [v ps w0 i l Hl Hg Hp|v ps w0 i l Hl Hg Hp
                   |v ps w0 i l r w' Hl Hp Hrun];
      unfold gate_view in *;
      cbn [Gate.value sem phases loop_world trace] in *.
    + exists (evs ++ [Acquire]). rewrite Htr, app_assoc. split; [done|].
      rewrite acquires_app, releases_app.
      change (acquires [Acquire]) with 1%nat.
      change (releases [Acquire]) with 0%nat. lia.
    + exists evs. split; [done|]. lia.
    + apply fetch_body_transfer_events in Hrun as (tevs & Htr' & Htevs).
      apply transfer_events_no_gate in Htevs as [Ha Hrel].
      exists (evs ++ tevs ++ gate_close (l_gated l)).
      rewrite Htr', Htr, <- !app_assoc. split; [done|].
      rewrite !acquires_app, !releases_app, Ha, Hrel.
      destruct (l_gated l).
      * change (acquires (gate_close true)) with 0%nat.
        change (releases (gate_close true)) with 1%nat. lia.
      * change (acquires (gate_close false)) with 0%nat.
        change (releases (gate_close false)) with 0%nat. lia.
Qed.

(** C8, as the code has it.  [main] starts one download per asset through
    [download_sem] and, in a default run, the installer script without a
    gate.  However the event loop interleaves them: the downloads that
    hold a slot and the free slots add up to the capacity, so at most
    [capacity] gated downloads are active at once; all active downloads
    are bounded by the capacity plus the ungated ones, of which there is
    at most one; and the slots taken so far are those given back plus
    those held by an active download.  The downloads are the first steps
    of the chains that [main] awaits; one that enters and leaves with no
    other step in between does what [download_file] does, which is to
    take its slot before anything of its transfer and to give it back
    when the transfer is over, by return or by exception. *)
Theorem semaphore_bounds_gated_downloads
    (E : Externals) (capacity : nat) (args_url : option string)
    (w : world) (s : loop) :
  rtc (dl_step E (launches E args_url))
    (dl_initial capacity (launches E args_url) w) s →
  (Gate.active_gated (gate_view (launches E args_url) s) + sem s
   = capacity)%nat
  ∧ (Gate.active_gated (gate_view (launches E args_url) s) ≤ capacity)%nat
  ∧ (Gate.active (gate_view (launches E args_url) s)
     ≤ capacity
       + length (filter (λ l, l_gated l = false) (launches E args_url)))%nat
  ∧ (length (filter (λ l, l_gated l = false) (launches E args_url)) ≤ 1)%nat
  ∧ (∃ evs, trace (loop_world s) = trace w ++ evs
            ∧ acquires evs
              = (releases evs
                 + Gate.active_gated (gate_view (launches E args_url) s))%nat)
  ∧ (∀ sch, Forall2 (starts_with E) (main_futures E sch args_url)
              (launches E args_url))
  ∧ (∀ v ps w0 i l,
       launches E args_url !! i = Some l → ps !! i = Some Gate.Pending →
       (l_gated l = true → (0 < v)%nat) →
       ∃ s1 s2,
         dl_step E (launches E args_url) (Loop v ps w0) s1
         ∧ dl_step E (launches E args_url) s1 s2
         ∧ sem s2 = v
         ∧ phases s2 = <[i := Gate.Finished]> ps
         ∧ loop_world s2
           = snd (download_file E (l_url l) (l_path l) (l_gated l) w0))
  ∧ (∀ url p gated w1 r w',
       download_file E url p gated w1 = (r, w') →
       ∃ evs, trace w' = trace w1 ++ gate_open gated ++ evs ++ gate_close gated
              ∧ Forall transfer_event evs).
Proof.
  intros Hr.
  pose proof (dl_reachable_trace _ _ _ _ _ Hr) as Htrace.
  pose proof (GateFacts.active_split (gate_view (launches E args_url) s))
    as Hsplit.
  apply dl_reachable_gate, GateFacts.reachable_invariant in Hr as [Hsum Hun].
  rewrite launches_ungated_filter in Hun. cbn [Gate.value gate_view] in Hsum.
  split_and!; [done|lia|lia|apply launches_ungated|done
              |intros sch; apply main_futures_launches
              |intros v ps w0 i l; apply dl_step_download_file
              |intros url p gated; apply download_file_gate_protocol].
Qed.

Lemma semaphore_bounds_gated_downloads_witness :
  let s := Loop 1 [Gate.Active; Gate.Pending; Gate.Pending]
             (World ∅ [Acquire]) in
  (Gate.active_gated (gate_view (launches Ref.externals None) s) + sem s
   = download_sem_capacity)%nat
  ∧ (Gate.active (gate_view (launches Ref.externals None) s)
     ≤ download_sem_capacity + 1)%nat
  ∧ acquires [Acquire]
    = (releases [Acquire]
       + Gate.active_gated (gate_view (launches Ref.externals None) s))%nat.
Proof.
  intros s.
  destruct (semaphore_bounds_gated_downloads Ref.externals
              download_sem_capacity None Ref.empty_world s)
    as (H1 & _ & H3 & H4 & (evs & Htr & H5) & _).
  { apply rtc_once.
    exact (dl_acquire Ref.externals (launches Ref.externals None) 1
             [Gate.Pending; Gate.Pending; Gate.Pending] Ref.empty_world
             0 _ eq_refl eq_refl eq_refl). }
  simpl in Htr. subst evs.
  split_and!; [exact H1|lia|exact H5].
Defined.

(** C8 as stated fails in the default run: its three downloads (two
    fonts through the gate of capacity two, the installer script without
    a gate) can all be active at once. *)
Lemma default_run_has_three_active_downloads :
  let ls := launches Ref.externals None in
  let s := Loop 0 [Gate.Active; Gate.Active; Gate.Active]
             (World ∅ [Acquire; Acquire]) in
  rtc (dl_step Ref.externals ls) (main_loop Ref.externals None Ref.empty_world) s
  ∧ (download_sem_capacity < length ls)%nat
  ∧ (download_sem_capacity < Gate.active (gate_view ls s))%nat.
Proof.
  split_and!; [|vm_compute; lia..].
  eapply rtc_l.
  { exact (dl_acquire Ref.externals (launches Ref.externals None) 1
             [Gate.Pending; Gate.Pending; Gate.Pending] Ref.empty_world
             0 _ eq_refl eq_refl eq_refl). }
  eapply rtc_l.
  { exact (dl_acquire Ref.externals (launches Ref.externals None) 0
             [Gate.Active; Gate.Pending; Gate.Pending] (World ∅ [Acquire])
             1 _ eq_refl eq_refl eq_refl). }
  apply rtc_once.
  exact (dl_enter Ref.externals (launches Ref.externals None) 0
           [Gate.Active; Gate.Active; Gate.Pending]
           (World ∅ [Acquire; Acquire]) 2 _ eq_refl eq_refl eq_refl).
Qed.


